(** * asyncssh stream sessions: a shallow embedding of [asyncssh/stream.py]

    The development models [SSHStreamSession] (receive queues, the read
    waiter slots, the drain waiters, the watermark accounting) together
    with the coroutines [read], [readline] and [drain].

    - A session is a record holding the attributes of the Python object.
      The two dicts [_recv_buf] and [_read_waiter] are finite maps keyed by
      datatype.  asyncio futures live in a store [futures]; a future is
      named by its index in the store.  Calls made on the channel
      ([pause_reading], [resume_reading]) are appended to [chan_calls].
    - Methods are computations in a state-and-exception monad [M]: a Python
      exception leaves the mutations made before it in place.
    - A coroutine runs until it returns, raises, or parks on
      [yield from waiter]; a parked coroutine is a [frame] holding its local
      variables.  The body of each [while True] iteration is one "pass".
    - The event loop is a transition system over sessions and tasks. *)

From Stdlib Require Import ZArith Lia Strings.Byte.
From stdpp Require Import base option list gmap fin_maps.

Open Scope Z_scope.

(** Datatype tags: [None] is the primary stream (Python [None]), [Some c] an
    extended data type code such as [EXTENDED_DATA_STDERR]. *)
Abbreviation datatype := (option N).

(** An asyncio future is named by its position in the store. *)
Abbreviation future := nat.

Inductive fstate := Pending | Done | Cancelled.

Inductive chan_call := pause_reading | resume_reading.

(** [len(x)] as a Python integer. *)
Definition len {A : Type} (l : list A) : Z := Z.of_nat (length l).

Section Stream.

(** [U] is the unit of payload: a byte when the channel has no encoding, a
    character when it has one.  [sep] is the line separator of that mode
    ([b'\n'] or ['\n']). *)
Context {U : Type} {Ueq : EqDecision U} (sep : U).

(** Python exceptions that the module raises or passes on.  The exception
    objects that the channel hands to [connection_lost] are named by a code;
    [ChannelError code] is such an object being raised. *)
Inductive exn :=
| KeyError (k : datatype)
| RuntimeError
| IncompleteReadError (partial : list U) (expected : Z)
| BrokenPipeError
| InvalidStateError
| CancelledError
| ChannelError (code : N).

(** An entry of a receive queue: a chunk of payload, or an exception object
    of the channel ([isinstance(recv_buf[0], Exception)]). *)
Inductive item :=
| Data (d : list U)
| Exc (code : N).

Record session := mk_session {
  _limit : Z;
  _exception : option N;
  _eof_received : bool;
  _connection_lost : bool;
  _recv_buf : gmap datatype (list item);
  _recv_buf_len : Z;
  _read_waiter : gmap datatype (option future);
  _write_paused : bool;
  _drain_waiters : list future;
  futures : list fstate;
  chan_calls : list chan_call
}.

Definition set_exception (v : option N) (s : session) : session :=
  mk_session (_limit s) v (_eof_received s) (_connection_lost s) (_recv_buf s)
    (_recv_buf_len s) (_read_waiter s) (_write_paused s) (_drain_waiters s)
    (futures s) (chan_calls s).

Definition set_eof_received (v : bool) (s : session) : session :=
  mk_session (_limit s) (_exception s) v (_connection_lost s) (_recv_buf s)
    (_recv_buf_len s) (_read_waiter s) (_write_paused s) (_drain_waiters s)
    (futures s) (chan_calls s).

Definition set_connection_lost (v : bool) (s : session) : session :=
  mk_session (_limit s) (_exception s) (_eof_received s) v (_recv_buf s)
    (_recv_buf_len s) (_read_waiter s) (_write_paused s) (_drain_waiters s)
    (futures s) (chan_calls s).

Definition set_recv_buf (v : gmap datatype (list item)) (s : session) : session :=
  mk_session (_limit s) (_exception s) (_eof_received s) (_connection_lost s) v
    (_recv_buf_len s) (_read_waiter s) (_write_paused s) (_drain_waiters s)
    (futures s) (chan_calls s).

Definition set_recv_buf_len (v : Z) (s : session) : session :=
  mk_session (_limit s) (_exception s) (_eof_received s) (_connection_lost s)
    (_recv_buf s) v (_read_waiter s) (_write_paused s) (_drain_waiters s)
    (futures s) (chan_calls s).

Definition set_read_waiter (v : gmap datatype (option future)) (s : session) : session :=
  mk_session (_limit s) (_exception s) (_eof_received s) (_connection_lost s)
    (_recv_buf s) (_recv_buf_len s) v (_write_paused s) (_drain_waiters s)
    (futures s) (chan_calls s).

Definition set_write_paused (v : bool) (s : session) : session :=
  mk_session (_limit s) (_exception s) (_eof_received s) (_connection_lost s)
    (_recv_buf s) (_recv_buf_len s) (_read_waiter s) v (_drain_waiters s)
    (futures s) (chan_calls s).

Definition set_drain_waiters (v : list future) (s : session) : session :=
  mk_session (_limit s) (_exception s) (_eof_received s) (_connection_lost s)
    (_recv_buf s) (_recv_buf_len s) (_read_waiter s) (_write_paused s) v
    (futures s) (chan_calls s).

Definition set_futures (v : list fstate) (s : session) : session :=
  mk_session (_limit s) (_exception s) (_eof_received s) (_connection_lost s)
    (_recv_buf s) (_recv_buf_len s) (_read_waiter s) (_write_paused s)
    (_drain_waiters s) v (chan_calls s).

Definition set_chan_calls (v : list chan_call) (s : session) : session :=
  mk_session (_limit s) (_exception s) (_eof_received s) (_connection_lost s)
    (_recv_buf s) (_recv_buf_len s) (_read_waiter s) (_write_paused s)
    (_drain_waiters s) (futures s) v.

(** ** The state-and-exception monad *)

Inductive result (A : Type) :=
| Ret (a : A)
| Raise (e : exn).
Arguments Ret {A} a.
Arguments Raise {A} e.

Definition M (A : Type) : Type := session → result A * session.

#[global] Instance M_ret : MRet M := λ A a s, (Ret a, s).

#[global] Instance M_bind : MBind M := λ A B f m s,
  match m s with
  | (Ret a, s') => f a s'
  | (Raise e, s') => (Raise e, s')
  end.

Definition gets {A : Type} (f : session → A) : M A := λ s, (Ret (f s), s).
Definition modify (f : session → session) : M unit := λ s, (Ret tt, f s).
Definition raise {A : Type} (e : exn) : M A := λ s, (Raise e, s).

(** A branch that does nothing. *)
Definition skip : M unit := mret tt.

(** [for x in l: body(x)] *)
Fixpoint for_each {A : Type} (l : list A) (body : A → M unit) : M unit :=
  match l with
  | [] => skip
  | x :: l' => body x ;; for_each l' body
  end.

(** [d.keys()] of a dict. *)
Definition keys {V : Type} (d : gmap datatype V) : list datatype :=
  (map_to_list d).*1.

(** [self._recv_buf[datatype]] and [self._read_waiter[datatype]]: a missing
    key raises [KeyError]. *)
Definition recv_buf_at (dt : datatype) : M (list item) := λ s,
  match _recv_buf s !! dt with
  | Some q => (Ret q, s)
  | None => (Raise (KeyError dt), s)
  end.

Definition read_waiter_at (dt : datatype) : M (option future) := λ s,
  match _read_waiter s !! dt with
  | Some w => (Ret w, s)
  | None => (Raise (KeyError dt), s)
  end.

(** Calls on [self._chan] are recorded in order. *)
Definition chan (c : chan_call) : M unit :=
  modify (λ s, set_chan_calls (chan_calls s ++ [c]) s).

(** ** asyncio futures *)

(** [asyncio.Future(loop=self._loop)] *)
Definition Future : M future := λ s,
  (Ret (length (futures s)), set_futures (futures s ++ [Pending]) s).

(** [waiter.cancelled()] *)
Definition cancelled (w : future) : M bool :=
  gets (λ s, match futures s !! w with Some Cancelled => true | _ => false end).

(** [waiter.set_result(None)]: only a pending future accepts a result. *)
Definition set_result (w : future) : M unit := λ s,
  match futures s !! w with
  | Some Pending => (Ret tt, set_futures (<[w:=Done]> (futures s)) s)
  | _ => (Raise InvalidStateError, s)
  end.

(** ** SSHStreamSession: callbacks *)

(** [_block_read] up to its [yield from waiter]; the result is the waiter
    the caller parks on. *)
Definition _block_read (dt : datatype) : M future :=
  cur ← read_waiter_at dt;
  match cur with
  | Some _ => raise RuntimeError
  | None =>
      waiter ← Future;
      modify (λ s, set_read_waiter (<[dt:=Some waiter]> (_read_waiter s)) s);;
      mret waiter
  end.

Definition _unblock_read (dt : datatype) : M unit :=
  waiter ← read_waiter_at dt;
  match waiter with
  | Some w =>
      c ← cancelled w;
      (if c : bool then skip else set_result w);;
      modify (λ s, set_read_waiter (<[dt:=None]> (_read_waiter s)) s)
  | None => skip
  end.

Definition _unblock_drain : M unit :=
  ws ← gets _drain_waiters;
  for_each ws (λ w, c ← cancelled w; if c : bool then skip else set_result w);;
  modify (set_drain_waiters []).

(** [__init__] followed by [connection_made(chan)], where the channel
    answers [get_recv_window()] with [recv_window] and
    [get_read_datatypes()] with [read_datatypes].  Sessions are modelled
    from this point on: [_chan], [_loop] and [_limit] are set. *)
Definition connection_made (recv_window : Z) (read_datatypes : list datatype)
  : session :=
  mk_session recv_window None false false
    (foldl (λ (d : gmap datatype (list item)) dt, <[dt:=[]]> d)
       {[None := []]} read_datatypes)
    0
    (foldl (λ (d : gmap datatype (option future)) dt, <[dt:=None]> d)
       {[None := None]} read_datatypes)
    false [] [] [].

Definition eof_received : M bool :=
  modify (set_eof_received true);;
  ks ← gets (λ s, keys (_read_waiter s));
  for_each ks _unblock_read;;
  mret true.

Definition connection_lost (exc : option N) : M unit :=
  modify (set_connection_lost true);;
  modify (set_exception exc);;
  eof ← gets _eof_received;
  (if eof : bool then skip
   else
     match exc with
     | Some e =>
         ks ← gets (λ s, keys (_read_waiter s));
         for_each ks (λ dt,
           q ← recv_buf_at dt;
           modify (λ s, set_recv_buf (<[dt:=q ++ [Exc e]]> (_recv_buf s)) s))
     | None => skip
     end;;
     eof_received;; skip);;
  wp ← gets _write_paused;
  if wp : bool then _unblock_drain else skip.

Definition data_received (data : list U) (dt : datatype) : M unit :=
  q ← recv_buf_at dt;
  modify (λ s, set_recv_buf (<[dt:=q ++ [Data data]]> (_recv_buf s)) s);;
  modify (λ s, set_recv_buf_len (_recv_buf_len s + len data) s);;
  _unblock_read dt;;
  l ← gets _recv_buf_len;
  lim ← gets _limit;
  if bool_decide (lim ≤ l) then chan pause_reading else skip.

(** [self._eof_received and not self._recv_buf[datatype]]: the right operand
    is evaluated only when the left one is true. *)
Definition at_eof (dt : datatype) : M bool :=
  eof ← gets _eof_received;
  if eof : bool then
    q ← recv_buf_at dt;
    mret (match q with [] => true | _ => false end)
  else mret false.

Definition pause_writing : M unit := modify (set_write_paused true).

Definition resume_writing : M unit :=
  modify (set_write_paused false);; _unblock_drain.

(** ** Python sequence primitives used by the coroutines *)

(** [c.find(sep)]: index of the first separator, [-1] when there is none. *)
Fixpoint find (c : list U) : Z :=
  match c with
  | [] => -1
  | x :: c' =>
      if decide (x = sep) then 0
      else let i := find c' in if bool_decide (i < 0) then -1 else i + 1
  end.

(** [c[:k]] and [c[k:]]; a negative index counts from the end. *)
Definition slice_to (c : list U) (k : Z) : list U :=
  take (Z.to_nat (if bool_decide (0 ≤ k) then k else len c + k)) c.

Definition slice_from (c : list U) (k : Z) : list U :=
  drop (Z.to_nat (if bool_decide (0 ≤ k) then k else len c + k)) c.

(** Truth value of a list: [if data:]. *)
Definition nonempty {A : Type} (l : list A) : bool :=
  match l with [] => false | _ => true end.

(** [buf.join(data)] with an empty [buf]. *)
Definition join (data : list (list U)) : list U := concat data.

(** ** Coroutines *)

(** A coroutine parked on [yield from waiter], with its local variables. *)
Inductive frame :=
| ReadFrame (n : Z) (dt : datatype) (exact : bool) (data : list (list U))
    (waiter : future)
| ReadlineFrame (dt : datatype) (data : list (list U)) (waiter : future)
| DrainFrame (waiter : future).

(** What running a coroutine up to its next suspension point yields. *)
Inductive coro (A : Type) :=
| Return (a : A)
| Yield (fr : frame).
Arguments Return {A} a.
Arguments Yield {A} fr.

(** The inner [while recv_buf and n != 0] loop of [read].  It works on the
    queue of the datatype, [n], [data] and [self._recv_buf_len], and reports
    [Some e] when it leaves by [raise recv_buf.pop(0)]. *)
Fixpoint read_loop (q : list item) (n : Z) (data : list (list U)) (blen : Z)
  : option exn * list item * Z * list (list U) * Z :=
  match q with
  | [] => (None, q, n, data, blen)
  | it :: q' =>
      if bool_decide (n = 0) then (None, q, n, data, blen)
      else
        match it with
        | Exc e =>
            if nonempty data then (None, q, n, data, blen)
            else (Some (ChannelError e), q', n, data, blen)
        | Data c =>
            let l := len c in
            if bool_decide (0 < n) && bool_decide (n < l) then
              (None, Data (slice_from c n) :: q', 0,
               data ++ [slice_to c n], blen - n)
            else read_loop q' (n - l) (data ++ [c]) (blen - l)
        end
  end.

(** [if self._recv_buf_len < self._limit: self._chan.resume_reading()] *)
Definition maybe_resume_reading : M unit :=
  l ← gets _recv_buf_len;
  lim ← gets _limit;
  if bool_decide (l < lim) then chan resume_reading else skip.

(** One iteration of the outer [while True] of [read], entered with the
    locals [n] and [data].  [recv_buf] is an alias of the list stored under
    [datatype]; the dict entry is never rebound, so the alias and the entry
    are the same object throughout. *)
Definition read_pass (n : Z) (dt : datatype) (exact : bool)
    (data : list (list U)) : M (coro (list U)) :=
  q ← recv_buf_at dt;
  l ← gets _recv_buf_len;
  let '(ex, q', n', data', l') := read_loop q n data l in
  modify (λ s, set_recv_buf (<[dt:=q']> (_recv_buf s)) (set_recv_buf_len l' s));;
  match ex with
  | Some e => raise e
  | None =>
      maybe_resume_reading;;
      eof ← gets _eof_received;
      if bool_decide (n' = 0)
         || (bool_decide (0 < n') && nonempty data' && negb exact)
         || (eof : bool)
      then
        let buf := join data' in
        if bool_decide (0 < n') && exact
        then raise (IncompleteReadError buf (len buf + n'))
        else mret (Return buf)
      else
        waiter ← _block_read dt;
        mret (Yield (ReadFrame n' dt exact data' waiter))
  end.

(** [read(n, datatype, exact)] up to its first suspension. *)
Definition read (n : Z) (dt : datatype) (exact : bool) : M (coro (list U)) :=
  read_pass n dt exact [].

(** How the inner [while recv_buf] loop of [readline] ends. *)
Inductive readline_exit :=
| LineFound              (* separator found: resume check, then return *)
| LineDeferred           (* exception at the head, data collected: return *)
| LineRaise (e : exn)    (* exception at the head, no data: raise it *)
| LineExhausted.         (* queue empty *)

Fixpoint readline_loop (q : list item) (data : list (list U)) (blen : Z)
  : readline_exit * list item * list (list U) * Z :=
  match q with
  | [] => (LineExhausted, q, data, blen)
  | Exc e :: q' =>
      if nonempty data then (LineDeferred, q, data, blen)
      else (LineRaise (ChannelError e), q', data, blen)
  | Data c :: q' =>
      let idx := find c + 1 in
      if bool_decide (0 < idx) then
        (LineFound, Data (slice_from c idx) :: q', data ++ [slice_to c idx],
         blen - idx)
      else readline_loop q' (data ++ [c]) (blen - len c)
  end.

(** One iteration of the outer [while True] of [readline]. *)
Definition readline_pass (dt : datatype) (data : list (list U))
  : M (coro (list U)) :=
  q ← recv_buf_at dt;
  l ← gets _recv_buf_len;
  let '(ex, q', data', l') := readline_loop q data l in
  modify (λ s, set_recv_buf (<[dt:=q']> (_recv_buf s)) (set_recv_buf_len l' s));;
  match ex with
  | LineRaise e => raise e
  | LineDeferred => mret (Return (join data'))
  | LineFound => maybe_resume_reading;; mret (Return (join data'))
  | LineExhausted =>
      maybe_resume_reading;;
      eof ← gets _eof_received;
      if eof : bool then mret (Return (join data'))
      else
        waiter ← _block_read dt;
        mret (Yield (ReadlineFrame dt data' waiter))
  end.

Definition readline (dt : datatype) : M (coro (list U)) :=
  readline_pass dt [].

(** The part of [drain] after its suspension point. *)
Definition drain_finish : M (coro unit) :=
  lost ← gets _connection_lost;
  if lost : bool then
    exc ← gets _exception;
    wp ← gets _write_paused;
    match exc with
    | Some e => raise (ChannelError e)
    | None => if wp : bool then raise BrokenPipeError else mret (Return tt)
    end
  else mret (Return tt).

Definition drain : M (coro unit) :=
  wp ← gets _write_paused;
  lost ← gets _connection_lost;
  if (wp : bool) && negb lost then
    waiter ← Future;
    modify (λ s, set_drain_waiters (_drain_waiters s ++ [waiter]) s);;
    mret (Yield (DrainFrame waiter))
  else
    drain_finish.

(** ** The event loop

    A task runs one coroutine call.  The loop interleaves the callbacks of
    the channel, new calls, the resumption of a parked task whose future is
    no longer pending, and task cancellation. *)

Inductive request :=
| Read (n : Z) (dt : datatype) (exact : bool)
| Readline (dt : datatype)
| Drain.

Inductive tstate :=
| Parked (fr : frame)
| Finished (r : result (option (list U))).

Record task := mk_task { call : request; state : tstate }.

Record system := mk_system { sess : session; tasks : list task }.

Inductive event :=
| ConnectionLost (exc : option N)
| DataReceived (data : list U) (dt : datatype)
| EofReceived
| PauseWriting
| ResumeWriting
| Call (r : request)
| Wake (tid : nat)
| Cancel (tid : nat).

Definition waiter_of (fr : frame) : future :=
  match fr with
  | ReadFrame _ _ _ _ w | ReadlineFrame _ _ w | DrainFrame w => w
  end.

(** The value a coroutine hands to its caller: [read] and [readline] return
    a buffer, [drain] returns [None]. *)
Definition as_value {A : Type} (f : A → option (list U)) (m : M (coro A))
  : M (coro (option (list U))) :=
  c ← m;
  mret (match c with Return a => Return (f a) | Yield fr => Yield fr end).

Definition start (r : request) : M (coro (option (list U))) :=
  match r with
  | Read n dt exact => as_value Some (read n dt exact)
  | Readline dt => as_value Some (readline dt)
  | Drain => as_value (λ _, None) drain
  end.

(** Resuming a parked coroutine: [yield from waiter] raises
    [CancelledError] when the future was cancelled, and falls through to the
    next pass otherwise. *)
Definition resume (fr : frame) : M (coro (option (list U))) :=
  st ← gets (λ s, futures s !! waiter_of fr);
  match st with
  | Some Cancelled => raise CancelledError
  | _ =>
      match fr with
      | ReadFrame n dt exact data _ => as_value Some (read_pass n dt exact data)
      | ReadlineFrame dt data _ => as_value Some (readline_pass dt data)
      | DrainFrame _ => as_value (λ _, None) drain_finish
      end
  end.

Definition settle (r : result (coro (option (list U)))) : tstate :=
  match r with
  | Ret (Return v) => Finished (Ret v)
  | Ret (Yield fr) => Parked fr
  | Raise e => Finished (Raise e)
  end.

(** A callback runs to completion; an exception it raises goes back to the
    channel and the session keeps the state reached. *)
Definition callback {A : Type} (m : M A) (sys : system) : system :=
  mk_system (m (sess sys)).2 (tasks sys).

Definition step (sys : system) (ev : event) : system :=
  match ev with
  | ConnectionLost exc => callback (connection_lost exc) sys
  | DataReceived data dt => callback (data_received data dt) sys
  | EofReceived => callback eof_received sys
  | PauseWriting => callback pause_writing sys
  | ResumeWriting => callback resume_writing sys
  | Call r =>
      let '(res, s') := start r (sess sys) in
      mk_system s' (tasks sys ++ [mk_task r (settle res)])
  | Wake tid =>
      match tasks sys !! tid with
      | Some (mk_task r (Parked fr)) =>
          match futures (sess sys) !! waiter_of fr with
          | Some Done | Some Cancelled =>
              let '(res, s') := resume fr (sess sys) in
              mk_system s' (<[tid:=mk_task r (settle res)]> (tasks sys))
          | _ => sys
          end
      | _ => sys
      end
  | Cancel tid =>
      match tasks sys !! tid with
      | Some (mk_task r (Parked fr)) =>
          match futures (sess sys) !! waiter_of fr with
          | Some Pending =>
              mk_system
                (set_futures (<[waiter_of fr:=Cancelled]> (futures (sess sys)))
                   (sess sys))
                (tasks sys)
          | _ =>
              mk_system (sess sys)
                (<[tid:=mk_task r (Finished (Raise CancelledError))]> (tasks sys))
          end
      | _ => sys
      end
  end.

Definition run (sys : system) (tr : list event) : system := foldl step sys tr.

(** A freshly connected session with no task. *)
Definition boot (recv_window : Z) (read_datatypes : list datatype) : system :=
  mk_system (connection_made recv_window read_datatypes) [].

(** The session reached from a fresh connection by a trace of the event
    loop. *)
Definition reached (recv_window : Z) (read_datatypes : list datatype)
    (tr : list event) : session :=
  sess (run (boot recv_window read_datatypes) tr).

(** ** Notions used to state the properties *)

(** The payload held by a queue, in order; exception objects carry none. *)
Fixpoint queue_data (q : list item) : list U :=
  match q with
  | [] => []
  | Data d :: q' => d ++ queue_data q'
  | Exc _ :: q' => queue_data q'
  end.

Definition queue_len (q : list item) : Z := len (queue_data q).

(** Sum of the lengths of the buffered chunks over all datatypes. *)
Definition buffered_len (s : session) : Z :=
  map_fold (λ _ q acc, queue_len q + acc) 0 (_recv_buf s).

(** The counter agrees with the queues. *)
Definition len_inv (s : session) : Prop := _recv_buf_len s = buffered_len s.

(** A property that looks at the receive queues, at their counter, and at
    the EOF flag, and that outlives the flag being raised. *)
Definition buffer_only (P : session → Prop) : Prop :=
  ∀ s s', _recv_buf s' = _recv_buf s → _recv_buf_len s' = _recv_buf_len s →
    (_eof_received s = true → _eof_received s' = true) →
    P s → P s'.

(** A future that may still be waited on: pending, or cancelled by its
    waiting task. *)
Definition live (s : session) (w : future) : Prop :=
  futures s !! w = Some Pending ∨ futures s !! w = Some Cancelled.

(** Well-formed sessions: the two dicts have the same keys; the futures held
    in waiter slots and in the drain list are live and pairwise distinct. *)
Record wf (s : session) : Prop := mk_wf {
  wf_keys : ∀ dt, is_Some (_recv_buf s !! dt) ↔ is_Some (_read_waiter s !! dt);
  wf_slot_live : ∀ dt w, _read_waiter s !! dt = Some (Some w) → live s w;
  wf_slot_inj : ∀ dt1 dt2 w,
    _read_waiter s !! dt1 = Some (Some w) →
    _read_waiter s !! dt2 = Some (Some w) → dt1 = dt2;
  wf_drain_live : ∀ w, w ∈ _drain_waiters s → live s w;
  wf_drain_nodup : NoDup (_drain_waiters s);
  wf_drain_slot : ∀ dt w,
    _read_waiter s !! dt = Some (Some w) → w ∉ _drain_waiters s
}.

(** The session once a pass has stored the queue [q] under [dt] and the
    counter [l]. *)
Definition drained (dt : datatype) (q : list item) (l : Z) (s : session)
  : session :=
  set_recv_buf (<[dt:=q]> (_recv_buf s)) (set_recv_buf_len l s).

(** The session once the watermark check of a pass has run. *)
Definition resumed (s : session) : session :=
  if bool_decide (_recv_buf_len s < _limit s)
  then set_chan_calls (chan_calls s ++ [resume_reading]) s
  else s.

(** The session once a reader has parked on a fresh future under [dt]. *)
Definition parked (dt : datatype) (s : session) : session :=
  set_read_waiter (<[dt:=Some (length (futures s))]> (_read_waiter s))
    (set_futures (futures s ++ [Pending]) s).

(** How a pass ends once its inner loop is over: it parks on a fresh
    future, or fails when the slot is taken or missing. *)
Definition park_or_fail (dt : datatype) (fr : future → frame) (s : session)
  : result (coro (list U)) * session :=
  match _read_waiter s !! dt with
  | Some None => (Ret (Yield (fr (length (futures s)))), parked dt s)
  | Some (Some _) => (Raise RuntimeError, s)
  | None => (Raise (KeyError dt), s)
  end.

(** What an exact read of [n0 > 0] units owes its caller, at each stage of
    the call: while parked it still lacks [n] units with [n] and the data
    held adding up to [n0]; it returns exactly [n0] units; an
    [IncompleteReadError] reports [n0] as the expected total and carries
    fewer units. *)
Definition exact_contract (n0 : Z) (dt : datatype) (st : tstate) : Prop :=
  match st with
  | Parked fr =>
      ∃ n data w, fr = ReadFrame n dt true data w
        ∧ 0 < n ∧ n + len (join data) = n0
  | Finished (Ret v) => ∃ buf, v = Some buf ∧ len buf = n0
  | Finished (Raise (IncompleteReadError partial expected)) =>
      expected = n0 ∧ len partial < n0
  | Finished (Raise _) => True
  end.

Definition task_contract (t : task) : Prop :=
  match call t with
  | Read n0 dt true => 0 < n0 → exact_contract n0 dt (state t)
  | _ => True
  end.

(** Number of exception objects a queue holds. *)
Fixpoint exc_count (q : list item) : nat :=
  match q with
  | [] => 0
  | Exc _ :: q' => S (exc_count q')
  | Data _ :: q' => exc_count q'
  end.

(** Exception objects waiting in the queue of [dt]. *)
Definition queued_errors (dt : datatype) (s : session) : nat :=
  exc_count (default [] (_recv_buf s !! dt)).

(** The datatype a call reads, the datatype a parked frame reads. *)
Definition call_datatype (r : request) : option datatype :=
  match r with
  | Read _ dt _ | Readline dt => Some dt
  | Drain => None
  end.

Definition frame_datatype (fr : frame) : option datatype :=
  match fr with
  | ReadFrame _ dt _ _ _ | ReadlineFrame dt _ _ => Some dt
  | DrainFrame _ => None
  end.

(** [1] when the task is a read on [dt] that ended by raising an exception
    object of the channel, [0] otherwise. *)
Definition raised_error (dt : datatype) (t : task) : nat :=
  match state t with
  | Finished (Raise (ChannelError _)) =>
      if decide (call_datatype (call t) = Some dt) then 1%nat else 0%nat
  | _ => 0%nat
  end.

Definition errors_raised (dt : datatype) (ts : list task) : nat :=
  sum_list_with (raised_error dt) ts.

(** A parked frame belongs to the call of its task. *)
Definition frame_matches (t : task) : Prop :=
  match state t with
  | Parked fr => frame_datatype fr = call_datatype (call t)
  | Finished _ => True
  end.

(** One channel error per datatype, and only once the EOF flag is up. *)
Definition error_budget (s : session) : nat :=
  if _eof_received s then 1%nat else 0%nat.

Definition within_budget (c : datatype → nat) (s : session) : Prop :=
  ∀ dt, (queued_errors dt s + c dt ≤ error_budget s)%nat.

Definition once_inv (sys : system) : Prop :=
  wf (sess sys)
  ∧ Forall frame_matches (tasks sys)
  ∧ within_budget (λ dt, errors_raised dt (tasks sys)) (sess sys).

(** Shape of the session after a pass on [dt], and what the pass did with
    the exception objects of the queue. *)
Definition pass_shape (dt : datatype) (q : list item) (s : session)
    (out : result (coro (list U)) * session) : Prop :=
  ∃ q', _recv_buf out.2 = <[dt:=q']> (_recv_buf s)
    ∧ _eof_received out.2 = _eof_received s
    ∧ match out.1 with
      | Raise (ChannelError _) => (exc_count q' + 1 = exc_count q)%nat
      | Ret (Yield fr) => frame_datatype fr = Some dt ∧ exc_count q' = exc_count q
      | _ => exc_count q' = exc_count q
      end.

(** The payload a finished or parked pass hands on: the buffer it returns,
    the partial data of an [IncompleteReadError], the data a parked frame
    holds. *)
Definition frame_data (fr : frame) : list U :=
  match fr with
  | ReadFrame _ _ _ data _ | ReadlineFrame _ data _ => join data
  | DrainFrame _ => []
  end.

Definition outcome_data (r : result (coro (list U))) : list U :=
  match r with
  | Ret (Return buf) => buf
  | Ret (Yield fr) => frame_data fr
  | Raise (IncompleteReadError partial _) => partial
  | Raise _ => []
  end.

(** The payload queued under [dt]. *)
Definition queued_data (dt : datatype) (s : session) : list U :=
  queue_data (default [] (_recv_buf s !! dt)).

(** The session with the waiter slot of [dt] emptied: what a call on [dt]
    would see if no reader were parked there. *)
Definition freed (dt : datatype) (s : session) : session :=
  set_read_waiter (<[dt:=None]> (_read_waiter s)) s.

(** ** A single sequential reader *)

(** The payload a task has taken off the queue so far: the buffer it
    returned, the partial data of its [IncompleteReadError], or what its
    parked frame holds. *)
Definition task_data (t : task) : list U :=
  match state t with
  | Finished (Ret (Some buf)) => buf
  | Finished (Raise (IncompleteReadError partial _)) => partial
  | Finished _ => []
  | Parked fr => frame_data fr
  end.

(** The same over all tasks, in the order of their calls. *)
Definition consumed (ts : list task) : list U := concat (task_data <$> ts).

(** The payload the [data_received] calls of a trace deliver on [dt]. *)
Fixpoint delivered (dt : datatype) (tr : list event) : list U :=
  match tr with
  | [] => []
  | DataReceived d dt' :: tr' =>
      if decide (dt' = dt) then d ++ delivered dt tr' else delivered dt tr'
  | _ :: tr' => delivered dt tr'
  end.

Definition finished (t : task) : bool :=
  match state t with Finished _ => true | Parked _ => false end.

(** No call is in progress. *)
Definition reader_idle (sys : system) : bool := forallb finished (tasks sys).

(** The events of one reader on [dt] that makes its calls one after the
    other: data and EOF arrive at any time, a parked call is resumed at any
    time, and a new [read] or [readline] on [dt] starts only once the
    previous call has finished. *)
Definition allowed (dt : datatype) (sys : system) (ev : event) : bool :=
  match ev with
  | DataReceived _ dt' => bool_decide (dt' = dt)
  | EofReceived => true
  | Call r => bool_decide (call_datatype r = Some dt) && reader_idle sys
  | Wake _ => true
  | _ => false
  end.

Fixpoint sequential (dt : datatype) (sys : system) (tr : list event) : bool :=
  match tr with
  | [] => true
  | ev :: tr' => allowed dt sys ev && sequential dt (step sys ev) tr'
  end.

(** Where the reader on [dt] stands: no call in progress and the slot empty;
    or the last call parked, either still waiting in the slot on a pending
    future, or woken (future done, slot emptied) and not yet resumed. *)
Definition reader_state (dt : datatype) (sys : system) : Prop :=
  (reader_idle sys = true ∧ _read_waiter (sess sys) !! dt = Some None)
  ∨ ∃ ts r fr,
      tasks sys = ts ++ [mk_task r (Parked fr)]
      ∧ forallb finished ts = true
      ∧ frame_datatype fr = Some dt
      ∧ ((_read_waiter (sess sys) !! dt = Some (Some (waiter_of fr))
          ∧ futures (sess sys) !! waiter_of fr = Some Pending)
         ∨ (_read_waiter (sess sys) !! dt = Some None
            ∧ futures (sess sys) !! waiter_of fr = Some Done)).

(** What the reader has taken and what is still queued add up to [acc]; the
    queue holds data only. *)
Definition reader_inv (dt : datatype) (acc : list U) (sys : system) : Prop :=
  wf (sess sys)
  ∧ reader_state dt sys
  ∧ queued_errors dt (sess sys) = 0%nat
  ∧ consumed (tasks sys) ++ queued_data dt (sess sys) = acc.

(** What the invariant of the sequential reader needs from a pass on [dt]
    that started with the slot free, the queue [q] and the data [data]. *)
Definition pass_ok (dt : datatype) (data : list (list U)) (q : list item)
    (out : result (coro (list U)) * session) : Prop :=
  outcome_data out.1 ++ queued_data dt out.2 = join data ++ queue_data q
  ∧ (queued_errors dt out.2 ≤ exc_count q)%nat
  ∧ match out.1 with
    | Ret (Yield fr) =>
        frame_datatype fr = Some dt
        ∧ _read_waiter out.2 !! dt = Some (Some (waiter_of fr))
        ∧ futures out.2 !! waiter_of fr = Some Pending
    | _ => _read_waiter out.2 !! dt = Some None
    end.

(** The datatypes in [ks], and no others, have a queue. *)
Definition registered (ks : list datatype) (s : session) : Prop :=
  ∀ dt, is_Some (_recv_buf s !! dt) ↔ dt ∈ ks.

(** An exception object is at the head of the queue of [dt]. *)
Definition error_at_head (dt : datatype) (s : session) : bool :=
  match _recv_buf s !! dt with
  | Some (Exc _ :: _) => true
  | _ => false
  end.

(** What the watermark check of a pass appends to the calls made on the
    channel, given the session the pass leaves. *)
Definition resume_check (s : session) : list chan_call :=
  if bool_decide (_recv_buf_len s < _limit s) then [resume_reading] else [].

(** A property of the flags, of the recorded exception, of the limit and of
    the drain waiters: it ignores the queues, their counter, the waiter
    slots, the futures and the calls made on the channel. *)
Definition flags_only (P : session → Prop) : Prop :=
  ∀ s s',
    _limit s' = _limit s → _exception s' = _exception s →
    _eof_received s' = _eof_received s →
    _connection_lost s' = _connection_lost s →
    _write_paused s' = _write_paused s →
    _drain_waiters s' = _drain_waiters s →
    P s → P s'.

(** ** What a call can end with *)

(** The exceptions a call may raise.  [eof] tells whether EOF is flagged. *)
Definition raises_ok (r : request) (eof : bool) (e : exn) : Prop :=
  match e with
  | IncompleteReadError _ _ =>
      match r with
      | Read n0 _ exact => exact = true ∧ 0 < n0 ∧ eof = true
      | _ => False
      end
  | BrokenPipeError => r = Drain
  | KeyError _ | RuntimeError => r ≠ Drain
  | InvalidStateError => False
  | ChannelError _ | CancelledError => True
  end.

(** What each call owes its caller: a parked call holds the frame of its own
    coroutine, a [read(n0)] with [n0 > 0] parked with [n] units to go holds
    the other [n0 - n], and one with [n0 < 0] keeps a negative count; a
    [read] returns a buffer of at most [n0] units when [n0 >= 0], and only
    at EOF when [n0 < 0]; [readline] returns a buffer and [drain]
    nothing. *)
Definition call_contract (eof : bool) (t : task) : Prop :=
  match state t with
  | Parked fr =>
      match call t with
      | Read n0 dt exact =>
          ∃ n data w, fr = ReadFrame n dt exact data w
            ∧ (0 < n0 → 0 < n ∧ n + len (join data) = n0)
            ∧ (n0 < 0 → n < 0) ∧ n0 ≠ 0
      | Readline dt => ∃ data w, fr = ReadlineFrame dt data w
      | Drain => ∃ w, fr = DrainFrame w
      end
  | Finished (Ret v) =>
      match call t with
      | Read n0 _ _ =>
          ∃ buf, v = Some buf ∧ (0 ≤ n0 → len buf ≤ n0)
            ∧ (n0 < 0 → eof = true)
      | Readline _ => ∃ buf, v = Some buf
      | Drain => v = None
      end
  | Finished (Raise e) => raises_ok (call t) eof e
  end.

(** ** Lines *)

(** At most one line: no separator at all, or exactly one, at the end. *)
Definition one_line (buf : list U) : Prop :=
  sep ∉ buf ∨ ∃ a, buf = a ++ [sep] ∧ sep ∉ a.

(** A parked [readline] holds no separator; a [readline] returns at most one
    line. *)
Definition line_contract (eof : bool) (t : task) : Prop :=
  match call t with
  | Readline _ =>
      match state t with
      | Parked fr => ∃ dt data w, fr = ReadlineFrame dt data w ∧ sep ∉ join data
      | Finished (Ret v) => ∃ buf, v = Some buf ∧ one_line buf
      | Finished (Raise _) => True
      end
  | _ => True
  end.

(** ** An exact read run to its end *)

(** A [data_received] on [dt]. *)
Definition delivery (dt : datatype) (ev : event) : bool :=
  match ev with
  | DataReceived _ dt' => bool_decide (dt' = dt)
  | _ => false
  end.

(** A [data_received] on [dt], or the resumption of a task. *)
Definition feeds (dt : datatype) (ev : event) : bool :=
  match ev with
  | DataReceived _ dt' => bool_decide (dt' = dt)
  | Wake _ => true
  | _ => false
  end.

(** [read(n, dt, exact=True)] called after the deliveries [before]; then the
    deliveries and resumptions [body], in any order; then EOF and a last
    resumption of the call. *)
Definition exact_read_run (dt : datatype) (n : Z) (before body : list event)
  : list event :=
  before ++ Call (Read n dt true) :: body ++ [EofReceived; Wake 0].

(** The one call of such a run while data still arrives, [acc] being the
    data delivered so far: it has returned the first [n] units; or it is
    parked, what it holds and what is queued being [acc], either waiting in
    the slot on a pending future with nothing queued, or woken and not yet
    resumed. *)
Definition exact_run_inv (dt : datatype) (n : Z) (acc : list U)
    (sys : system) : Prop :=
  wf (sess sys) ∧ _eof_received (sess sys) = false
  ∧ ((tasks sys
      = [mk_task (Read n dt true)
           (Finished (Ret (Some (take (Z.to_nat n) acc))))]
      ∧ n ≤ len acc)
     ∨ ∃ n' data w qs,
         tasks sys
         = [mk_task (Read n dt true) (Parked (ReadFrame n' dt true data w))]
         ∧ 0 < n' ∧ n' + len (join data) = n
         ∧ join data ++ concat qs = acc
         ∧ _recv_buf (sess sys) !! dt = Some (Data <$> qs)
         ∧ ((_read_waiter (sess sys) !! dt = Some (Some w)
             ∧ futures (sess sys) !! w = Some Pending ∧ qs = [])
            ∨ (_read_waiter (sess sys) !! dt = Some None
               ∧ futures (sess sys) !! w = Some Done))).

(** [preserves P m]: running [m] keeps [P], whether it returns or raises. *)
Definition preserves {A : Type} (P : session → Prop) (m : M A) : Prop :=
  ∀ s, P s → P (m s).2.

End Stream.

Arguments exn U : clear implicits.
Arguments item U : clear implicits.
Arguments session U : clear implicits.
Arguments result U A : clear implicits.
Arguments M U A : clear implicits.
Arguments frame U : clear implicits.
Arguments coro U A : clear implicits.
Arguments tstate U : clear implicits.
Arguments task U : clear implicits.
Arguments system U : clear implicits.
Arguments event U : clear implicits.
Arguments Ret {U A} a.
Arguments Raise {U A} e.
Arguments Return {U A} a.
Arguments Yield {U A} fr.

(** ** The bytes instance: a channel opened without an encoding *)

#[global] Instance byte_eq_dec : EqDecision byte := Byte.byte_eq_dec.

(** [b'\n'] *)
Definition LF : byte := "010"%byte.

(** The chunks of the line scenario: [b"AB"], [b"C\n"], [b"DE"]. *)
Definition chunk_AB : list byte := ["A"; "B"]%byte.
Definition chunk_C_LF : list byte := ["C"%byte; LF].
Definition chunk_DE : list byte := ["D"; "E"]%byte.


(** The same queue in a hand-built session, and the queue the first
    [readline] leaves behind, at EOF. *)
Definition line_session : session byte :=
  mk_session 64 None false false
    {[None := [Data chunk_AB; Data chunk_C_LF; Data chunk_DE]]} 6
    {[None := None]} false [] [] [].

Definition tail_session : session byte :=
  mk_session 64 None true false
    {[None := [Data []; Data chunk_DE]]} 2
    {[None := None]} false [] [] [].

(** The primary datatype after [connection_lost(exc)] on an idle
    connection: the exception object (code 7) alone in the queue, EOF
    flagged. *)
Definition error_session : session byte :=
  mk_session 64 (Some 7%N) true true {[None := [Exc 7%N]]} 0
    {[None := None]} false [] [] [].

(** The same with two units of data queued before the exception object. *)
Definition data_error_session : session byte :=
  mk_session 64 (Some 7%N) true true {[None := [Data chunk_DE; Exc 7%N]]} 2
    {[None := None]} false [] [] [].

(** An empty queue at EOF. *)
Definition drained_session : session byte :=
  mk_session 64 None true false {[None := []]} 0
    {[None := None]} false [] [] [].

(** One line then EOF on a fresh session: [data_received(b"C\n")],
    [eof_received()]; and the system once a [readline()] has taken the
    line. *)
Definition line_then_eof : system byte :=
  run LF (boot 64 []) [DataReceived chunk_C_LF None; EofReceived].

Definition line_consumed : system byte :=
  step LF line_then_eof (Call (Readline None)).

(** The queue [readline] leaves behind there, in a hand-built session: a
    zero-length chunk and nothing else, at EOF. *)
Definition empty_chunk_session : session byte :=
  mk_session 64 None true false {[None := [Data []]]} 0
    {[None := None]} false [] [] [].

(** The line alone in the queue, at EOF. *)
Definition last_line_session : session byte :=
  mk_session 64 None true false {[None := [Data chunk_C_LF]]} 2
    {[None := None]} false [] [] [].

(** A receive window of four units; six units arrive, so the channel is told
    to pause; then the connection is lost with error 7. *)
Definition chunk_ABCDEF : list byte := ["A"; "B"; "C"; "D"; "E"; "F"]%byte.

Definition paused_then_lost : system byte :=
  run LF (boot 4 [])
    [DataReceived chunk_ABCDEF None; ConnectionLost (Some 7%N)].

(** Writing paused on a fresh session, then a [drain()] call. *)
Definition drain_parked : system byte :=
  run LF (boot 64 []) [PauseWriting; Call Drain].

(** A hand-built session with writing paused and no [drain] parked yet. *)
Definition paused_session : session byte :=
  mk_session 64 None false false {[None := []]} 0
    {[None := None]} true [] [] [].

(** The connection lost with error 7 while that [drain] was parked: its
    future is done. *)
Definition drain_woken_session : session byte :=
  mk_session 64 (Some 7%N) true true {[None := [Exc 7%N]]} 0
    {[None := None]} true [] [Done] [].

(** A reader parked on the primary datatype of a fresh session:
    [read(5)] with nothing buffered. *)
Definition reader_parked : system byte :=
  run LF (boot 64 []) [Call (Read 5 None false)].

(** A hand-built idle session: nothing buffered, no EOF, nobody parked. *)
Definition idle_session : session byte :=
  mk_session 64 None false false {[None := []]} 0
    {[None := None]} false [] [] [].

(** One reader on the primary datatype: [b"AB"] arrives, a [readline()]
    parks holding it, [b"C\n"] arrives and the call is resumed, [b"DE"] and
    EOF arrive, and a [read(1)] follows. *)
Definition reader_trace : list (event byte) :=
  [DataReceived chunk_AB None; Call (Readline None);
   DataReceived chunk_C_LF None; Wake 0; DataReceived chunk_DE None;
   EofReceived; Call (Read 1 None false)].

(** The watermark scenario: a receive window of ten units, a chunk of eight
    and a chunk of four, then a [read(9)]. *)
Definition chunk_8 : list byte :=
  ["A"; "B"; "C"; "D"; "E"; "F"; "G"; "H"]%byte.
Definition chunk_4 : list byte := ["I"; "J"; "K"; "L"]%byte.

Ltac munfold :=
  unfold skip, chan, gets, modify, raise, recv_buf_at, read_waiter_at,
    cancelled, set_result, Future in *;
  unfold mbind, mret, M_bind, M_ret in *.

Section StreamFacts.

Context {U : Type} {Ueq : EqDecision U} (sep : U).

Implicit Types (s : session U) (q : list (item U)) (dt : datatype)
  (data : list (list U)) (P : session U → Prop).

(** ** Rules for [preserves] *)

Lemma preserves_ret {A} P (a : A) : preserves P (mret a).
Proof. by intros s. Qed.

Lemma preserves_skip P : preserves P skip.
Proof. by intros s. Qed.

Lemma preserves_raise {A} P e : preserves P (raise (A:=A) e).
Proof. by intros s. Qed.

Lemma preserves_gets {A} P (f : session U → A) : preserves P (gets f).
Proof. by intros s. Qed.

Lemma preserves_modify P f : (∀ s, P s → P (f s)) → preserves P (modify f).
Proof. intros Hf s Hs. by apply Hf. Qed.

Lemma preserves_bind {A B} P (m : M U A) (f : A → M U B) :
  preserves P m → (∀ a, preserves P (f a)) → preserves P (m ≫= f).
Proof.
  intros Hm Hf s Hs. unfold mbind, M_bind.
  specialize (Hm s Hs). destruct (m s) as [[a|e] s1]; simpl in *; [|done].
  by apply Hf.
Qed.

Lemma preserves_for_each {A} P (l : list A) body :
  (∀ x, preserves P (body x)) → preserves P (for_each l body).
Proof.
  intros Hb. induction l as [|x l IH]; simpl.
  - apply preserves_skip.
  - apply preserves_bind; [apply Hb | by intros _].
Qed.

Lemma preserves_if {A} P (b : bool) (m1 m2 : M U A) :
  preserves P m1 → preserves P m2 → preserves P (if b then m1 else m2).
Proof. by destruct b. Qed.

(** ** Queues and their payload *)

Lemma len_app {A} (l1 l2 : list A) : len (l1 ++ l2) = len l1 + len l2.
Proof. unfold len. rewrite length_app. lia. Qed.

Lemma len_nonneg {A} (l : list A) : 0 ≤ len l.
Proof. unfold len. lia. Qed.

Lemma queue_data_app q1 q2 :
  queue_data (q1 ++ q2) = queue_data q1 ++ queue_data q2.
Proof.
  induction q1 as [|[d|e] q1 IH]; simpl; [done| |done].
  by rewrite IH, app_assoc.
Qed.

Lemma queue_len_app q1 q2 : queue_len (q1 ++ q2) = queue_len q1 + queue_len q2.
Proof. unfold queue_len. by rewrite queue_data_app, len_app. Qed.

Lemma queue_len_cons_data d q : queue_len (Data d :: q) = len d + queue_len q.
Proof. unfold queue_len. simpl. by rewrite len_app. Qed.

Lemma queue_len_cons_exc e q : queue_len (Exc e :: q) = queue_len q.
Proof. done. Qed.

Lemma slice_split (c : list U) k : slice_to c k ++ slice_from c k = c.
Proof. unfold slice_to, slice_from. apply take_drop. Qed.

Lemma len_slice_to (c : list U) k : 0 ≤ k ≤ len c → len (slice_to c k) = k.
Proof.
  intros Hk. unfold slice_to, len in *. rewrite bool_decide_true by lia.
  rewrite length_take. lia.
Qed.

Lemma len_slice_from (c : list U) k :
  0 ≤ k ≤ len c → len (slice_from c k) = len c - k.
Proof.
  intros Hk. unfold slice_from, len in *. rewrite bool_decide_true by lia.
  rewrite length_drop. lia.
Qed.

(** [find] answers [-1] or a position inside the chunk. *)
Lemma find_range (c : list U) : -1 ≤ find sep c < len c.
Proof.
  induction c as [|x c IH]; simpl; [unfold len; simpl; lia|].
  unfold len in *. simpl. destruct (decide (x = sep)); [lia|].
  case_bool_decide; lia.
Qed.

(** ** The aggregate length over all datatypes *)

Lemma buffered_len_insert s s' dt q q' :
  _recv_buf s !! dt = Some q →
  _recv_buf s' = <[dt:=q']> (_recv_buf s) →
  buffered_len s' = buffered_len s - queue_len q + queue_len q'.
Proof.
  intros Hq Hs'. unfold buffered_len. rewrite Hs'.
  rewrite <-(insert_delete_eq (_recv_buf s) dt q').
  rewrite map_fold_insert_L; [|intros; lia|apply lookup_delete_eq].
  rewrite <-(insert_delete_id (_recv_buf s) dt q) at 2 by done.
  rewrite (map_fold_insert_L _ _ dt q); [lia|intros; lia|apply lookup_delete_eq].
Qed.

(** ** The inner loops *)

(** Case analysis for a queue whose head is an exception object. *)
Ltac exc_head H data :=
  try case_bool_decide; [..|destruct data]; simplify_eq/=;
  rewrite ?queue_len_cons_exc.

Lemma join_app data1 data2 : join (data1 ++ data2) = join data1 ++ join data2.
Proof. unfold join. apply concat_app. Qed.

Lemma join_snoc data (c : list U) : join (data ++ [c]) = join data ++ c.
Proof. rewrite join_app. unfold join. simpl. by rewrite app_nil_r. Qed.

(** [read_loop] keeps the length counter in step with the queue. *)
Lemma read_loop_len q n data l ex q' n' data' l' :
  read_loop q n data l = (ex, q', n', data', l') →
  l' = l - queue_len q + queue_len q'.
Proof.
  revert n data l. induction q as [|[c|e] q IH]; intros n data l Hloop;
    simpl in Hloop.
  - simplify_eq. lia.
  - case_bool_decide; [simplify_eq; lia|].
    destruct (bool_decide (0 < n) && bool_decide (n < len c)) eqn:Hsplit.
    + apply andb_prop in Hsplit as [?%bool_decide_eq_true ?%bool_decide_eq_true].
      simplify_eq. rewrite !queue_len_cons_data, len_slice_from by lia. lia.
    + apply IH in Hloop. rewrite queue_len_cons_data. lia.
  - exc_head Hloop data; lia.
Qed.

(** No payload is lost or reordered by [read_loop]. *)
Lemma read_loop_data q n data l ex q' n' data' l' :
  read_loop q n data l = (ex, q', n', data', l') →
  join data' ++ queue_data q' = join data ++ queue_data q.
Proof.
  revert n data l. induction q as [|[c|e] q IH]; intros n data l Hloop;
    simpl in Hloop.
  - by simplify_eq.
  - case_bool_decide; [by simplify_eq|].
    destruct (bool_decide (0 < n) && bool_decide (n < len c)) eqn:Hsplit.
    + simplify_eq. simpl. rewrite join_snoc, <-app_assoc.
      by rewrite (app_assoc (slice_to c n)), slice_split.
    + apply IH in Hloop. rewrite Hloop, join_snoc. simpl. by rewrite <-app_assoc.
  - exc_head Hloop data; done.
Qed.

(** [n] goes down by exactly what was collected and never changes sign. *)
Lemma read_loop_count q n data l ex q' n' data' l' :
  read_loop q n data l = (ex, q', n', data', l') →
  n' + len (join data') = n + len (join data) ∧ (0 ≤ n → 0 ≤ n') ∧ (n < 0 → n' < 0).
Proof.
  revert n data l. induction q as [|[c|e] q IH]; intros n data l Hloop;
    simpl in Hloop.
  - simplify_eq. lia.
  - case_bool_decide; [simplify_eq; lia|].
    destruct (bool_decide (0 < n) && bool_decide (n < len c)) eqn:Hsplit.
    + apply andb_prop in Hsplit as [?%bool_decide_eq_true ?%bool_decide_eq_true].
      simplify_eq. rewrite join_snoc, len_app, len_slice_to by lia. lia.
    + apply IH in Hloop. rewrite join_snoc, len_app in Hloop.
      pose proof (len_nonneg c).
      apply andb_false_iff in Hsplit as [?%bool_decide_eq_false|?%bool_decide_eq_false];
        lia.
  - exc_head Hloop data; lia.
Qed.

(** The loop raises only the exception object at the head of the queue, and
    only when the call holds no data. *)
Lemma read_loop_raise q n data l e q' n' data' l' :
  read_loop q n data l = (Some e, q', n', data', l') →
  ∃ code, e = ChannelError code ∧ q = Exc code :: q' ∧ n ≠ 0 ∧ data = []
    ∧ data' = [] ∧ n' = n ∧ l' = l.
Proof.
  revert n data l. induction q as [|[c|code] q IH]; intros n data l Hloop;
    simpl in Hloop.
  - simplify_eq.
  - case_bool_decide; [simplify_eq|].
    destruct (bool_decide (0 < n) && bool_decide (n < len c)); [simplify_eq|].
    apply IH in Hloop as (code & _ & _ & _ & Hdata & _). by destruct data.
  - case_bool_decide; [simplify_eq|].
    destruct data; simplify_eq/=. by exists code.
Qed.

Lemma readline_loop_len q data l ex q' data' l' :
  readline_loop sep q data l = (ex, q', data', l') →
  l' = l - queue_len q + queue_len q'.
Proof.
  revert data l. induction q as [|[c|e] q IH]; intros data l Hloop;
    simpl in Hloop.
  - simplify_eq. lia.
  - pose proof (find_range c). case_bool_decide.
    + simplify_eq. rewrite !queue_len_cons_data, len_slice_from by lia. lia.
    + apply IH in Hloop. rewrite queue_len_cons_data. lia.
  - exc_head Hloop data; lia.
Qed.

Lemma readline_loop_data q data l ex q' data' l' :
  readline_loop sep q data l = (ex, q', data', l') →
  join data' ++ queue_data q' = join data ++ queue_data q.
Proof.
  revert data l. induction q as [|[c|e] q IH]; intros data l Hloop;
    simpl in Hloop.
  - by simplify_eq.
  - case_bool_decide.
    + simplify_eq. simpl. rewrite join_snoc, <-app_assoc.
      by rewrite (app_assoc (slice_to c _)), slice_split.
    + apply IH in Hloop. rewrite Hloop, join_snoc. simpl. by rewrite <-app_assoc.
  - exc_head Hloop data; done.
Qed.

(** ** Operations that leave the receive queues alone *)

Lemma preserves_recv_buf_at P dt : preserves P (recv_buf_at dt).
Proof. intros s Hs. unfold recv_buf_at. by destruct (_recv_buf s !! dt). Qed.

Lemma preserves_read_waiter_at P dt : preserves P (read_waiter_at dt).
Proof. intros s Hs. unfold read_waiter_at. by destruct (_read_waiter s !! dt). Qed.

Lemma preserves_cancelled P w : preserves P (cancelled w).
Proof. apply preserves_gets. Qed.

Ltac pres_step :=
  lazymatch goal with
  | |- preserves _ (mret _) => apply preserves_ret
  | |- preserves _ skip => apply preserves_skip
  | |- preserves _ (raise _) => apply preserves_raise
  | |- preserves _ (gets _) => apply preserves_gets
  | |- preserves _ (recv_buf_at _) => apply preserves_recv_buf_at
  | |- preserves _ (read_waiter_at _) => apply preserves_read_waiter_at
  | |- preserves _ (cancelled _) => apply preserves_cancelled
  | |- preserves _ (mbind _ _) => apply preserves_bind; [|intros ?]
  | |- preserves _ (if _ then _ else _) => apply preserves_if
  | |- preserves _ (for_each _ _) => apply preserves_for_each
  end.

(** [drain_finish] changes nothing at all. *)
Lemma preserves_drain_finish P : preserves P drain_finish.
Proof.
  unfold drain_finish. repeat pres_step. destruct a0; repeat pres_step.
Qed.

Section BufferOnly.

Context (P : session U → Prop) (HP : buffer_only P).

Lemma buffer_only_modify f :
  (∀ s, _recv_buf (f s) = _recv_buf s) →
  (∀ s, _recv_buf_len (f s) = _recv_buf_len s) →
  (∀ s, _eof_received s = true → _eof_received (f s) = true) →
  preserves P (modify f).
Proof.
  intros H1 H2 H3. apply preserves_modify. intros s. apply HP; auto.
Qed.

Lemma buffer_only_chan c : preserves P (chan c).
Proof. by apply buffer_only_modify. Qed.

Lemma buffer_only_Future : preserves P Future.
Proof. intros s. by apply HP. Qed.

Lemma buffer_only_set_result w : preserves P (set_result w).
Proof.
  intros s Hs. unfold set_result.
  destruct (futures s !! w) as [[]|]; simpl; [|done..]. revert Hs. by apply HP.
Qed.

Lemma buffer_only_block_read dt : preserves P (_block_read dt).
Proof.
  unfold _block_read. pres_step; [pres_step|].
  destruct a; repeat pres_step.
  - apply buffer_only_Future.
  - by apply buffer_only_modify.
Qed.

Lemma buffer_only_unblock_read dt : preserves P (_unblock_read dt).
Proof.
  unfold _unblock_read. pres_step; [pres_step|].
  destruct a; repeat pres_step.
  - apply buffer_only_set_result.
  - by apply buffer_only_modify.
Qed.

Lemma buffer_only_unblock_drain : preserves P _unblock_drain.
Proof.
  unfold _unblock_drain. repeat pres_step.
  - intros w. repeat pres_step. apply buffer_only_set_result.
  - by apply buffer_only_modify.
Qed.

Lemma buffer_only_eof_received : preserves P eof_received.
Proof.
  unfold eof_received. repeat pres_step.
  - by apply buffer_only_modify.
  - intros dt. apply buffer_only_unblock_read.
Qed.

Lemma buffer_only_maybe_resume_reading : preserves P maybe_resume_reading.
Proof. unfold maybe_resume_reading. repeat pres_step. apply buffer_only_chan. Qed.

Lemma buffer_only_pause_writing : preserves P pause_writing.
Proof. by apply buffer_only_modify. Qed.

Lemma buffer_only_resume_writing : preserves P resume_writing.
Proof.
  unfold resume_writing. repeat pres_step.
  - by apply buffer_only_modify.
  - apply buffer_only_unblock_drain.
Qed.

Lemma buffer_only_drain : preserves P drain.
Proof.
  unfold drain. repeat pres_step.
  - apply buffer_only_Future.
  - by apply buffer_only_modify.
  - apply preserves_drain_finish.
Qed.

End BufferOnly.

Lemma len_inv_buffer_only : buffer_only (len_inv (U:=U)).
Proof.
  intros s s' Hb Hl _. unfold len_inv, buffered_len. by rewrite Hb, Hl.
Qed.

(** ** Running a computation step by step *)

Lemma bind_ret_eq {A B} (m : M U A) (f : A → M U B) s a s' :
  m s = (Ret a, s') → (m ≫= f) s = f a s'.
Proof. intros Hm. unfold mbind, M_bind. by rewrite Hm. Qed.

Lemma bind_raise_eq {A B} (m : M U A) (f : A → M U B) s e s' :
  m s = (Raise e, s') → (m ≫= f) s = (Raise e, s').
Proof. intros Hm. unfold mbind, M_bind. by rewrite Hm. Qed.

Lemma recv_buf_at_eq s dt q :
  _recv_buf s !! dt = Some q → recv_buf_at dt s = (Ret q, s).
Proof. intros Hq. unfold recv_buf_at. by rewrite Hq. Qed.

Lemma recv_buf_at_missing s dt :
  _recv_buf s !! dt = None → recv_buf_at dt s = (Raise (KeyError dt), s).
Proof. intros Hq. unfold recv_buf_at. by rewrite Hq. Qed.

Lemma read_waiter_at_eq s dt w :
  _read_waiter s !! dt = Some w → read_waiter_at dt s = (Ret w, s).
Proof. intros Hq. unfold read_waiter_at. by rewrite Hq. Qed.

Lemma read_waiter_at_missing s dt :
  _read_waiter s !! dt = None → read_waiter_at dt s = (Raise (KeyError dt), s).
Proof. intros Hq. unfold read_waiter_at. by rewrite Hq. Qed.

(** Run the leading [gets], [modify] and successful lookups of a
    computation applied to a state. *)
Lemma set_result_pending s w :
  futures s !! w = Some Pending →
  set_result w s = (Ret tt, set_futures (<[w:=Done]> (futures s)) s).
Proof. intros Hw. unfold set_result. by rewrite Hw. Qed.

Lemma set_result_invalid s w :
  futures s !! w ≠ Some Pending →
  set_result w s = (Raise InvalidStateError, s).
Proof. intros Hw. unfold set_result. by destruct (futures s !! w) as [[]|]. Qed.

Ltac mrun_ret :=
  first [ reflexivity
        | apply recv_buf_at_eq; eassumption
        | apply read_waiter_at_eq; eassumption
        | apply set_result_pending; eassumption ].

Ltac mrun_raise :=
  first [ reflexivity
        | apply recv_buf_at_missing; eassumption
        | apply read_waiter_at_missing; eassumption
        | apply set_result_invalid; congruence ].

Ltac mrun :=
  repeat first
    [ erewrite bind_ret_eq by mrun_ret
    | erewrite bind_raise_eq by mrun_raise
    | progress cbv beta ].

(** Hand the rest of a computation to the [preserves] rules. *)
Ltac pres_rest :=
  lazymatch goal with
  | |- ?P (?m ?s).2 =>
      let Hp := fresh in
      cut (preserves P m); [intros Hp; apply Hp|]
  end.

(** ** The counter invariant *)

Lemma len_inv_data_received (d : list U) dt :
  preserves len_inv (data_received d dt).
Proof.
  intros s Hs. unfold data_received.
  destruct (_recv_buf s !! dt) as [q|] eqn:Hq; mrun; [|done].
  pres_rest.
  - unfold len_inv in *.
    erewrite buffered_len_insert by (done || reflexivity).
    simpl. rewrite queue_len_app, queue_len_cons_data, Hs.
    change (queue_len []) with 0. lia.
  - pose proof len_inv_buffer_only. repeat pres_step.
    + by apply buffer_only_unblock_read.
    + by apply buffer_only_chan.
Qed.

Lemma len_inv_connection_lost exc :
  preserves (U:=U) len_inv (connection_lost exc).
Proof.
  pose proof len_inv_buffer_only as Hbo.
  unfold connection_lost. repeat pres_step.
  - by apply buffer_only_modify.
  - by apply buffer_only_modify.
  - destruct exc as [e|]; repeat pres_step.
    intros x s Hs. destruct (_recv_buf s !! x) as [q|] eqn:Hq; mrun; [|done].
    unfold len_inv in *. simpl.
    erewrite buffered_len_insert by (done || reflexivity).
    rewrite queue_len_app, queue_len_cons_exc, Hs.
    change (queue_len []) with 0. lia.
  - by apply buffer_only_eof_received.
  - by apply buffer_only_unblock_drain.
Qed.

Lemma len_inv_read_pass n dt exact data :
  preserves len_inv (read_pass n dt exact data).
Proof.
  pose proof len_inv_buffer_only as Hbo.
  intros s Hs. unfold read_pass.
  destruct (_recv_buf s !! dt) as [q|] eqn:Hq; mrun; [|done].
  destruct (read_loop q n data (_recv_buf_len s))
    as [[[[ex q'] n'] data'] l'] eqn:Hloop.
  mrun. pres_rest.
  - apply read_loop_len in Hloop. unfold len_inv in *. simpl.
    erewrite buffered_len_insert by (done || reflexivity). lia.
  - destruct ex; repeat pres_step.
    + by apply buffer_only_maybe_resume_reading.
    + by apply buffer_only_block_read.
Qed.

Lemma len_inv_readline_pass dt data :
  preserves len_inv (readline_pass sep dt data).
Proof.
  pose proof len_inv_buffer_only as Hbo.
  intros s Hs. unfold readline_pass.
  destruct (_recv_buf s !! dt) as [q|] eqn:Hq; mrun; [|done].
  destruct (readline_loop sep q data (_recv_buf_len s))
    as [[[ex q'] data'] l'] eqn:Hloop.
  mrun. pres_rest.
  - apply readline_loop_len in Hloop. unfold len_inv in *. simpl.
    erewrite buffered_len_insert by (done || reflexivity). lia.
  - destruct ex; repeat pres_step;
      first [by apply buffer_only_maybe_resume_reading
            |by apply buffer_only_block_read].
Qed.

Lemma preserves_as_value {A} P (f : A → option (list U)) m :
  preserves P m → preserves P (as_value f m).
Proof. intros Hm. unfold as_value. by repeat pres_step. Qed.

Lemma len_inv_start r : preserves len_inv (start sep r).
Proof.
  destruct r; simpl; apply preserves_as_value.
  - apply len_inv_read_pass.
  - apply len_inv_readline_pass.
  - apply buffer_only_drain, len_inv_buffer_only.
Qed.

Lemma len_inv_resume fr : preserves len_inv (resume sep fr).
Proof.
  unfold resume. repeat pres_step. destruct a as [[]|]; try pres_step;
    destruct fr; apply preserves_as_value;
    first [ apply len_inv_read_pass | apply len_inv_readline_pass
          | apply preserves_drain_finish ].
Qed.

(** Every step of the event loop keeps the counter invariant. *)
Lemma len_inv_step sys ev :
  len_inv (sess sys) → len_inv (sess (step sep sys ev)).
Proof.
  pose proof len_inv_buffer_only as Hbo.
  intros Hs. destruct ev as [exc|d dt| | | |r|tid|tid]; simpl.
  - exact (len_inv_connection_lost exc _ Hs).
  - exact (len_inv_data_received d dt _ Hs).
  - exact (buffer_only_eof_received _ Hbo _ Hs).
  - exact (buffer_only_pause_writing _ Hbo _ Hs).
  - exact (buffer_only_resume_writing _ Hbo _ Hs).
  - pose proof (len_inv_start r _ Hs) as Hr.
    by destruct (start sep r (sess sys)).
  - destruct (tasks sys !! tid) as [[r [fr|?]]|]; [|done..].
    destruct (futures (sess sys) !! waiter_of fr) as [[]|]; [done| |  |done].
    + pose proof (len_inv_resume fr _ Hs) as Hr.
      by destruct (resume sep fr (sess sys)).
    + pose proof (len_inv_resume fr _ Hs) as Hr.
      by destruct (resume sep fr (sess sys)).
  - destruct (tasks sys !! tid) as [[r [fr|?]]|]; [|done..].
    destruct (futures (sess sys) !! waiter_of fr) as [[]|]; done.
Qed.

Lemma len_inv_run sys tr :
  len_inv (sess sys) → len_inv (sess (run sep sys tr)).
Proof.
  revert sys. induction tr as [|ev tr IH]; intros sys Hs; [done|].
  simpl. apply IH. by apply len_inv_step.
Qed.

(** A fresh session holds empty queues only. *)
Lemma connection_made_queues recv_window read_datatypes dt q :
  _recv_buf (U:=U) (connection_made recv_window read_datatypes) !! dt = Some q →
  q = [].
Proof.
  simpl. revert q. induction read_datatypes as [|k dts IH] using rev_ind;
    intros q.
  - simpl. intros [_ ?]%lookup_singleton_Some. done.
  - rewrite foldl_app. simpl. destruct (decide (k = dt)) as [->|Hne].
    + rewrite lookup_insert_eq. congruence.
    + rewrite lookup_insert_ne by done. apply IH.
Qed.

Lemma map_fold_queue_len_0 (m : gmap datatype (list (item U))) :
  (∀ k q, m !! k = Some q → q = []) →
  map_fold (λ _ q acc, queue_len q + acc) 0 m = 0.
Proof.
  induction m as [|k q m Hk IH] using map_ind; intros Hall.
  - apply map_fold_empty.
  - rewrite map_fold_insert_L; [|intros; lia|done].
    rewrite IH.
    + rewrite (Hall k q) by apply lookup_insert_eq. done.
    + intros k' q' Hq'. apply (Hall k').
      rewrite lookup_insert_ne; [done|]. intros ->. congruence.
Qed.

Lemma len_inv_connection_made recv_window read_datatypes :
  len_inv (U:=U) (connection_made recv_window read_datatypes).
Proof.
  unfold len_inv, buffered_len. symmetry. apply map_fold_queue_len_0.
  intros k q. apply connection_made_queues.
Qed.

(** ** Well-formed sessions *)

Lemma live_lt s w : live s w → (w < length (futures s))%nat.
Proof. intros [H|H]; by apply lookup_lt_Some in H. Qed.

(** Changes outside the waiter slots, the drain list and the future store
    keep a session well formed, as long as no queue appears or disappears. *)
Lemma wf_same s s' :
  (∀ dt, is_Some (_recv_buf s' !! dt) ↔ is_Some (_recv_buf s !! dt)) →
  _read_waiter s' = _read_waiter s →
  _drain_waiters s' = _drain_waiters s →
  futures s' = futures s →
  wf s → wf s'.
Proof.
  intros Hk Hw Hd Hf [H1 H2 H3 H4 H5 H6].
  split; unfold live in *; rewrite ?Hw, ?Hd, ?Hf; try done.
  intros dt. by rewrite Hk.
Qed.

Lemma wf_set_queue s dt q :
  is_Some (_recv_buf s !! dt) →
  wf s → wf (set_recv_buf (<[dt:=q]> (_recv_buf s)) s).
Proof.
  intros Hdt. apply wf_same; try done. intros k. simpl.
  destruct (decide (dt = k)) as [->|Hne].
  - rewrite lookup_insert_eq. split; [done|by eauto].
  - by rewrite lookup_insert_ne.
Qed.

Lemma preserves_for_each_elem {A} P (l : list A) body :
  (∀ x, x ∈ l → preserves P (body x)) → preserves P (for_each l body).
Proof.
  induction l as [|x l IH]; intros Hb; simpl.
  - apply preserves_skip.
  - apply preserves_bind; [apply Hb; left|intros _].
    apply IH. intros y Hy. apply Hb. by right.
Qed.

Lemma wf_modify_same f :
  (∀ s, _recv_buf (f s) = _recv_buf s) →
  (∀ s, _read_waiter (f s) = _read_waiter s) →
  (∀ s, _drain_waiters (f s) = _drain_waiters s) →
  (∀ s, futures (f s) = futures s) →
  preserves (U:=U) wf (modify f).
Proof.
  intros H1 H2 H3 H4. apply preserves_modify. intros s.
  apply wf_same; try done. intros dt. by rewrite H1.
Qed.

Lemma wf_chan c : preserves (U:=U) wf (chan c).
Proof. by apply wf_modify_same. Qed.

Lemma wf_maybe_resume_reading : preserves (U:=U) wf maybe_resume_reading.
Proof. unfold maybe_resume_reading. repeat pres_step. apply wf_chan. Qed.

(** Parking a reader: the fresh future differs from every live one. *)
Lemma wf_block_read dt : preserves (U:=U) wf (_block_read dt).
Proof.
  intros s Hwf. unfold _block_read.
  destruct (_read_waiter s !! dt) as [[w|]|] eqn:Hslot; mrun; try done.
  unfold Future. mrun. simpl.
  destruct Hwf as [H1 H2 H3 H4 H5 H6].
  assert (Hfresh : ∀ w, live s w → w ≠ length (futures s)).
  { intros w Hw%live_lt. lia. }
  assert (Hlive : ∀ w, live s w →
    live (set_read_waiter (<[dt:=Some (length (futures s))]> (_read_waiter s))
            (set_futures (futures s ++ [Pending]) s)) w).
  { intros w Hw. pose proof (live_lt _ _ Hw). unfold live in *. simpl.
    by rewrite !lookup_app_l. }
  split; simpl.
  - intros k. rewrite H1. destruct (decide (dt = k)) as [<-|Hne].
    + rewrite lookup_insert_eq, Hslot. split; eauto.
    + by rewrite lookup_insert_ne.
  - intros k w. destruct (decide (dt = k)) as [<-|Hne].
    + rewrite lookup_insert_eq. intros [= <-]. left. simpl.
      by rewrite lookup_app_r, Nat.sub_diag.
    + rewrite lookup_insert_ne by done. intros Hk. apply Hlive. eauto.
  - intros k1 k2 w.
    destruct (decide (dt = k1)) as [<-|Hne1], (decide (dt = k2)) as [<-|Hne2];
      rewrite ?lookup_insert_eq, ?lookup_insert_ne by done; try done.
    + intros [= <-] Hk2. by destruct (Hfresh _ (H2 _ _ Hk2)).
    + intros Hk1 [= <-]. by destruct (Hfresh _ (H2 _ _ Hk1)).
    + apply H3.
  - intros w Hw. apply Hlive. eauto.
  - done.
  - intros k w. destruct (decide (dt = k)) as [<-|Hne].
    + rewrite lookup_insert_eq. intros [= <-] Hin.
      by destruct (Hfresh _ (H4 _ Hin)).
    + rewrite lookup_insert_ne by done. apply H6.
Qed.

(** Waking a reader: its future is resolved (unless cancelled) and leaves
    the slot. *)
Lemma wf_unblock_read dt : preserves (U:=U) wf (_unblock_read dt).
Proof.
  intros s Hwf. unfold _unblock_read.
  destruct (_read_waiter s !! dt) as [[w|]|] eqn:Hslot; mrun; try done.
  destruct Hwf as [H1 H2 H3 H4 H5 H6].
  assert (Hclear : ∀ s',
    _recv_buf s' = _recv_buf s → _read_waiter s' = _read_waiter s →
    _drain_waiters s' = _drain_waiters s →
    (∀ w', w' ≠ w → futures s' !! w' = futures s !! w') →
    wf (set_read_waiter (<[dt:=None]> (_read_waiter s')) s')).
  { intros s' Hb Hw Hd Hf.
    assert (Hlive : ∀ w', w' ≠ w → live s w' →
      live (set_read_waiter (<[dt:=None]> (_read_waiter s')) s') w').
    { intros w' Hne Hw'. unfold live in *. simpl. by rewrite Hf. }
    split; simpl; rewrite ?Hb, ?Hw, ?Hd.
    - intros k. rewrite H1. destruct (decide (dt = k)) as [<-|Hne].
      + rewrite lookup_insert_eq, Hslot. split; eauto.
      + by rewrite lookup_insert_ne.
    - intros k w'. destruct (decide (dt = k)) as [<-|Hne].
      + by rewrite lookup_insert_eq.
      + rewrite lookup_insert_ne by done. intros Hk. apply Hlive; [|eauto].
        intros ->. by destruct Hne; eapply H3.
    - intros k1 k2 w'.
      destruct (decide (dt = k1)) as [<-|Hne1], (decide (dt = k2)) as [<-|Hne2];
        rewrite ?lookup_insert_eq, ?lookup_insert_ne by done; try done.
      apply H3.
    - intros w' Hin. apply Hlive; [|eauto]. intros ->. by eapply H6.
    - done.
    - intros k w'. destruct (decide (dt = k)) as [<-|Hne].
      + by rewrite lookup_insert_eq.
      + rewrite lookup_insert_ne by done. apply H6. }
  unfold cancelled. mrun.
  destruct (futures s !! w) as [[]|] eqn:Hw; mrun.
  - apply Hclear; try done.
    intros w' Hne. simpl. by rewrite list_lookup_insert_ne.
  - by split.
  - by apply Hclear.
  - by split.
Qed.

(** Waking the drain waiters: every pending waiter in the list is resolved,
    cancelled ones are skipped, nothing else changes. *)
Lemma unblock_drain_loop (ws : list future) s :
  NoDup ws → (∀ w, w ∈ ws → live s w) →
  ∃ fs,
    for_each ws (λ w, c ← cancelled w; if c : bool then skip else set_result w) s
      = (Ret tt, set_futures fs s)
    ∧ (∀ w, w ∉ ws → fs !! w = futures s !! w)
    ∧ (∀ w, w ∈ ws →
         fs !! w = Some (match futures s !! w with
                         | Some Pending => Done
                         | _ => Cancelled
                         end)).
Proof.
  revert s. induction ws as [|w ws IH]; intros s Hnd Hlive; simpl.
  - exists (futures s). split_and!; [destruct s; reflexivity|done|].
    intros w Hw. by apply elem_of_nil in Hw.
  - apply NoDup_cons in Hnd as [Hw Hnd].
    assert (Hstep : ∃ s1,
      (c ← cancelled w; if c : bool then skip else set_result w) s = (Ret tt, s1)
      ∧ (∀ fs, set_futures fs s1 = set_futures fs s)
      ∧ (∀ w', w' ≠ w → futures s1 !! w' = futures s !! w')
      ∧ futures s1 !! w = Some (match futures s !! w with
                                | Some Pending => Done
                                | _ => Cancelled
                                end)).
    { unfold cancelled. mrun.
      destruct (Hlive w) as [Hp|Hc]; [by left|rewrite Hp|rewrite Hc]; mrun.
      - eexists. split_and!; [by apply set_result_pending|done| |].
        + intros w' Hne. simpl. by rewrite list_lookup_insert_ne.
        + simpl. apply list_lookup_insert_eq. by apply lookup_lt_Some in Hp.
      - exists s. by split_and!. }
    destruct Hstep as (s1 & Hrun & Hset & Hother & Hself).
    destruct (IH s1 Hnd) as (fs & Hloop & Hout & Hin).
    { intros w' Hw'. unfold live. rewrite Hother; [apply Hlive; by right|].
      by intros ->. }
    exists fs. erewrite bind_ret_eq by exact Hrun. rewrite Hloop, Hset.
    split_and!; [done| |].
    + intros w' Hw'. apply not_elem_of_cons in Hw' as [Hne Hw'].
      rewrite Hout by done. by apply Hother.
    + intros w' [->|Hw']%elem_of_cons.
      * by rewrite Hout, Hself.
      * rewrite Hin, Hother; [done|by intros ->|done].
Qed.

Lemma wf_unblock_drain : preserves (U:=U) wf _unblock_drain.
Proof.
  intros s Hwf. unfold _unblock_drain. mrun.
  destruct Hwf as [H1 H2 H3 H4 H5 H6].
  destruct (unblock_drain_loop (_drain_waiters s) s H5 H4) as (fs & Hrun & Hout & _).
  erewrite bind_ret_eq by exact Hrun. mrun.
  split; simpl; try done.
  - intros dt w Hdt. unfold live. simpl. rewrite Hout by eauto. by eapply H2.
  - intros w Hw. by apply elem_of_nil in Hw.
  - apply NoDup_nil_2.
  - intros dt w _ Hw. by apply elem_of_nil in Hw.
Qed.

Lemma wf_eof_received : preserves (U:=U) wf eof_received.
Proof.
  unfold eof_received. repeat pres_step.
  - by apply wf_modify_same.
  - intros dt. apply wf_unblock_read.
Qed.

Lemma wf_modify_queue dt (f : session U → list (item U)) :
  preserves wf
    (q ← recv_buf_at dt; modify (λ s, set_recv_buf (<[dt:=f s]> (_recv_buf s)) s)).
Proof.
  intros s Hwf. destruct (_recv_buf s !! dt) as [q|] eqn:Hq; mrun; [|done].
  apply wf_set_queue; [by eauto|done].
Qed.

Lemma wf_connection_lost exc : preserves (U:=U) wf (connection_lost exc).
Proof.
  unfold connection_lost. repeat pres_step.
  - by apply wf_modify_same.
  - by apply wf_modify_same.
  - destruct exc as [e|]; repeat pres_step.
    intros dt s Hwf. destruct (_recv_buf s !! dt) as [q|] eqn:Hq; mrun; [|done].
    apply wf_set_queue; [by eauto|done].
  - apply wf_eof_received.
  - apply wf_unblock_drain.
Qed.

Lemma wf_data_received (d : list U) dt : preserves wf (data_received d dt).
Proof.
  intros s Hwf. unfold data_received.
  destruct (_recv_buf s !! dt) as [q|] eqn:Hq; mrun; [|done].
  pres_rest.
  - apply (wf_same (set_recv_buf (<[dt:=q ++ [Data d]]> (_recv_buf s)) s));
      try done.
    apply wf_set_queue; [by eauto|done].
  - repeat pres_step; [apply wf_unblock_read|apply wf_chan].
Qed.

Lemma wf_read_pass n dt exact data : preserves wf (read_pass n dt exact data).
Proof.
  intros s Hwf. unfold read_pass.
  destruct (_recv_buf s !! dt) as [q|] eqn:Hq; mrun; [|done].
  destruct (read_loop q n data (_recv_buf_len s))
    as [[[[ex q'] n'] data'] l'] eqn:Hloop.
  mrun. pres_rest.
  - apply (wf_same (set_recv_buf (<[dt:=q']> (_recv_buf s)) s)); try done.
    apply wf_set_queue; [by eauto|done].
  - destruct ex; repeat pres_step;
      [apply wf_maybe_resume_reading|apply wf_block_read].
Qed.

Lemma wf_readline_pass dt data : preserves wf (readline_pass sep dt data).
Proof.
  intros s Hwf. unfold readline_pass.
  destruct (_recv_buf s !! dt) as [q|] eqn:Hq; mrun; [|done].
  destruct (readline_loop sep q data (_recv_buf_len s))
    as [[[ex q'] data'] l'] eqn:Hloop.
  mrun. pres_rest.
  - apply (wf_same (set_recv_buf (<[dt:=q']> (_recv_buf s)) s)); try done.
    apply wf_set_queue; [by eauto|done].
  - destruct ex; repeat pres_step;
      first [apply wf_maybe_resume_reading|apply wf_block_read].
Qed.

Lemma wf_drain : preserves (U:=U) wf drain.
Proof.
  intros s Hwf. unfold drain. mrun.
  destruct (_write_paused s && negb (_connection_lost s)).
  - unfold Future. mrun. simpl.
    destruct Hwf as [H1 H2 H3 H4 H5 H6].
    assert (Hlive : ∀ w, live s w →
      live (set_drain_waiters (_drain_waiters s ++ [length (futures s)])
              (set_futures (futures s ++ [Pending]) s)) w).
    { intros w Hw. pose proof (live_lt _ _ Hw). unfold live in *. simpl.
      by rewrite !lookup_app_l. }
    split; simpl; try done.
    + intros dt w Hdt. apply Hlive. eauto.
    + intros w [Hw|Hw%list_elem_of_singleton]%elem_of_app; [by eauto|].
      subst w. left. simpl. by rewrite lookup_app_r, Nat.sub_diag.
    + apply NoDup_app. split_and!; [done| |apply NoDup_singleton].
      intros w Hw Hw'%list_elem_of_singleton. subst w.
      apply H4, live_lt in Hw. lia.
    + intros dt w Hdt [Hw|Hw%list_elem_of_singleton]%elem_of_app.
      * by eapply H6.
      * subst w. apply H2, live_lt in Hdt. lia.
  - by apply preserves_drain_finish.
Qed.

Lemma wf_start r : preserves wf (start sep r).
Proof.
  destruct r; simpl; apply preserves_as_value.
  - apply wf_read_pass.
  - apply wf_readline_pass.
  - apply wf_drain.
Qed.

Lemma wf_resume fr : preserves wf (resume sep fr).
Proof.
  unfold resume. repeat pres_step. destruct a as [[]|]; try pres_step;
    destruct fr; apply preserves_as_value;
    first [ apply wf_read_pass | apply wf_readline_pass
          | apply preserves_drain_finish ].
Qed.

Lemma wf_cancel s w :
  futures s !! w = Some Pending →
  wf s → wf (set_futures (<[w:=Cancelled]> (futures s)) s).
Proof.
  intros Hw [H1 H2 H3 H4 H5 H6].
  assert (Hlive : ∀ w', live s w' →
    live (set_futures (<[w:=Cancelled]> (futures s)) s) w').
  { intros w' Hw'. unfold live in *. simpl.
    destruct (decide (w = w')) as [<-|Hne].
    - right. apply list_lookup_insert_eq. by apply lookup_lt_Some in Hw.
    - by rewrite list_lookup_insert_ne. }
  split; simpl; eauto.
Qed.

Lemma wf_step sys ev : wf (sess sys) → wf (sess (step sep sys ev)).
Proof.
  intros Hs. destruct ev as [exc|d dt| | | |r|tid|tid]; simpl.
  - exact (wf_connection_lost exc _ Hs).
  - exact (wf_data_received d dt _ Hs).
  - exact (wf_eof_received _ Hs).
  - revert Hs. by apply wf_same.
  - refine (wf_unblock_drain _ _). revert Hs. by apply wf_same.
  - pose proof (wf_start r _ Hs) as Hr.
    by destruct (start sep r (sess sys)).
  - destruct (tasks sys !! tid) as [[r [fr|?]]|]; [|done..].
    destruct (futures (sess sys) !! waiter_of fr) as [[]|]; [done| |  |done].
    + pose proof (wf_resume fr _ Hs) as Hr.
      by destruct (resume sep fr (sess sys)).
    + pose proof (wf_resume fr _ Hs) as Hr.
      by destruct (resume sep fr (sess sys)).
  - destruct (tasks sys !! tid) as [[r [fr|?]]|]; [|done..].
    destruct (futures (sess sys) !! waiter_of fr) as [[]|] eqn:Hw; try done.
    simpl. by apply wf_cancel.
Qed.

Lemma wf_run sys tr : wf (sess sys) → wf (sess (run sep sys tr)).
Proof.
  revert sys. induction tr as [|ev tr IH]; intros sys Hs; [done|].
  simpl. apply IH. by apply wf_step.
Qed.

Lemma connection_made_slots recv_window read_datatypes dt w :
  _read_waiter (U:=U) (connection_made recv_window read_datatypes) !! dt = Some w →
  w = None.
Proof.
  simpl. revert w. induction read_datatypes as [|k dts IH] using rev_ind;
    intros w.
  - simpl. intros [_ ?]%lookup_singleton_Some. done.
  - rewrite foldl_app. simpl. destruct (decide (k = dt)) as [->|Hne].
    + rewrite lookup_insert_eq. congruence.
    + rewrite lookup_insert_ne by done. apply IH.
Qed.

Lemma connection_made_keys recv_window read_datatypes dt :
  is_Some (_recv_buf (U:=U) (connection_made recv_window read_datatypes) !! dt)
  ↔ is_Some (_read_waiter (U:=U) (connection_made recv_window read_datatypes) !! dt).
Proof.
  simpl. induction read_datatypes as [|k dts IH] using rev_ind.
  - simpl. rewrite !lookup_singleton_is_Some. done.
  - rewrite !foldl_app. simpl. rewrite !lookup_insert_is_Some'. by rewrite IH.
Qed.

Lemma wf_connection_made recv_window read_datatypes :
  wf (U:=U) (connection_made recv_window read_datatypes).
Proof.
  split.
  - apply connection_made_keys.
  - by intros dt w ?%connection_made_slots.
  - by intros dt1 dt2 w ?%connection_made_slots.
  - intros w Hw. by apply elem_of_nil in Hw.
  - apply NoDup_nil_2.
  - intros dt w _ Hw. by apply elem_of_nil in Hw.
Qed.

(** ** What [find] and the slices compute *)

Lemma find_absent (c : list U) : sep ∉ c → find sep c = -1.
Proof.
  induction c as [|x c IH]; [done|]. intros Hc. simpl.
  apply not_elem_of_cons in Hc as [Hx Hc].
  rewrite decide_False by done. rewrite IH by done. done.
Qed.

Lemma find_first (a b : list U) : sep ∉ a → find sep (a ++ sep :: b) = len a.
Proof.
  induction a as [|x a IH]; intros Ha; simpl.
  - by rewrite decide_True.
  - apply not_elem_of_cons in Ha as [Hx Ha].
    rewrite decide_False by done. rewrite IH by done.
    pose proof (len_nonneg a). rewrite bool_decide_false by lia.
    unfold len. simpl. lia.
Qed.

Lemma find_present (c : list U) :
  0 ≤ find sep c → ∃ a b, c = a ++ sep :: b ∧ sep ∉ a.
Proof.
  induction c as [|x c IH]; simpl; [lia|].
  destruct (decide (x = sep)) as [->|Hne].
  - intros _. exists [], c. split; [done|]. apply not_elem_of_nil.
  - case_bool_decide; [lia|]. intros _.
    destruct IH as (a & b & -> & Ha); [lia|].
    exists (x :: a), b. split; [done|]. by apply not_elem_of_cons.
Qed.

Lemma slice_to_app (a b : list U) : slice_to (a ++ b) (len a) = a.
Proof.
  unfold slice_to, len. rewrite bool_decide_true by lia.
  rewrite Nat2Z.id. by rewrite take_app_length.
Qed.

Lemma slice_from_app (a b : list U) : slice_from (a ++ b) (len a) = b.
Proof.
  unfold slice_from, len. rewrite bool_decide_true by lia.
  rewrite Nat2Z.id. by rewrite drop_app_length.
Qed.

Lemma len_snoc (a : list U) x : len (a ++ [x]) = len a + 1.
Proof. rewrite len_app. done. Qed.

(** ** The inner loop of [readline], case by case *)

(** Chunks without a separator are collected whole. *)
Lemma readline_loop_skip (pre : list (list U)) q data l :
  Forall (λ c, sep ∉ c) pre →
  readline_loop sep ((Data <$> pre) ++ q) data l
  = readline_loop sep q (data ++ pre) (l - len (concat pre)).
Proof.
  revert data l. induction pre as [|c pre IH]; intros data l Hpre; simpl.
  - rewrite app_nil_r. f_equal. unfold len. simpl. lia.
  - apply Forall_cons in Hpre as [Hc Hpre].
    rewrite find_absent by done. rewrite bool_decide_false by lia.
    rewrite IH by done. rewrite <-app_assoc. simpl. f_equal.
    rewrite len_app. lia.
Qed.

Lemma readline_loop_found (a b : list U) rest data l :
  sep ∉ a →
  readline_loop sep (Data (a ++ sep :: b) :: rest) data l
  = (LineFound, Data b :: rest, data ++ [a ++ [sep]], l - (len a + 1)).
Proof.
  intros Ha. simpl. rewrite find_first by done.
  pose proof (len_nonneg a). rewrite bool_decide_true by lia.
  rewrite <-(len_snoc a sep).
  replace (a ++ sep :: b) with ((a ++ [sep]) ++ b) by by rewrite <-app_assoc.
  by rewrite slice_to_app, slice_from_app.
Qed.

Lemma readline_loop_exc code rest data l :
  readline_loop sep (Exc code :: rest) data l
  = if nonempty data then (LineDeferred, Exc code :: rest, data, l)
    else (LineRaise (ChannelError code), rest, data, l).
Proof. done. Qed.

Lemma readline_loop_nil data l :
  readline_loop sep [] data l = (LineExhausted, [], data, l).
Proof. done. Qed.

(** ** Passes of [readline], case by case *)

Lemma maybe_resume_reading_eq s : maybe_resume_reading s = (Ret tt, resumed s).
Proof.
  unfold maybe_resume_reading, resumed. mrun. by case_bool_decide.
Qed.

Lemma block_read_free s dt :
  _read_waiter s !! dt = Some None →
  _block_read dt s = (Ret (length (futures s)), parked dt s).
Proof. intros Hslot. unfold _block_read. mrun. unfold Future. by mrun. Qed.

Lemma block_read_busy s dt w :
  _read_waiter s !! dt = Some (Some w) →
  _block_read dt s = (Raise RuntimeError, s).
Proof. intros Hslot. unfold _block_read. by mrun. Qed.

Ltac mrun_resume :=
  mrun; erewrite ?bind_ret_eq by apply maybe_resume_reading_eq; mrun;
  unfold mret, M_ret.

(** A separator is found: the line is returned and the rest of the chunk
    stays at the head of the queue. *)
Lemma readline_pass_found s dt data (pre : list (list U)) a b rest :
  _recv_buf s !! dt = Some ((Data <$> pre) ++ Data (a ++ sep :: b) :: rest) →
  Forall (λ c, sep ∉ c) pre → sep ∉ a →
  readline_pass sep dt data s
  = (Ret (Return (join data ++ concat pre ++ a ++ [sep])),
     resumed (drained dt (Data b :: rest)
                (_recv_buf_len s - len (concat pre) - (len a + 1)) s)).
Proof.
  intros Hq Hpre Ha. unfold readline_pass. mrun.
  rewrite readline_loop_skip, readline_loop_found by done.
  mrun_resume. rewrite join_snoc, join_app. unfold join.
  by rewrite <-!app_assoc.
Qed.

(** The queue runs out at EOF: what was collected is returned. *)
Lemma readline_pass_eof s dt data (ds : list (list U)) :
  _recv_buf s !! dt = Some (Data <$> ds) →
  Forall (λ c, sep ∉ c) ds → _eof_received s = true →
  readline_pass sep dt data s
  = (Ret (Return (join data ++ concat ds)),
     resumed (drained dt [] (_recv_buf_len s - len (concat ds)) s)).
Proof.
  intros Hq Hds Heof. unfold readline_pass. mrun.
  rewrite <-(app_nil_r (Data <$> ds)), readline_loop_skip by done.
  rewrite readline_loop_nil. mrun_resume.
  replace (_eof_received _) with true by by (unfold resumed; case_bool_decide).
  mrun. unfold mret, M_ret. by rewrite join_app.
Qed.

(** The queue runs out before EOF: the call parks, or fails when another
    reader holds the slot. *)
Lemma readline_pass_park s dt data (ds : list (list U)) :
  _recv_buf s !! dt = Some (Data <$> ds) →
  Forall (λ c, sep ∉ c) ds → _eof_received s = false →
  readline_pass sep dt data s
  = let s1 := resumed (drained dt [] (_recv_buf_len s - len (concat ds)) s) in
    match _read_waiter s !! dt with
    | Some None =>
        (Ret (Yield (ReadlineFrame dt (data ++ ds) (length (futures s)))),
         parked dt s1)
    | Some (Some _) => (Raise RuntimeError, s1)
    | None => (Raise (KeyError dt), s1)
    end.
Proof.
  intros Hq Hds Heof. unfold readline_pass. mrun.
  rewrite <-(app_nil_r (Data <$> ds)), readline_loop_skip by done.
  rewrite readline_loop_nil. mrun_resume.
  replace (_eof_received _) with false by by (unfold resumed; case_bool_decide).
  set (s1 := resumed _). simpl.
  assert (Hrw : _read_waiter s1 = _read_waiter s)
    by by (unfold s1, resumed; case_bool_decide).
  assert (Hfs : futures s1 = futures s)
    by by (unfold s1, resumed; case_bool_decide).
  destruct (_read_waiter s !! dt) as [[w|]|] eqn:Hslot.
  - erewrite bind_raise_eq; [done|]. apply (block_read_busy _ _ w). by rewrite Hrw.
  - erewrite bind_ret_eq by (apply block_read_free; by rewrite Hrw).
    unfold mret, M_ret. by rewrite Hfs.
  - erewrite bind_raise_eq; [done|]. unfold _block_read.
    erewrite bind_raise_eq; [done|]. apply read_waiter_at_missing. by rewrite Hrw.
Qed.

(** An exception object at the head with nothing collected: it is removed
    and raised; no watermark check takes place. *)
Lemma readline_pass_raise s dt code rest :
  _recv_buf s !! dt = Some (Exc code :: rest) →
  readline_pass sep dt [] s
  = (Raise (ChannelError code), drained dt rest (_recv_buf_len s) s).
Proof. intros Hq. unfold readline_pass. by mrun. Qed.

(** An exception object met after data was collected: the data is returned,
    the exception object stays at the head; again no watermark check. *)
Lemma readline_pass_defer s dt data (pre : list (list U)) code rest :
  _recv_buf s !! dt = Some ((Data <$> pre) ++ Exc code :: rest) →
  Forall (λ c, sep ∉ c) pre → data ++ pre ≠ [] →
  readline_pass sep dt data s
  = (Ret (Return (join data ++ concat pre)),
     drained dt (Exc code :: rest) (_recv_buf_len s - len (concat pre)) s).
Proof.
  intros Hq Hpre Hne. unfold readline_pass. mrun.
  rewrite readline_loop_skip, readline_loop_exc by done.
  replace (nonempty (data ++ pre)) with true by by destruct (data ++ pre).
  mrun. unfold mret, M_ret. by rewrite join_app.
Qed.

(** ** Passes in normal form *)

Lemma resumed_fields s :
  _recv_buf (resumed s) = _recv_buf s
  ∧ _recv_buf_len (resumed s) = _recv_buf_len s
  ∧ _read_waiter (resumed s) = _read_waiter s
  ∧ futures (resumed s) = futures s
  ∧ _eof_received (resumed s) = _eof_received s
  ∧ _drain_waiters (resumed s) = _drain_waiters s
  ∧ _limit (resumed s) = _limit s.
Proof. unfold resumed. by case_bool_decide. Qed.

Lemma resumed_eof s : _eof_received (resumed s) = _eof_received s.
Proof. apply resumed_fields. Qed.

Lemma block_read_eq s dt (fr : future → frame U) :
  (waiter ← _block_read dt; mret (Yield (A:=list U) (fr waiter))) s
  = park_or_fail dt fr s.
Proof.
  unfold park_or_fail. destruct (_read_waiter s !! dt) as [[w|]|] eqn:Hslot.
  - erewrite bind_raise_eq; [done|]. by eapply block_read_busy.
  - erewrite bind_ret_eq by by apply block_read_free. done.
  - erewrite bind_raise_eq; [done|]. unfold _block_read.
    erewrite bind_raise_eq; [done|]. by apply read_waiter_at_missing.
Qed.

Lemma read_pass_eq s n dt exact data q :
  _recv_buf s !! dt = Some q →
  read_pass n dt exact data s
  = let '(ex, q', n', data', l') := read_loop q n data (_recv_buf_len s) in
    match ex with
    | Some e => (Raise e, drained dt q' l' s)
    | None =>
        let s1 := resumed (drained dt q' l' s) in
        if bool_decide (n' = 0)
           || (bool_decide (0 < n') && nonempty data' && negb exact)
           || _eof_received s
        then
          if bool_decide (0 < n') && exact
          then (Raise (IncompleteReadError (join data') (len (join data') + n')),
                s1)
          else (Ret (Return (join data')), s1)
        else park_or_fail dt (ReadFrame n' dt exact data') s1
    end.
Proof.
  intros Hq. unfold read_pass. mrun.
  destruct (read_loop q n data (_recv_buf_len s))
    as [[[[[e|] q'] n'] data'] l'].
  - by mrun.
  - mrun. erewrite bind_ret_eq by apply maybe_resume_reading_eq. mrun.
    rewrite resumed_eof. simpl. destruct (_ || _ || _).
    + by destruct (_ && _).
    + apply block_read_eq.
Qed.

Lemma readline_pass_eq s dt data q :
  _recv_buf s !! dt = Some q →
  readline_pass sep dt data s
  = let '(ex, q', data', l') := readline_loop sep q data (_recv_buf_len s) in
    match ex with
    | LineRaise e => (Raise e, drained dt q' l' s)
    | LineDeferred => (Ret (Return (join data')), drained dt q' l' s)
    | LineFound => (Ret (Return (join data')), resumed (drained dt q' l' s))
    | LineExhausted =>
        let s1 := resumed (drained dt q' l' s) in
        if _eof_received s then (Ret (Return (join data')), s1)
        else park_or_fail dt (ReadlineFrame dt data') s1
    end.
Proof.
  intros Hq. unfold readline_pass. mrun.
  destruct (readline_loop sep q data (_recv_buf_len s))
    as [[[[] q'] data'] l'].
  - mrun. erewrite bind_ret_eq by apply maybe_resume_reading_eq. by mrun.
  - by mrun.
  - by mrun.
  - mrun. erewrite bind_ret_eq by apply maybe_resume_reading_eq. mrun.
    rewrite resumed_eof. simpl. destruct (_eof_received s); [done|].
    apply block_read_eq.
Qed.

Lemma read_pass_missing s n dt exact data :
  _recv_buf s !! dt = None →
  read_pass n dt exact data s = (Raise (KeyError dt), s).
Proof. intros Hq. unfold read_pass. by mrun. Qed.

Lemma readline_pass_missing s dt data :
  _recv_buf s !! dt = None →
  readline_pass sep dt data s = (Raise (KeyError dt), s).
Proof. intros Hq. unfold readline_pass. by mrun. Qed.

(** ** Exact reads *)

Lemma as_value_eq {A} (f : A → option (list U)) (m : M U (coro U A)) s :
  as_value f m s
  = match m s with
    | (Ret (Return a), s') => (Ret (Return (f a)), s')
    | (Ret (Yield fr), s') => (Ret (Yield fr), s')
    | (Raise e, s') => (Raise e, s')
    end.
Proof.
  unfold as_value, mbind, M_bind. by destruct (m s) as [[[a|fr]|e] s'].
Qed.

Lemma park_or_fail_cases dt fr s :
  (∃ s', park_or_fail dt fr s = (Ret (Yield (fr (length (futures s)))), s'))
  ∨ (∃ e, park_or_fail dt fr s = (Raise e, s)
       ∧ (e = RuntimeError ∨ e = KeyError dt)).
Proof.
  unfold park_or_fail. destruct (_read_waiter s !! dt) as [[w|]|]; eauto 6.
Qed.

(** One pass of an exact read keeps the contract of the call. *)
Lemma read_pass_exact s n dt data n0 :
  0 < n → n + len (join data) = n0 →
  exact_contract n0 dt (settle (as_value Some (read_pass n dt true data) s).1).
Proof.
  intros Hn Hn0. rewrite as_value_eq.
  destruct (_recv_buf s !! dt) as [q|] eqn:Hq;
    [|by rewrite read_pass_missing].
  rewrite (read_pass_eq _ _ _ _ _ q) by done.
  destruct (read_loop q n data (_recv_buf_len s))
    as [[[[[e|] q'] n'] data'] l'] eqn:Hloop.
  - apply read_loop_raise in Hloop as (code & -> & _). done.
  - apply read_loop_count in Hloop as (Hsum & Hpos & _).
    rewrite andb_true_r, andb_false_r, orb_false_r. simpl.
    destruct (bool_decide (n' = 0) || _eof_received s) eqn:Hend.
    + destruct (bool_decide (0 < n')) eqn:Hlt; simpl.
      * apply bool_decide_eq_true in Hlt. split; lia.
      * apply bool_decide_eq_false in Hlt. eexists. split; [done|]. lia.
    + apply orb_false_iff in Hend as [Hn'%bool_decide_eq_false _].
      destruct (park_or_fail_cases dt (ReadFrame n' dt true data')
                  (resumed (drained dt q' l' s))) as [[s' ->]|(e & -> & [->| ->])];
        simpl; [|done..].
      eexists _, _, _. split; [done|]. lia.
Qed.

(** With enough data buffered an exact read returns at once; at EOF with
    less it raises [IncompleteReadError] carrying all of it. *)
Lemma read_loop_data_only (ds : list (list U)) n data l ex q' n' data' l' :
  read_loop (Data <$> ds) n data l = (ex, q', n', data', l') →
  ex = None ∧ (n' = 0 ∨ q' = []) ∧ ∃ ds', q' = Data <$> ds'.
Proof.
  revert n data l. induction ds as [|c ds IH]; intros n data l Hloop;
    simpl in Hloop.
  - simplify_eq. split_and!; [done|by right|by exists []].
  - case_bool_decide.
    + simplify_eq. split_and!; [done|by left|by exists (c :: ds)].
    + destruct (bool_decide (0 < n) && bool_decide (n < len c)).
      * simplify_eq. split_and!; [done|by left|].
        by exists (slice_from c n :: ds).
      * by eapply IH.
Qed.

Lemma queue_data_only (ds : list (list U)) : queue_data (Data <$> ds) = concat ds.
Proof. induction ds as [|c ds IH]; simpl; [done|]. f_equal. exact IH. Qed.

Lemma prefix_take (a b c : list U) n :
  a ++ b = c → len a = n → a = take (Z.to_nat n) c.
Proof.
  intros <- <-. unfold len. rewrite Nat2Z.id. by rewrite take_app_length.
Qed.

Lemma read_exact_now s n dt (ds : list (list U)) :
  0 < n → _recv_buf s !! dt = Some (Data <$> ds) →
  (n ≤ len (concat ds) →
     (read n dt true s).1 = Ret (Return (take (Z.to_nat n) (concat ds))))
  ∧ (len (concat ds) < n → _eof_received s = true →
     (read n dt true s).1 = Raise (IncompleteReadError (concat ds) n)).
Proof.
  intros Hn Hq. unfold read. rewrite (read_pass_eq _ _ _ _ _ _ Hq).
  destruct (read_loop (Data <$> ds) n [] (_recv_buf_len s))
    as [[[[ex q'] n'] data'] l'] eqn:Hloop.
  pose proof (read_loop_data_only _ _ _ _ _ _ _ _ _ Hloop) as (-> & Hexit & _).
  pose proof (read_loop_count _ _ _ _ _ _ _ _ _ Hloop) as (Hsum & Hpos & _).
  pose proof (read_loop_data _ _ _ _ _ _ _ _ _ Hloop) as Hdata.
  rewrite queue_data_only in Hdata. change (join [] ++ ?x) with x in Hdata.
  change (len (join [])) with 0 in Hsum.
  assert (Hle : len (join data') ≤ len (concat ds)).
  { rewrite <-Hdata, len_app. pose proof (len_nonneg (queue_data q')). lia. }
  rewrite andb_true_r, andb_false_r, orb_false_r. split.
  - intros Htotal. assert (n' = 0) as ->.
    { destruct Hexit as [?| ->]; [done|]. simpl in Hdata.
      rewrite app_nil_r in Hdata. rewrite Hdata in Hsum. lia. }
    cbv zeta. rewrite bool_decide_true by done. simpl. do 2 f_equal.
    eapply prefix_take; [done|lia].
  - intros Htotal ->. cbv zeta. rewrite orb_true_r.
    rewrite bool_decide_true by lia. simpl.
    destruct Hexit as [->| ->]; [lia|]. simpl in Hdata.
    rewrite app_nil_r in Hdata. rewrite Hdata in *. do 2 f_equal. lia.
Qed.

(** Every step of the event loop keeps the contract of every task. *)
Lemma task_contract_start r s :
  task_contract (mk_task r (settle (start sep r s).1)).
Proof.
  unfold task_contract. simpl. destruct r as [n dt [|]| |]; try done.
  intros Hn. simpl. apply read_pass_exact; [done|]. unfold len. simpl. lia.
Qed.

Lemma task_contract_resume r fr s :
  task_contract (mk_task r (Parked fr)) →
  task_contract (mk_task r (settle (resume sep fr s).1)).
Proof.
  unfold task_contract. simpl. destruct r as [n0 dt [|]| |]; try done.
  intros Hfr Hn0. destruct (Hfr Hn0) as (n & data & w & -> & Hn & Hsum).
  unfold resume. mrun. simpl.
  destruct (futures s !! w) as [[]|]; try by apply read_pass_exact.
  done.
Qed.

Lemma task_contract_step sys ev :
  Forall task_contract (tasks sys) →
  Forall task_contract (tasks (step sep sys ev)).
Proof.
  intros Hts. destruct ev as [exc|d dt| | | |r|tid|tid]; simpl; try done.
  - pose proof (task_contract_start r (sess sys)) as Hr.
    destruct (start sep r (sess sys)) as [res s']. simpl in *.
    apply Forall_app. split; [done|]. by apply Forall_singleton.
  - destruct (tasks sys !! tid) as [[r [fr|?]]|] eqn:Htid; [|done..].
    destruct (futures (sess sys) !! waiter_of fr) as [[]|]; [done| | |done].
    + pose proof (task_contract_resume r fr (sess sys)) as Hr.
      destruct (resume sep fr (sess sys)) as [res s']. simpl in *.
      apply Forall_insert; [done|]. apply Hr.
      by eapply (Forall_lookup_1 _ _ _ _ Hts Htid).
    + pose proof (task_contract_resume r fr (sess sys)) as Hr.
      destruct (resume sep fr (sess sys)) as [res s']. simpl in *.
      apply Forall_insert; [done|]. apply Hr.
      by eapply (Forall_lookup_1 _ _ _ _ Hts Htid).
  - destruct (tasks sys !! tid) as [[r [fr|?]]|] eqn:Htid; [|done..].
    destruct (futures (sess sys) !! waiter_of fr) as [[]|]; simpl; try done;
      (apply Forall_insert; [done|]; unfold task_contract; simpl;
       by destruct r as [? ? [|]| |]).
Qed.

Lemma task_contract_run sys tr :
  Forall task_contract (tasks sys) →
  Forall task_contract (tasks (run sep sys tr)).
Proof.
  revert sys. induction tr as [|ev tr IH]; intros sys Hs; [done|].
  simpl. apply IH. by apply task_contract_step.
Qed.

(** ** Passes of [read] that meet an exception object *)

(** Chunks that fit in what is still wanted are collected whole. *)
Lemma read_loop_skip (pre : list (list U)) q n data l :
  n < 0 ∨ len (concat pre) < n →
  read_loop ((Data <$> pre) ++ q) n data l
  = read_loop q (n - len (concat pre)) (data ++ pre) (l - len (concat pre)).
Proof.
  revert n data l. induction pre as [|c pre IH]; intros n data l Hn; simpl.
  - rewrite app_nil_r. change (len []) with 0. by rewrite !Z.sub_0_r.
  - change (concat (c :: pre)) with (c ++ concat pre) in Hn.
    rewrite len_app in Hn. pose proof (len_nonneg c).
    pose proof (len_nonneg (concat pre)).
    rewrite bool_decide_false by lia.
    replace (bool_decide (0 < n) && bool_decide (n < len c)) with false.
    2:{ symmetry. apply andb_false_iff.
        destruct Hn; [left|right]; apply bool_decide_eq_false; lia. }
    rewrite IH by lia. rewrite <-app_assoc. simpl. f_equal; rewrite ?len_app; lia.
Qed.

Lemma read_loop_exc code rest n data l :
  n ≠ 0 →
  read_loop (Exc code :: rest) n data l
  = if nonempty data then (None, Exc code :: rest, n, data, l)
    else (Some (ChannelError code), rest, n, data, l).
Proof. intros Hn. simpl. by rewrite bool_decide_false. Qed.

Lemma read_loop_zero q data l : read_loop q 0 data l = (None, q, 0, data, l).
Proof. by destruct q. Qed.

Lemma drained_id s dt q :
  _recv_buf s !! dt = Some q → drained dt q (_recv_buf_len s) s = s.
Proof.
  intros Hq. unfold drained, set_recv_buf, set_recv_buf_len.
  destruct s. simpl in *. f_equal. by apply insert_id.
Qed.

(** [read(0, ...)] returns at once without looking at the queue. *)
Lemma read_pass_zero s dt exact data q :
  _recv_buf s !! dt = Some q →
  read_pass 0 dt exact data s = (Ret (Return (join data)), resumed s).
Proof.
  intros Hq. rewrite (read_pass_eq _ _ _ _ _ _ Hq), read_loop_zero.
  cbv zeta. rewrite drained_id by done. done.
Qed.

(** Nothing collected: the exception object is removed and raised. *)
Lemma read_pass_raise s n dt exact code rest :
  _recv_buf s !! dt = Some (Exc code :: rest) → n ≠ 0 →
  read_pass n dt exact [] s
  = (Raise (ChannelError code), drained dt rest (_recv_buf_len s) s).
Proof.
  intros Hq Hn. by rewrite (read_pass_eq _ _ _ _ _ _ Hq), read_loop_exc.
Qed.

(** Data collected: the exception object stays at the head and the pass
    goes on to its exit test with the data it holds. *)
Lemma read_pass_defer s n dt exact data (pre : list (list U)) code rest :
  _recv_buf s !! dt = Some ((Data <$> pre) ++ Exc code :: rest) →
  n < 0 ∨ len (concat pre) < n → data ++ pre ≠ [] →
  read_pass n dt exact data s
  = let n' := n - len (concat pre) in
    let s1 := resumed (drained dt (Exc code :: rest)
                         (_recv_buf_len s - len (concat pre)) s) in
    if (bool_decide (0 < n') && negb exact) || _eof_received s
    then
      if bool_decide (0 < n') && exact
      then (Raise (IncompleteReadError (join (data ++ pre))
                     (len (join (data ++ pre)) + n')), s1)
      else (Ret (Return (join (data ++ pre))), s1)
    else park_or_fail dt (ReadFrame n' dt exact (data ++ pre)) s1.
Proof.
  intros Hq Hn Hne. rewrite (read_pass_eq _ _ _ _ _ _ Hq).
  rewrite read_loop_skip by done.
  pose proof (len_nonneg (concat pre)).
  rewrite read_loop_exc by lia.
  assert (Hd : nonempty (data ++ pre) = true) by by destruct (data ++ pre).
  rewrite Hd. cbv zeta. rewrite (bool_decide_false (_ = 0)) by lia.
  by rewrite Hd, andb_true_r.
Qed.

(** At EOF an empty queue gives an empty result, again and again. *)
Lemma read_pass_at_eof s n dt data :
  _recv_buf s !! dt = Some [] → _eof_received s = true →
  read_pass n dt false data s = (Ret (Return (join data)), resumed s).
Proof.
  intros Hq Heof. rewrite (read_pass_eq _ _ _ _ _ _ Hq). simpl.
  rewrite Heof, orb_true_r, andb_false_r. by rewrite drained_id.
Qed.

Lemma readline_pass_at_eof s dt data :
  _recv_buf s !! dt = Some [] → _eof_received s = true →
  readline_pass sep dt data s = (Ret (Return (join data)), resumed s).
Proof.
  intros Hq Heof. rewrite (readline_pass_eq _ _ _ _ Hq). simpl.
  rewrite Heof. by rewrite drained_id.
Qed.

(** ** A channel error is raised at most once per datatype *)

Lemma exc_count_app q1 q2 :
  exc_count (q1 ++ q2) = (exc_count q1 + exc_count q2)%nat.
Proof. induction q1 as [|[d|e] q1 IH]; simpl; lia. Qed.

Lemma read_loop_exc_count q n data l ex q' n' data' l' :
  read_loop q n data l = (ex, q', n', data', l') →
  (exc_count q' + (if ex is Some _ then 1 else 0) = exc_count q)%nat.
Proof.
  revert n data l. induction q as [|[c|e] q IH]; intros n data l Hloop;
    simpl in Hloop.
  - simplify_eq. done.
  - case_bool_decide; [by simplify_eq|].
    destruct (bool_decide (0 < n) && bool_decide (n < len c)).
    + simplify_eq. simpl. lia.
    + by apply IH in Hloop.
  - case_bool_decide; [simplify_eq; simpl; lia|].
    destruct (nonempty data); simplify_eq; simpl; lia.
Qed.

Lemma readline_loop_exc_count q data l ex q' data' l' :
  readline_loop sep q data l = (ex, q', data', l') →
  (exc_count q' + (if ex is LineRaise _ then 1 else 0) = exc_count q)%nat.
Proof.
  revert data l. induction q as [|[c|e] q IH]; intros data l Hloop;
    simpl in Hloop.
  - simplify_eq. done.
  - case_bool_decide.
    + simplify_eq. simpl. lia.
    + by apply IH in Hloop.
  - destruct (nonempty data); simplify_eq; simpl; lia.
Qed.

Lemma within_budget_buffer_only c : buffer_only (U:=U) (within_budget c).
Proof.
  intros s s' Hb _ Heof Hs dt. specialize (Hs dt).
  unfold queued_errors, error_budget in *. rewrite Hb.
  destruct (_eof_received s); [by rewrite Heof|]. etrans; [done|]. lia.
Qed.

(** Replacing the queue of [dt] by one with no more exception objects. *)
Lemma within_budget_set_queue c c' s s' dt q q' :
  _recv_buf s !! dt = Some q →
  _recv_buf s' = <[dt:=q']> (_recv_buf s) →
  _eof_received s' = _eof_received s →
  (∀ k, k ≠ dt → c' k = c k) →
  (exc_count q' + c' dt ≤ exc_count q + c dt)%nat →
  within_budget c s → within_budget c' s'.
Proof.
  intros Hq Hb Heof Hc Hle Hs k. specialize (Hs k).
  unfold queued_errors, error_budget in *. rewrite Hb, Heof.
  destruct (decide (k = dt)) as [->|Hne].
  - rewrite lookup_insert_eq. rewrite Hq in Hs. simpl in *. lia.
  - rewrite lookup_insert_ne by done. rewrite Hc by done. done.
Qed.

Lemma within_budget_data_received c (d : list U) dt :
  preserves (within_budget c) (data_received d dt).
Proof.
  intros s Hs. unfold data_received.
  destruct (_recv_buf s !! dt) as [q|] eqn:Hq; mrun; [|done].
  pres_rest.
  - eapply within_budget_set_queue; [done|reflexivity|reflexivity|done| |done].
    rewrite exc_count_app. simpl. lia.
  - pose proof (within_budget_buffer_only c). repeat pres_step.
    + by apply buffer_only_unblock_read.
    + by apply buffer_only_chan.
Qed.

Lemma resumed_shape s : _recv_buf (resumed s) = _recv_buf s
  ∧ _eof_received (resumed s) = _eof_received s.
Proof. unfold resumed. by case_bool_decide. Qed.


Lemma park_or_fail_shape dt fr s :
  (park_or_fail dt fr s).1 = Ret (Yield (fr (length (futures s))))
  ∨ (∃ e, (park_or_fail dt fr s).1 = Raise e
       ∧ (e = RuntimeError ∨ e = KeyError dt)).
Proof.
  unfold park_or_fail. destruct (_read_waiter s !! dt) as [[w|]|]; eauto 6.
Qed.

Lemma park_or_fail_state dt fr s :
  _recv_buf (park_or_fail dt fr s).2 = _recv_buf s
  ∧ _eof_received (park_or_fail dt fr s).2 = _eof_received s.
Proof.
  unfold park_or_fail. by destruct (_read_waiter s !! dt) as [[w|]|].
Qed.

Lemma read_pass_shape s n dt exact data q :
  _recv_buf s !! dt = Some q →
  pass_shape dt q s (read_pass n dt exact data s).
Proof.
  intros Hq. rewrite (read_pass_eq _ _ _ _ _ _ Hq).
  destruct (read_loop q n data (_recv_buf_len s))
    as [[[[ex q'] n'] data'] l'] eqn:Hloop.
  pose proof (read_loop_exc_count _ _ _ _ _ _ _ _ _ Hloop) as Hcount.
  exists q'. destruct ex as [e|].
  - apply read_loop_raise in Hloop as (code & -> & _). simpl. split_and!; [done..|lia].
  - cbv zeta.
    destruct (resumed_shape (drained dt q' l' s)) as [Hb He].
    destruct (_ || _ || _).
    + destruct (_ && _); simpl; rewrite Hb, He; split_and!; try done; lia.
    + destruct (park_or_fail_state dt (ReadFrame n' dt exact data')
                  (resumed (drained dt q' l' s))) as [-> ->].
      rewrite Hb, He.
      destruct (park_or_fail_shape dt (ReadFrame n' dt exact data')
                  (resumed (drained dt q' l' s))) as [->|(e & -> & [->| ->])];
        split_and!; try done; lia.
Qed.

Lemma readline_pass_shape s dt data q :
  _recv_buf s !! dt = Some q →
  pass_shape dt q s (readline_pass sep dt data s).
Proof.
  intros Hq. rewrite (readline_pass_eq _ _ _ _ Hq).
  destruct (readline_loop sep q data (_recv_buf_len s))
    as [[[ex q'] data'] l'] eqn:Hloop.
  pose proof (readline_loop_exc_count _ _ _ _ _ _ _ Hloop) as Hcount.
  exists q'. destruct (resumed_shape (drained dt q' l' s)) as [Hb He].
  destruct ex as [| |e|]; cbv zeta; simpl in Hcount.
  - simpl. rewrite Hb, He. split_and!; try done; lia.
  - simpl. split_and!; try done; lia.
  - assert (∃ code, e = ChannelError code) as [code ->].
    { clear -Hloop. revert data l' Hloop. generalize (_recv_buf_len s).
      induction q as [|[c|code] q IH]; intros l data l' Hloop; simpl in Hloop.
      - simplify_eq.
      - case_bool_decide; [simplify_eq|]. by eapply IH.
      - destruct (nonempty data); simplify_eq. by eexists. }
    simpl. split_and!; try done; lia.
  - destruct (_eof_received s) eqn:Heof.
    + simpl. rewrite Hb, He. split_and!; try done; lia.
    + destruct (park_or_fail_state dt (ReadlineFrame dt data')
                  (resumed (drained dt q' l' s))) as [-> ->].
      rewrite Hb, He.
      destruct (park_or_fail_shape dt (ReadlineFrame dt data')
                  (resumed (drained dt q' l' s))) as [->|(e & -> & [->| ->])];
        split_and!; try done; lia.
Qed.

Lemma bind_post {A B} (P Q : session U → Prop) (m : M U A) (f : A → M U B) :
  (∀ s, P s → Q (m s).2) → (∀ a, preserves Q (f a)) →
  ∀ s, P s → Q ((m ≫= f) s).2.
Proof.
  intros Hm Hf s Hs. unfold mbind, M_bind. specialize (Hm s Hs).
  destruct (m s) as [[a|e] s1]; simpl in *; [|done]. by apply Hf.
Qed.

(** The loop of [connection_lost] over the datatypes: each queue named in
    [ks] receives the exception object once. *)
Lemma append_error_loop (ks : list datatype) code s :
  NoDup ks → (∀ k, k ∈ ks → is_Some (_recv_buf s !! k)) →
  ∃ rb,
    for_each ks (λ dt,
      q ← recv_buf_at dt;
      modify (λ s, set_recv_buf (<[dt:=q ++ [Exc code]]> (_recv_buf s)) s)) s
    = (Ret tt, set_recv_buf rb s)
    ∧ ∀ k, rb !! k
           = if decide (k ∈ ks) then (λ q, q ++ [Exc code]) <$> _recv_buf s !! k
             else _recv_buf s !! k.
Proof.
  revert s. induction ks as [|k ks IH]; intros s Hnd Hks; cbn [for_each].
  - exists (_recv_buf s). split; [by destruct s|].
    intros k. rewrite decide_False; [done|]. apply not_elem_of_nil.
  - apply NoDup_cons in Hnd as [Hk Hnd].
    destruct (Hks k) as [q Hq]; [by left|].
    erewrite bind_ret_eq by (mrun; reflexivity). cbv beta.
    destruct (IH (set_recv_buf (<[k:=q ++ [Exc code]]> (_recv_buf s)) s) Hnd)
      as (rb & -> & Hrb).
    { intros k' Hk'. simpl. rewrite lookup_insert_ne; [apply Hks; by right|].
      by intros ->. }
    exists rb. split; [done|]. intros k'. rewrite Hrb. cbn [_recv_buf set_recv_buf].
    destruct (decide (k' = k)) as [->|Hne].
    + rewrite decide_False by done. rewrite decide_True by by left.
      by rewrite lookup_insert_eq, Hq.
    + rewrite lookup_insert_ne by done.
      destruct (decide (k' ∈ ks)) as [Hin|Hin].
      * rewrite decide_True; [done|by right].
      * rewrite decide_False; [done|]. by apply not_elem_of_cons.
Qed.

Lemma within_budget_connection_lost c exc s :
  wf s → within_budget c s → within_budget c (connection_lost exc s).2.
Proof.
  intros Hwf Hs. pose proof (within_budget_buffer_only c) as Hbo.
  unfold connection_lost. mrun. simpl.
  destruct (_eof_received s) eqn:Heof.
  - mrun. pres_rest.
    + revert Hs. by apply Hbo.
    + repeat pres_step. by apply buffer_only_unblock_drain.
  - assert (Hzero : ∀ dt, queued_errors dt s = 0%nat ∧ c dt = 0%nat).
    { intros dt. specialize (Hs dt). unfold error_budget in Hs.
      rewrite Heof in Hs. lia. }
    set (R := λ s2 : session U,
      _eof_received s2 = true ∧ ∀ dt, (queued_errors dt s2 ≤ 1)%nat).
    assert (HR : buffer_only R).
    { intros s2 s3 Hb _ He [He2 Hq2]. split; [by apply He|].
      intros dt. unfold queued_errors. rewrite Hb. apply Hq2. }
    assert (Heofr : ∀ s1, (∀ dt, (queued_errors dt s1 ≤ 1)%nat) →
      R ((eof_received ≫= λ _, skip) s1).2).
    { apply (bind_post (λ s1, ∀ dt, (queued_errors dt s1 ≤ 1)%nat) R).
      - intros s1 Hq1. unfold eof_received. mrun. pres_rest; [by split|].
        repeat pres_step. intros dt. by apply buffer_only_unblock_read.
      - intros _. apply preserves_skip. }
    set (s0 := set_exception exc (set_connection_lost true s)).
    cut (R (((match exc with
              | Some e =>
                  ks ← gets (λ s, keys (_read_waiter s));
                  for_each ks (λ dt,
                    q ← recv_buf_at dt;
                    modify (λ s,
                      set_recv_buf (<[dt:=q ++ [Exc e]]> (_recv_buf s)) s))
              | None => skip
              end ≫= λ _, eof_received ≫= λ _, skip)
             ≫= λ _, wp ← gets _write_paused;
                     if wp : bool then _unblock_drain else skip) s0).2).
    { intros [Heof1 Hq1] dt. unfold error_budget. rewrite Heof1.
      destruct (Hzero dt) as [_ ->]. specialize (Hq1 dt). lia. }
    apply (bind_post (λ s1, s1 = s0) R); [|by intros _; repeat pres_step;
                                            apply buffer_only_unblock_drain|done].
    intros ? ->. destruct exc as [code|].
    + destruct (append_error_loop (keys (_read_waiter s)) code s0)
        as (rb & Hloop & Hrb).
      { apply NoDup_fst_map_to_list. }
      { intros k Hk. simpl. apply (wf_keys _ Hwf).
        apply list_elem_of_fmap in Hk as ([k' v] & -> & Hk).
        apply elem_of_map_to_list in Hk. by eexists. }
      erewrite bind_ret_eq by (mrun; exact Hloop).
      apply Heofr. intros dt. unfold queued_errors. simpl. rewrite Hrb. simpl.
      destruct (Hzero dt) as [Hq0 _]. unfold queued_errors in Hq0.
      destruct (decide _); destruct (_recv_buf s !! dt) as [q|]; simpl in *;
        rewrite ?exc_count_app; simpl; lia.
    + mrun. apply Heofr. intros dt. destruct (Hzero dt) as [Hq0 _].
      unfold queued_errors in *. simpl. lia.
Qed.

Lemma errors_raised_app dt (ts1 ts2 : list (task U)) :
  errors_raised dt (ts1 ++ ts2)
  = (errors_raised dt ts1 + errors_raised dt ts2)%nat.
Proof. unfold errors_raised. by rewrite sum_list_with_app. Qed.

Lemma errors_raised_insert dt (ts : list (task U)) tid t t' :
  ts !! tid = Some t → raised_error dt t = 0%nat →
  errors_raised dt (<[tid:=t']> ts)
  = (errors_raised dt ts + raised_error dt t')%nat.
Proof.
  intros Htid Ht. rewrite insert_take_drop by by eapply lookup_lt_Some.
  rewrite <-(take_drop_middle ts tid t) at 3 by done.
  rewrite !errors_raised_app.
  change (errors_raised dt (?x :: ?l))
    with (raised_error dt x + errors_raised dt l)%nat.
  lia.
Qed.

(** What finishing a pass on [dt] adds to the tally of the task. *)
Lemma pass_budget c r dt q s (out : result U (coro U (list U)) * session U) :
  call_datatype r = Some dt →
  _recv_buf s !! dt = Some q →
  pass_shape dt q s out →
  within_budget c s →
  within_budget
    (λ k, (c k + raised_error k
             (mk_task r (settle (as_value Some (λ _, out) s).1)))%nat)
    (as_value Some (λ _, out) s).2
  ∧ frame_matches (mk_task r (settle (as_value Some (λ _, out) s).1)).
Proof.
  intros Hr Hq (q' & Hb & Heof & Hout) Hs. rewrite as_value_eq.
  destruct out as [[[buf|fr]|e] s']; simpl in *.
  - split; [|done]. unfold raised_error. simpl.
    eapply within_budget_set_queue; [done..| | |done]; intros; lia.
  - destruct Hout as [Hfr Hcount].
    split; [|unfold frame_matches; simpl; congruence].
    unfold raised_error. simpl.
    eapply within_budget_set_queue; [done..| | |done]; intros; lia.
  - split; [|done]. unfold raised_error. simpl.
    eapply within_budget_set_queue; [done..| | |done].
    + intros k Hk. destruct e; try lia. rewrite Hr.
      rewrite decide_False; [lia|congruence].
    + destruct e; try lia. rewrite Hr. rewrite decide_True by done. lia.
Qed.

Lemma pass_missing_budget c r s (e : exn U) :
  within_budget c s →
  (∀ code, e ≠ ChannelError code) →
  within_budget
    (λ k, (c k + raised_error k (mk_task r (Finished (Raise e))))%nat) s.
Proof.
  intros Hs He k. unfold raised_error. simpl.
  destruct e; try (rewrite Nat.add_0_r; apply Hs). by destruct (He code).
Qed.

Lemma drain_budget c (m : M U (coro U ())) s :
  preserves (within_budget c) m →
  (∀ fr, (m s).1 = Ret (Yield fr) → frame_datatype fr = None) →
  within_budget c s →
  within_budget
    (λ k, (c k + raised_error k
             (mk_task Drain (settle (as_value (λ _, None) m s).1)))%nat)
    (as_value (λ _, None) m s).2
  ∧ frame_matches (mk_task Drain (settle (as_value (λ _, None) m s).1)).
Proof.
  intros Hm Hfr Hs. specialize (Hm s Hs). rewrite as_value_eq.
  destruct (m s) as [[[[]|fr]|e] s']; simpl in *.
  - split; [|done]. intros k. rewrite Nat.add_0_r. apply Hm.
  - split; [intros k; rewrite Nat.add_0_r; apply Hm|]. by apply Hfr.
  - split; [|done]. intros k. unfold raised_error. simpl.
    destruct e; rewrite ?Nat.add_0_r; apply Hm.
Qed.

Lemma drain_finish_no_yield s fr : (drain_finish s).1 ≠ Ret (Yield fr).
Proof.
  unfold drain_finish. mrun.
  destruct (_connection_lost s); mrun; [|done].
  destruct (_exception s); mrun; [done|].
  by destruct (_write_paused s).
Qed.

Lemma drain_yield s fr :
  (drain s).1 = Ret (Yield fr) → frame_datatype fr = None.
Proof.
  unfold drain. mrun. destruct (_ && _).
  - unfold Future. mrun. by intros [= <-].
  - intros H. by apply drain_finish_no_yield in H.
Qed.

(** Starting a call, and resuming a parked one, keeps the tally within the
    budget. *)
Lemma start_budget c r s :
  within_budget c s →
  within_budget
    (λ k, (c k + raised_error k (mk_task r (settle (start sep r s).1)))%nat)
    (start sep r s).2
  ∧ frame_matches (mk_task r (settle (start sep r s).1)).
Proof.
  intros Hs. destruct r as [n dt exact|dt|]; simpl.
  - destruct (_recv_buf s !! dt) as [q|] eqn:Hq.
    + apply (pass_budget c (Read n dt exact) dt q s
               (read_pass n dt exact [] s)); try done.
      by apply read_pass_shape.
    + unfold read. rewrite as_value_eq, read_pass_missing by done.
      split; [|done]. by apply pass_missing_budget.
  - destruct (_recv_buf s !! dt) as [q|] eqn:Hq.
    + apply (pass_budget c (Readline dt) dt q s
               (readline_pass sep dt [] s)); try done.
      by apply readline_pass_shape.
    + unfold readline. rewrite as_value_eq, readline_pass_missing by done.
      split; [|done]. by apply pass_missing_budget.
  - apply drain_budget; [|apply drain_yield|done].
    apply buffer_only_drain, within_budget_buffer_only.
Qed.

Lemma resume_budget c r fr s :
  frame_matches (mk_task r (Parked fr)) →
  within_budget c s →
  within_budget
    (λ k, (c k + raised_error k (mk_task r (settle (resume sep fr s).1)))%nat)
    (resume sep fr s).2
  ∧ frame_matches (mk_task r (settle (resume sep fr s).1)).
Proof.
  unfold frame_matches. simpl. intros Hfr Hs. unfold resume. mrun.
  assert (Hcancel : within_budget
    (λ k, (c k + raised_error k
             (mk_task (U:=U) r (Finished (Raise CancelledError))))%nat) s).
  { by apply pass_missing_budget. }
  destruct (futures s !! waiter_of fr) as [[]|]; try (by split);
    destruct fr as [n dt exact data w|dt data w|w]; simpl in Hfr.
  all: try (destruct (_recv_buf s !! dt) as [q|] eqn:Hq;
    [ first [ apply (pass_budget c r dt q s (read_pass n dt exact data s));
                [done|done|by apply read_pass_shape|done]
            | apply (pass_budget c r dt q s (readline_pass sep dt data s));
                [done|done|by apply readline_pass_shape|done] ]
    | rewrite as_value_eq, ?read_pass_missing, ?readline_pass_missing by done;
      split; [|done]; by apply pass_missing_budget ]).
  all: destruct r; try done;
    (apply drain_budget;
       [intros ?; apply preserves_drain_finish
       |intros ? H; by apply drain_finish_no_yield in H|done]).
Qed.

Lemma within_budget_ext c c' s :
  (∀ k, c' k = c k) → within_budget c s → within_budget (U:=U) c' s.
Proof. intros Hc Hs k. rewrite Hc. apply Hs. Qed.

Lemma once_inv_step sys ev : once_inv sys → once_inv (step sep sys ev).
Proof.
  intros (Hwf & Hfr & Hb). split; [by apply wf_step|].
  pose proof (within_budget_buffer_only
                (λ dt, errors_raised dt (tasks sys))) as Hbo.
  destruct ev as [exc|d dt| | | |r|tid|tid]; simpl.
  - split; [done|]. exact (within_budget_connection_lost _ exc _ Hwf Hb).
  - split; [done|]. exact (within_budget_data_received _ d dt _ Hb).
  - split; [done|]. exact (buffer_only_eof_received _ Hbo _ Hb).
  - split; [done|]. exact (buffer_only_pause_writing _ Hbo _ Hb).
  - split; [done|]. exact (buffer_only_resume_writing _ Hbo _ Hb).
  - destruct (start_budget _ r _ Hb) as [Hb' Hfr'].
    destruct (start sep r (sess sys)) as [res s']. simpl in *. split.
    + apply Forall_app. split; [done|]. by apply Forall_singleton.
    + eapply within_budget_ext; [|done]. intros k. simpl.
      rewrite errors_raised_app. unfold errors_raised at 2. simpl. lia.
  - destruct (tasks sys !! tid) as [[r [fr|?]]|] eqn:Htid; [|done..].
    pose proof (Forall_lookup_1 _ _ _ _ Hfr Htid) as Hmatch.
    assert (Hgo : ∀ out,
      out = resume sep fr (sess sys) →
      Forall frame_matches
        (tasks (let '(res, s') := out in
                mk_system s' (<[tid:=mk_task r (settle res)]> (tasks sys))))
      ∧ within_budget
          (λ dt, errors_raised dt
             (tasks (let '(res, s') := out in
                mk_system s' (<[tid:=mk_task r (settle res)]> (tasks sys)))))
          (sess (let '(res, s') := out in
                mk_system s' (<[tid:=mk_task r (settle res)]> (tasks sys))))).
    { intros out ->. destruct (resume_budget _ r fr _ Hmatch Hb) as [Hb' Hfr'].
      destruct (resume sep fr (sess sys)) as [res s']. simpl in *. split.
      - by apply Forall_insert.
      - eapply within_budget_ext; [|done]. intros k. simpl.
        by erewrite errors_raised_insert. }
    destruct (futures (sess sys) !! waiter_of fr) as [[]|]; try done;
      by apply Hgo.
  - destruct (tasks sys !! tid) as [[r [fr|?]]|] eqn:Htid; [|done..].
    destruct (futures (sess sys) !! waiter_of fr) as [[]|] eqn:Hw; simpl;
      try (split; [by apply Forall_insert|];
           eapply within_budget_ext; [|done]; intros k; simpl;
           by erewrite errors_raised_insert, Nat.add_0_r).
    split; [done|]. revert Hb. by apply Hbo.
Qed.

Lemma once_inv_run sys tr : once_inv sys → once_inv (run sep sys tr).
Proof.
  revert sys. induction tr as [|ev tr IH]; intros sys Hs; [done|].
  simpl. apply IH. by apply once_inv_step.
Qed.

Lemma once_inv_boot recv_window read_datatypes :
  once_inv (U:=U) (boot recv_window read_datatypes).
Proof.
  split_and!; [apply wf_connection_made|apply Forall_nil_2|].
  intros dt. unfold queued_errors, boot. cbn [sess tasks].
  destruct (_recv_buf _ !! dt) as [q|] eqn:Hq; simpl.
  - apply connection_made_queues in Hq as ->. simpl. lia.
  - unfold errors_raised. simpl. lia.
Qed.

(** ** Passes neither lose nor reorder payload *)

Lemma queued_data_drained dt q l s : queued_data dt (drained dt q l s) = queue_data q.
Proof. unfold queued_data, drained. simpl. by rewrite lookup_insert_eq. Qed.

Lemma queued_data_resumed dt s : queued_data dt (resumed s) = queued_data dt s.
Proof. unfold queued_data. by rewrite (proj1 (resumed_shape s)). Qed.

Lemma queued_data_eq dt s s' :
  _recv_buf s' = _recv_buf s → queued_data dt s' = queued_data dt s.
Proof. unfold queued_data. by intros ->. Qed.

(** Unless it ends by the usage error (or on a missing slot), a pass of
    [read] hands on exactly the data it held plus what it took off the
    queue. *)
Lemma read_pass_conserves s n dt exact data q :
  _recv_buf s !! dt = Some q →
  (read_pass n dt exact data s).1 ≠ Raise RuntimeError →
  (read_pass n dt exact data s).1 ≠ Raise (KeyError dt) →
  outcome_data (read_pass n dt exact data s).1
    ++ queued_data dt (read_pass n dt exact data s).2
  = join data ++ queue_data q.
Proof.
  intros Hq. rewrite (read_pass_eq _ _ _ _ _ _ Hq).
  destruct (read_loop q n data (_recv_buf_len s))
    as [[[[ex q'] n'] data'] l'] eqn:Hloop.
  pose proof (read_loop_data _ _ _ _ _ _ _ _ _ Hloop) as Hdata.
  destruct ex as [e|].
  - apply read_loop_raise in Hloop as (code & -> & _ & _ & -> & -> & _).
    intros _ _. simpl. by rewrite queued_data_drained.
  - cbv zeta. destruct (_ || _ || _).
    + destruct (_ && _); intros _ _; simpl;
        by rewrite queued_data_resumed, queued_data_drained.
    + unfold park_or_fail.
      destruct (_read_waiter _ !! dt) as [[w|]|];
        cbn [fst snd outcome_data frame_data].
      * intros H. by destruct H.
      * intros _ _.
        rewrite (queued_data_eq dt (resumed (drained dt q' l' s))) by done.
        by rewrite queued_data_resumed, queued_data_drained.
      * intros _ H. by destruct H.
Qed.

Lemma readline_pass_conserves s dt data q :
  _recv_buf s !! dt = Some q →
  (readline_pass sep dt data s).1 ≠ Raise RuntimeError →
  (readline_pass sep dt data s).1 ≠ Raise (KeyError dt) →
  outcome_data (readline_pass sep dt data s).1
    ++ queued_data dt (readline_pass sep dt data s).2
  = join data ++ queue_data q.
Proof.
  intros Hq. rewrite (readline_pass_eq _ _ _ _ Hq).
  destruct (readline_loop sep q data (_recv_buf_len s))
    as [[[ex q'] data'] l'] eqn:Hloop.
  pose proof (readline_loop_data _ _ _ _ _ _ _ Hloop) as Hdata.
  destruct ex as [| |e|]; cbv zeta.
  - intros _ _. simpl. by rewrite queued_data_resumed, queued_data_drained.
  - intros _ _. simpl. by rewrite queued_data_drained.
  - intros _ _. cbn [fst snd].
    assert (outcome_data (Raise e) = [] ∧ data' = []) as [-> ->].
    { clear -Hloop. revert data l' Hloop. generalize (_recv_buf_len s).
      induction q as [|[c|code] q IH]; intros l data l' Hloop; simpl in Hloop.
      - simplify_eq.
      - case_bool_decide; [simplify_eq|]. apply IH in Hloop as [? ?]. done.
      - destruct data; simplify_eq/=. done. }
    rewrite queued_data_drained. simpl in *. done.
  - destruct (_eof_received s).
    + intros _ _. simpl. by rewrite queued_data_resumed, queued_data_drained.
    + unfold park_or_fail.
      destruct (_read_waiter _ !! dt) as [[w|]|];
        cbn [fst snd outcome_data frame_data].
      * intros H. by destruct H.
      * intros _ _.
        rewrite (queued_data_eq dt (resumed (drained dt q' l' s))) by done.
        by rewrite queued_data_resumed, queued_data_drained.
      * intros _ H. by destruct H.
Qed.

(** ** [at_eof] and the watermark *)

Lemma at_eof_eq s dt :
  at_eof dt s
  = if _eof_received s then
      match _recv_buf s !! dt with
      | Some [] => (Ret true, s)
      | Some (_ :: _) => (Ret false, s)
      | None => (Raise (KeyError dt), s)
      end
    else (Ret false, s).
Proof.
  unfold at_eof. mrun. destruct (_eof_received s); [|done].
  destruct (_recv_buf s !! dt) as [[|it q]|] eqn:Hq; by mrun.
Qed.

(** [at_eof] answers true only when the EOF flag is up and the queue holds
    no item at all. *)
Lemma at_eof_true s dt :
  (at_eof dt s).1 = Ret true ↔
  _eof_received s = true ∧ _recv_buf s !! dt = Some [].
Proof.
  rewrite at_eof_eq. destruct (_eof_received s);
    [destruct (_recv_buf s !! dt) as [[|it q]|]|]; simpl; intuition congruence.
Qed.

(** [_unblock_read] touches the waiter slot and the future store only. *)
Lemma unblock_read_frame dt s :
  chan_calls (_unblock_read dt s).2 = chan_calls s
  ∧ _recv_buf_len (_unblock_read dt s).2 = _recv_buf_len s
  ∧ _limit (_unblock_read dt s).2 = _limit s.
Proof.
  unfold _unblock_read. munfold.
  destruct (_read_waiter s !! dt) as [[w|]|]; [|done..].
  unfold gets; cbv beta. destruct (futures s !! w) as [[]|] eqn:Hw; simpl; rewrite ?Hw; done.
Qed.

(** [data_received] asks the channel to pause exactly when the counter has
    reached the limit after the append. *)
Lemma data_received_pauses (d : list U) dt s :
  (data_received d dt s).1 = Ret tt →
  chan_calls (data_received d dt s).2
  = chan_calls s
    ++ (if bool_decide (_limit s ≤ _recv_buf_len s + len d)
        then [pause_reading] else [])
  ∧ _recv_buf_len (data_received d dt s).2 = _recv_buf_len s + len d.
Proof.
  unfold data_received.
  destruct (_recv_buf s !! dt) as [q|] eqn:Hq; mrun; [|done].
  set (s1 := set_recv_buf_len _ _).
  destruct (unblock_read_frame dt s1) as (Hc & Hl & Hlim).
  destruct (_unblock_read dt s1) as [[[]|e] s2] eqn:Hun.
  - erewrite bind_ret_eq by exact Hun. mrun. simpl in Hc, Hl, Hlim.
    rewrite Hl, Hlim. intros _.
    case_bool_decide; munfold; simpl; by rewrite Hc, ?Hl, ?app_nil_r.
  - erewrite bind_raise_eq by exact Hun. done.
Qed.

Lemma resumed_calls s :
  chan_calls (resumed s)
  = chan_calls s
    ++ (if bool_decide (_recv_buf_len s < _limit s) then [resume_reading]
        else []).
Proof. unfold resumed. case_bool_decide; simpl; by rewrite ?app_nil_r. Qed.

(** With its slot free and its queue present, a pass never ends by the usage
    error or on a missing key. *)
Lemma read_pass_free s n dt exact data q :
  _recv_buf s !! dt = Some q → _read_waiter s !! dt = Some None →
  (read_pass n dt exact data s).1 ≠ Raise RuntimeError
  ∧ (read_pass n dt exact data s).1 ≠ Raise (KeyError dt).
Proof.
  intros Hq Hslot. rewrite (read_pass_eq _ _ _ _ _ _ Hq).
  destruct (read_loop q n data (_recv_buf_len s))
    as [[[[ex q'] n'] data'] l'] eqn:Hloop.
  destruct ex as [e|].
  - apply read_loop_raise in Hloop as (code & -> & _). done.
  - cbv zeta. destruct (_ || _ || _); [by destruct (_ && _)|].
    unfold park_or_fail.
    rewrite (proj1 (proj2 (proj2 (resumed_fields _)))). simpl.
    by rewrite Hslot.
Qed.

Lemma readline_pass_free s dt data q :
  _recv_buf s !! dt = Some q → _read_waiter s !! dt = Some None →
  (readline_pass sep dt data s).1 ≠ Raise RuntimeError
  ∧ (readline_pass sep dt data s).1 ≠ Raise (KeyError dt).
Proof.
  intros Hq Hslot. rewrite (readline_pass_eq _ _ _ _ Hq).
  destruct (readline_loop sep q data (_recv_buf_len s))
    as [[[ex q'] data'] l'] eqn:Hloop.
  destruct ex as [| |e|]; cbv zeta; try done.
  - assert (∃ code, e = ChannelError code) as [code ->]; [|done].
    clear -Hloop. revert data l' Hloop. generalize (_recv_buf_len s).
    induction q as [|[c|code] q IH]; intros l data l' Hloop; simpl in Hloop.
    + simplify_eq.
    + case_bool_decide; [simplify_eq|]. by eapply IH.
    + destruct data; simplify_eq/=. by eexists.
  - destruct (_eof_received s); [done|]. unfold park_or_fail.
    rewrite (proj1 (proj2 (proj2 (resumed_fields _)))). simpl.
    by rewrite Hslot.
Qed.

(** ** Futures: a result is set on pending futures only *)

Section FuturesOnly.

Context (F : list fstate → Prop)
  (HF : ∀ fs w, fs !! w = Some Pending → F fs → F (<[w:=Done]> fs)).

Lemma futures_only_modify (f : session U → session U) :
  (∀ s, futures (f s) = futures s) →
  preserves (λ s, F (futures s)) (modify f).
Proof. intros Hf. apply preserves_modify. intros s. by rewrite Hf. Qed.

Lemma futures_only_set_result w :
  preserves (U:=U) (λ s, F (futures s)) (set_result w).
Proof.
  intros s Hs. unfold set_result.
  destruct (futures s !! w) as [[]|] eqn:Hw; simpl; [|done..]. by apply HF.
Qed.

Lemma futures_only_unblock_read dt :
  preserves (U:=U) (λ s, F (futures s)) (_unblock_read dt).
Proof.
  unfold _unblock_read. pres_step; [pres_step|].
  destruct a; repeat pres_step.
  - apply futures_only_set_result.
  - by apply futures_only_modify.
Qed.

Lemma futures_only_unblock_drain :
  preserves (U:=U) (λ s, F (futures s)) _unblock_drain.
Proof.
  unfold _unblock_drain. repeat pres_step.
  - intros w. repeat pres_step. apply futures_only_set_result.
  - by apply futures_only_modify.
Qed.

Lemma futures_only_eof_received :
  preserves (U:=U) (λ s, F (futures s)) eof_received.
Proof.
  unfold eof_received. repeat pres_step.
  - by apply futures_only_modify.
  - intros dt. apply futures_only_unblock_read.
Qed.

Lemma futures_only_connection_lost exc :
  preserves (U:=U) (λ s, F (futures s)) (connection_lost exc).
Proof.
  unfold connection_lost. repeat pres_step.
  - by apply futures_only_modify.
  - by apply futures_only_modify.
  - destruct exc as [e|]; repeat pres_step.
    intros dt. repeat pres_step. by apply futures_only_modify.
  - apply futures_only_eof_received.
  - apply futures_only_unblock_drain.
Qed.

Lemma futures_only_data_received (d : list U) dt :
  preserves (λ s, F (futures s)) (data_received d dt).
Proof.
  unfold data_received. repeat pres_step.
  - by apply futures_only_modify.
  - by apply futures_only_modify.
  - apply futures_only_unblock_read.
  - by apply futures_only_modify.
Qed.

Lemma futures_only_resume_writing :
  preserves (U:=U) (λ s, F (futures s)) resume_writing.
Proof.
  unfold resume_writing. repeat pres_step.
  - by apply futures_only_modify.
  - apply futures_only_unblock_drain.
Qed.

End FuturesOnly.

(** A future that is done stays so, and no callback cancels a future. *)
Lemma done_closed (w : future) (fs : list fstate) w' :
  fs !! w' = Some Pending → fs !! w = Some Done →
  <[w':=Done]> fs !! w = Some Done.
Proof.
  intros Hw' Hw. rewrite list_lookup_insert_ne; [done|]. congruence.
Qed.

Lemma not_cancelled_closed (w : future) (fs : list fstate) w' :
  fs !! w' = Some Pending → fs !! w ≠ Some Cancelled →
  <[w':=Done]> fs !! w ≠ Some Cancelled.
Proof.
  intros Hw' Hw. destruct (decide (w' = w)) as [->|Hne].
  - rewrite list_lookup_insert_eq; [done|]. by eapply lookup_lt_Some.
  - by rewrite list_lookup_insert_ne.
Qed.

(** ** [drain] *)

Lemma drain_finish_eq s :
  drain_finish s
  = (match _connection_lost s, _exception s, _write_paused s with
     | true, Some e, _ => Raise (ChannelError e)
     | true, None, true => Raise BrokenPipeError
     | _, _, _ => Ret (Return tt)
     end, s).
Proof.
  unfold drain_finish. munfold.
  by destruct (_connection_lost s), (_exception s), (_write_paused s).
Qed.

Lemma drain_eq s :
  drain s
  = if _write_paused s && negb (_connection_lost s)
    then (Ret (Yield (DrainFrame (length (futures s)))),
          set_drain_waiters (_drain_waiters s ++ [length (futures s)])
            (set_futures (futures s ++ [Pending]) s))
    else drain_finish s.
Proof.
  unfold drain. munfold.
  by destruct (_write_paused s), (_connection_lost s).
Qed.


(** ** Waking a parked reader *)

(** On a well-formed session [_unblock_read] does not raise: the future in
    the slot is pending or cancelled.  It empties the slot, and a pending
    future gets its result. *)
Lemma unblock_read_wf s k :
  wf s → is_Some (_read_waiter s !! k) →
  (_unblock_read k s).1 = Ret tt
  ∧ _read_waiter (_unblock_read k s).2 = <[k:=None]> (_read_waiter s)
  ∧ _drain_waiters (_unblock_read k s).2 = _drain_waiters s
  ∧ _write_paused (_unblock_read k s).2 = _write_paused s
  ∧ ∀ w, _read_waiter s !! k = Some (Some w) →
         futures s !! w = Some Pending →
         futures (_unblock_read k s).2 !! w = Some Done.
Proof.
  intros Hwf [slot Hslot]. unfold _unblock_read. munfold. rewrite Hslot.
  destruct slot as [w|].
  - unfold gets; cbv beta.
    destruct (wf_slot_live _ Hwf _ _ Hslot) as [Hw|Hw];
      rewrite Hw; simpl; rewrite ?Hw; simpl.
    + split_and!; try done. intros w' ? _. simplify_eq.
      apply list_lookup_insert_eq. by eapply lookup_lt_Some.
    + split_and!; try done. intros w' ? ?. simplify_eq.
  - simpl. split_and!; try done. by rewrite insert_id.
Qed.

(** The loop of [eof_received] over the datatypes. *)
Lemma unblock_all (ks : list datatype) s :
  wf s → (∀ k, k ∈ ks → is_Some (_read_waiter s !! k)) →
  (for_each ks _unblock_read s).1 = Ret tt
  ∧ wf (for_each ks _unblock_read s).2
  ∧ _drain_waiters (for_each ks _unblock_read s).2 = _drain_waiters s
  ∧ _write_paused (for_each ks _unblock_read s).2 = _write_paused s
  ∧ ∀ dt w, dt ∈ ks → _read_waiter s !! dt = Some (Some w) →
            futures s !! w = Some Pending →
            futures (for_each ks _unblock_read s).2 !! w = Some Done.
Proof.
  revert s. induction ks as [|k ks IH]; intros s Hwf Hks; cbn [for_each].
  - split_and!; try done. intros dt w Hin. by apply elem_of_nil in Hin.
  - destruct (unblock_read_wf s k Hwf) as (Hret & Hslots & Hdw & Hwp & Hwake);
      [apply Hks; by left|].
    pose proof (wf_unblock_read k s Hwf) as Hwf1.
    destruct (_unblock_read k s) as [[[]|e] s1] eqn:Hrun; [|done].
    simpl in *. erewrite bind_ret_eq by exact Hrun.
    destruct (IH s1 Hwf1) as (Hret' & Hwf' & Hdw' & Hwp' & Hwake').
    { intros k' Hk'. rewrite Hslots. apply lookup_insert_is_Some'.
      right. apply Hks. by right. }
    split_and!; [done|done|congruence|congruence|].
    intros dt w Hin Hslot Hw.
    pose proof (futures_only_unblock_read _ (done_closed w)) as Hdone.
    destruct (decide (dt = k)) as [->|Hne].
    + specialize (Hwake w Hslot Hw).
      pose proof (preserves_for_each _ ks _unblock_read (Hdone) s1 Hwake).
      done.
    + apply elem_of_cons in Hin as [?|Hin]; [done|].
      apply (Hwake' dt w Hin).
      * by rewrite Hslots, lookup_insert_ne.
      * assert (Hslot1 : _read_waiter s1 !! dt = Some (Some w))
          by by rewrite Hslots, lookup_insert_ne.
        destruct (wf_slot_live _ Hwf1 _ _ Hslot1) as [?|Hc]; [done|].
        pose proof (futures_only_unblock_read _ (not_cancelled_closed w) k s)
          as Hnc.
        rewrite Hrun in Hnc. simpl in Hnc. destruct Hnc; [congruence|done].
Qed.

Lemma keys_present {V} (d : gmap datatype V) k : k ∈ keys d → is_Some (d !! k).
Proof.
  unfold keys. intros ([k' v] & -> & Hk)%list_elem_of_fmap.
  apply elem_of_map_to_list in Hk. by eexists.
Qed.

Lemma present_keys {V} (d : gmap datatype V) k v : d !! k = Some v → k ∈ keys d.
Proof.
  intros Hk. unfold keys. apply list_elem_of_fmap. exists (k, v).
  split; [done|]. by apply elem_of_map_to_list.
Qed.

(** [eof_received] returns [True] and wakes every parked reader. *)
Lemma eof_received_wakes s :
  wf s →
  (eof_received s).1 = Ret true
  ∧ wf (eof_received s).2
  ∧ _drain_waiters (eof_received s).2 = _drain_waiters s
  ∧ _write_paused (eof_received s).2 = _write_paused s
  ∧ ∀ dt w, _read_waiter s !! dt = Some (Some w) →
            futures s !! w = Some Pending →
            futures (eof_received s).2 !! w = Some Done.
Proof.
  intros Hwf. unfold eof_received. mrun.
  set (s0 := set_eof_received true s).
  assert (Hwf0 : wf s0) by (revert Hwf; by apply wf_same).
  destruct (unblock_all (keys (_read_waiter s0)) s0 Hwf0)
    as (Hret & Hwf' & Hdw & Hwp & Hwake); [apply keys_present|].
  destruct (for_each _ _ s0) as [[[]|e] s1] eqn:Hrun; [|done].
  erewrite bind_ret_eq by exact Hrun. simpl in *.
  split_and!; try done. intros dt w Hslot Hw.
  apply (Hwake dt w); [|done..]. by eapply present_keys.
Qed.

(** [data_received] wakes the reader parked on its datatype. *)
Lemma data_received_wakes (d : list U) dt s w :
  wf s → _read_waiter s !! dt = Some (Some w) →
  futures s !! w = Some Pending →
  futures (data_received d dt s).2 !! w = Some Done.
Proof.
  intros Hwf Hslot Hw. unfold data_received.
  destruct (wf_keys _ Hwf dt) as [_ [q Hq]]; [by eexists|]. mrun.
  set (s1 := set_recv_buf_len _ _).
  assert (Hwf1 : wf s1).
  { apply (wf_same (set_recv_buf (<[dt:=q ++ [Data d]]> (_recv_buf s)) s));
      try done.
    apply wf_set_queue; [by eauto|done]. }
  destruct (unblock_read_wf s1 dt Hwf1) as (Hret & _ & _ & _ & Hwake);
    [by eexists|].
  specialize (Hwake w Hslot Hw).
  destruct (_unblock_read dt s1) as [[[]|e] s2] eqn:Hrun; [|done].
  erewrite bind_ret_eq by exact Hrun. simpl in *. mrun.
  by case_bool_decide.
Qed.

(** On a well-formed session [_unblock_drain] does not raise either. *)
Lemma unblock_drain_wf s :
  wf s →
  (_unblock_drain s).1 = Ret tt
  ∧ ∀ w, w ∈ _drain_waiters s → futures s !! w = Some Pending →
         futures (_unblock_drain s).2 !! w = Some Done.
Proof.
  intros [H1 H2 H3 H4 H5 H6]. unfold _unblock_drain. mrun.
  destruct (unblock_drain_loop (_drain_waiters s) s H5 H4)
    as (fs & Hrun & _ & Hin).
  erewrite bind_ret_eq by exact Hrun. mrun. munfold. simpl.
  split; [done|]. intros w Hw Hp. by rewrite (Hin w Hw), Hp.
Qed.

(** [connection_lost] does not raise on a well-formed session.  Unless EOF
    was flagged before, it wakes every parked reader; when writing is
    paused, it wakes every parked [drain]. *)
Lemma connection_lost_wakes exc s :
  wf s →
  (connection_lost exc s).1 = Ret tt
  ∧ (_eof_received s = false →
     ∀ dt w, _read_waiter s !! dt = Some (Some w) →
             futures s !! w = Some Pending →
             futures (connection_lost exc s).2 !! w = Some Done)
  ∧ (_write_paused s = true →
     ∀ w, w ∈ _drain_waiters s → futures s !! w = Some Pending →
          futures (connection_lost exc s).2 !! w = Some Done).
Proof.
  intros Hwf. unfold connection_lost. mrun.
  set (s0 := set_exception exc (set_connection_lost true s)).
  assert (Hwf0 : wf s0) by (revert Hwf; by apply wf_same).
  assert (Htail : ∀ s1, wf s1 →
    ((wp ← gets _write_paused; if wp : bool then _unblock_drain else skip) s1).1
      = Ret tt
    ∧ (∀ w, futures s1 !! w = Some Done →
            futures ((wp ← gets _write_paused;
                      if wp : bool then _unblock_drain else skip) s1).2 !! w
            = Some Done)
    ∧ (_write_paused s1 = true →
       ∀ w, w ∈ _drain_waiters s1 → futures s1 !! w = Some Pending →
            futures ((wp ← gets _write_paused;
                      if wp : bool then _unblock_drain else skip) s1).2 !! w
            = Some Done)).
  { intros s1 Hwf1. mrun. destruct (unblock_drain_wf s1 Hwf1) as [Hret Hwake].
    destruct (_write_paused s1); [|done].
    split_and!; [done| |by intros _].
    intros w. apply (futures_only_unblock_drain _ (done_closed w)). }
  destruct (_eof_received s) eqn:Heof.
  - change (_eof_received s0) with (_eof_received s). rewrite Heof. mrun.
    destruct (Htail s0 Hwf0) as (Hret & _ & Hdrain).
    split_and!; [done|done|]. apply Hdrain.
  - change (_eof_received s0) with (_eof_received s). rewrite Heof.
    set (A := match exc with
              | Some e =>
                  ks ← gets (λ s, keys (_read_waiter s));
                  for_each ks (λ dt,
                    q ← recv_buf_at dt;
                    modify (λ s,
                      set_recv_buf (<[dt:=q ++ [Exc e]]> (_recv_buf s)) s))
              | None => skip
              end).
    assert (HA : ∃ rb, A s0 = (Ret tt, set_recv_buf rb s0)
                       ∧ wf (set_recv_buf rb s0)).
    { subst A. destruct exc as [code|].
      - destruct (append_error_loop (keys (_read_waiter s)) code s0)
          as (rb & Hloop & Hrb).
        { apply NoDup_fst_map_to_list. }
        { intros k Hk. apply (wf_keys _ Hwf0). by apply keys_present. }
        exists rb. mrun. split; [exact Hloop|].
        assert (Hp : preserves wf (for_each (keys (_read_waiter s)) (λ dt,
          q ← recv_buf_at dt;
          modify (λ s : session U,
            set_recv_buf (<[dt:=q ++ [Exc code]]> (_recv_buf s)) s)))).
        { apply preserves_for_each. intros dt s1 Hwf1.
          destruct (_recv_buf s1 !! dt) as [q|] eqn:Hq; mrun; [|done].
          apply wf_set_queue; [by eauto|done]. }
        specialize (Hp s0 Hwf0).
        by rewrite Hloop in Hp.
      - exists (_recv_buf s0). split; [by destruct s|].
        revert Hwf0. by apply wf_same. }
    destruct HA as (rb & HA & HwfA). set (sA := set_recv_buf rb s0) in *.
    destruct (eof_received_wakes sA HwfA) as (Hret & HwfB & Hdw & Hwp & Hwake).
    destruct (eof_received sA) as [[b|e] sB] eqn:HB; [|done]. simpl in *.
    assert (Hpre : (A ≫= λ _, eof_received ≫= λ _, skip) s0 = (Ret tt, sB)).
    { erewrite bind_ret_eq by exact HA. erewrite bind_ret_eq by exact HB.
      done. }
    erewrite bind_ret_eq by exact Hpre.
    destruct (Htail sB HwfB) as (Hret' & Hdone & Hdrain).
    split_and!; [done| |].
    + intros _ dt w Hslot Hw. apply Hdone. by apply (Hwake dt w).
    + intros Hp w Hin Hw. apply Hdrain; [congruence|congruence|].
      assert (Hlive : live sB w).
      { apply (wf_drain_live _ HwfB). congruence. }
      destruct Hlive as [?|Hc]; [done|].
      pose proof (futures_only_eof_received _ (not_cancelled_closed w) sA)
        as Hnc.
      rewrite HB in Hnc. simpl in Hnc. destruct Hnc; [|done].
      simpl. congruence.
Qed.

(** [resume_writing] wakes every parked [drain]. *)
Lemma resume_writing_wakes s w :
  wf s → w ∈ _drain_waiters s → futures s !! w = Some Pending →
  (resume_writing s).1 = Ret tt
  ∧ futures (resume_writing s).2 !! w = Some Done.
Proof.
  intros Hwf Hw Hp. unfold resume_writing. mrun.
  assert (Hwf0 : wf (set_write_paused false s))
    by (revert Hwf; by apply wf_same).
  destruct (unblock_drain_wf _ Hwf0) as [Hret Hwake].
  split; [done|]. by apply Hwake.
Qed.

(** ** One parked reader per datatype *)

(** A pass that parks leaves its fresh future, pending, in the slot. *)
Lemma park_or_fail_yield dt (fr : future → frame U) s fr0 :
  (park_or_fail dt fr s).1 = Ret (Yield fr0) →
  fr0 = fr (length (futures s))
  ∧ _read_waiter s !! dt = Some None
  ∧ _read_waiter (park_or_fail dt fr s).2 !! dt
    = Some (Some (length (futures s)))
  ∧ futures s !! length (futures s) = None
  ∧ futures (park_or_fail dt fr s).2 !! length (futures s) = Some Pending.
Proof.
  unfold park_or_fail. destruct (_read_waiter s !! dt) as [[w|]|]; [done| |done].
  simpl. intros ?. simplify_eq. split_and!; try done.
  - by rewrite lookup_insert_eq.
  - apply lookup_ge_None_2. lia.
  - rewrite lookup_app_r by lia. by rewrite Nat.sub_diag.
Qed.

Lemma read_pass_yield s n dt exact data fr :
  (read_pass n dt exact data s).1 = Ret (Yield fr) →
  _read_waiter s !! dt = Some None
  ∧ _read_waiter (read_pass n dt exact data s).2 !! dt
    = Some (Some (waiter_of fr))
  ∧ futures s !! waiter_of fr = None
  ∧ futures (read_pass n dt exact data s).2 !! waiter_of fr = Some Pending.
Proof.
  destruct (_recv_buf s !! dt) as [q|] eqn:Hq;
    [|by rewrite read_pass_missing].
  rewrite (read_pass_eq _ _ _ _ _ _ Hq).
  destruct (read_loop q n data (_recv_buf_len s))
    as [[[[[e|] q'] n'] data'] l']; [done|].
  cbv zeta. destruct (_ || _ || _); [by destruct (_ && _)|].
  intros Hy. apply park_or_fail_yield in Hy as (-> & H1 & H2 & H3 & H4).
  destruct (resumed_fields (drained dt q' l' s))
    as (_ & _ & Hw & Hf & _).
  rewrite Hw in H1. rewrite Hf in H3, H4, H2. simpl. by rewrite Hf.
Qed.

Lemma readline_pass_yield s dt data fr :
  (readline_pass sep dt data s).1 = Ret (Yield fr) →
  _read_waiter s !! dt = Some None
  ∧ _read_waiter (readline_pass sep dt data s).2 !! dt
    = Some (Some (waiter_of fr))
  ∧ futures s !! waiter_of fr = None
  ∧ futures (readline_pass sep dt data s).2 !! waiter_of fr = Some Pending.
Proof.
  destruct (_recv_buf s !! dt) as [q|] eqn:Hq;
    [|by rewrite readline_pass_missing].
  rewrite (readline_pass_eq _ _ _ _ Hq).
  destruct (readline_loop sep q data (_recv_buf_len s))
    as [[[[] q'] data'] l']; try done.
  cbv zeta. destruct (_eof_received s); [done|].
  intros Hy. apply park_or_fail_yield in Hy as (-> & H1 & H2 & H3 & H4).
  destruct (resumed_fields (drained dt q' l' s))
    as (_ & _ & Hw & Hf & _).
  rewrite Hw in H1. rewrite Hf in H3, H4, H2. simpl. by rewrite Hf.
Qed.

(** With the slot taken, [park_or_fail] raises the usage error where it
    would park with the slot free. *)
Lemma park_or_fail_busy dt (fr : future → frame U) s s0 w :
  _read_waiter s !! dt = Some (Some w) → _read_waiter s0 !! dt = Some None →
  park_or_fail dt fr s = (Raise RuntimeError, s)
  ∧ (park_or_fail dt fr s0).1 = Ret (Yield (fr (length (futures s0)))).
Proof. intros H1 H2. unfold park_or_fail. by rewrite H1, H2. Qed.

(** A pass that runs while another reader is parked on its datatype never
    parks and leaves that reader's slot and every future as they are; it
    raises the usage error exactly when it would park were the slot free. *)
Lemma read_pass_busy s n dt exact data w :
  _read_waiter s !! dt = Some (Some w) →
  (∀ fr, (read_pass n dt exact data s).1 ≠ Ret (Yield fr))
  ∧ _read_waiter (read_pass n dt exact data s).2 = _read_waiter s
  ∧ futures (read_pass n dt exact data s).2 = futures s
  ∧ ((read_pass n dt exact data s).1 = Raise RuntimeError
     ↔ ∃ fr, (read_pass n dt exact data (freed dt s)).1 = Ret (Yield fr)).
Proof.
  intros Hslot. destruct (_recv_buf s !! dt) as [q|] eqn:Hq.
  - rewrite (read_pass_eq _ _ _ _ _ _ Hq).
    rewrite (read_pass_eq (freed dt s) _ _ _ _ q) by done.
    change (_recv_buf_len (freed dt s)) with (_recv_buf_len s).
    change (_eof_received (freed dt s)) with (_eof_received s).
    destruct (read_loop q n data (_recv_buf_len s))
      as [[[[ex q'] n'] data'] l'] eqn:Hloop.
    destruct ex as [e|].
    + apply read_loop_raise in Hloop as (code & -> & _).
      split_and!; try done. split; [done|]. by intros [fr ?].
    + cbv zeta.
      destruct (resumed_fields (drained dt q' l' s)) as (_ & _ & Hw & Hf & _).
      destruct (resumed_fields (drained dt q' l' (freed dt s)))
        as (_ & _ & Hw0 & _).
      destruct (_ || _ || _).
      * destruct (_ && _); (split_and!; [done|done|done|]);
          (split; [done|by intros [fr ?]]).
      * edestruct (park_or_fail_busy dt (ReadFrame n' dt exact data')
          (resumed (drained dt q' l' s))
          (resumed (drained dt q' l' (freed dt s))) w) as [-> ->].
        { by rewrite Hw. }
        { rewrite Hw0. apply lookup_insert_eq. }
        split_and!; [done|done|done|]. split; [by eexists|done].
  - rewrite !read_pass_missing by done.
    split_and!; try done. split; [done|by intros [fr ?]].
Qed.

Lemma readline_pass_busy s dt data w :
  _read_waiter s !! dt = Some (Some w) →
  (∀ fr, (readline_pass sep dt data s).1 ≠ Ret (Yield fr))
  ∧ _read_waiter (readline_pass sep dt data s).2 = _read_waiter s
  ∧ futures (readline_pass sep dt data s).2 = futures s
  ∧ ((readline_pass sep dt data s).1 = Raise RuntimeError
     ↔ ∃ fr, (readline_pass sep dt data (freed dt s)).1 = Ret (Yield fr)).
Proof.
  intros Hslot. destruct (_recv_buf s !! dt) as [q|] eqn:Hq.
  - rewrite (readline_pass_eq _ _ _ _ Hq).
    rewrite (readline_pass_eq (freed dt s) _ _ q) by done.
    change (_recv_buf_len (freed dt s)) with (_recv_buf_len s).
    change (_eof_received (freed dt s)) with (_eof_received s).
    destruct (readline_loop sep q data (_recv_buf_len s))
      as [[[ex q'] data'] l'] eqn:Hloop.
    destruct (resumed_fields (drained dt q' l' s)) as (_ & _ & Hw & Hf & _).
    destruct (resumed_fields (drained dt q' l' (freed dt s)))
      as (_ & _ & Hw0 & _).
    destruct ex as [| |e|]; cbv zeta.
    + split_and!; try done. split; [done|by intros [fr ?]].
    + split_and!; try done. split; [done|by intros [fr ?]].
    + assert (∃ code, e = ChannelError code) as [code ->].
      { clear -Hloop. revert data l' Hloop. generalize (_recv_buf_len s).
        induction q as [|[c|code] q IH]; intros l data l' Hloop;
          simpl in Hloop.
        - simplify_eq.
        - case_bool_decide; [simplify_eq|]. by eapply IH.
        - destruct data; simplify_eq/=. by eexists. }
      split_and!; try done. split; [done|by intros [fr ?]].
    + destruct (_eof_received s).
      * split_and!; try done. split; [done|by intros [fr ?]].
      * edestruct (park_or_fail_busy dt (ReadlineFrame dt data')
          (resumed (drained dt q' l' s))
          (resumed (drained dt q' l' (freed dt s))) w) as [-> ->].
        { by rewrite Hw. }
        { rewrite Hw0. apply lookup_insert_eq. }
        split_and!; [done|done|done|]. split; [by eexists|done].
  - rewrite !readline_pass_missing by done.
    split_and!; try done. split; [done|by intros [fr ?]].
Qed.

(** ** One reader, one datatype: nothing is lost or reordered *)

Lemma unblock_read_queues s k : _recv_buf (_unblock_read k s).2 = _recv_buf s.
Proof.
  unfold _unblock_read. munfold.
  destruct (_read_waiter s !! k) as [[w|]|]; [|done..].
  unfold gets; cbv beta.
  destruct (futures s !! w) as [[]|] eqn:Hw; simpl; rewrite ?Hw; done.
Qed.

(** After the loop of [eof_received] the slots it visited are empty; the
    queues are as before. *)
Lemma unblock_all_slots (ks : list datatype) s :
  wf s → (∀ k, k ∈ ks → is_Some (_read_waiter s !! k)) →
  _recv_buf (for_each ks _unblock_read s).2 = _recv_buf s
  ∧ ∀ k, k ∈ ks ∨ _read_waiter s !! k = Some None →
         _read_waiter (for_each ks _unblock_read s).2 !! k = Some None.
Proof.
  revert s. induction ks as [|k ks IH]; intros s Hwf Hks; cbn [for_each].
  - split; [done|]. intros k [Hin|?]; [|done]. by apply elem_of_nil in Hin.
  - destruct (unblock_read_wf s k Hwf) as (Hret & Hslots & _);
      [apply Hks; by left|].
    pose proof (wf_unblock_read k s Hwf) as Hwf1.
    pose proof (unblock_read_queues s k) as Hq.
    destruct (_unblock_read k s) as [[[]|e] s1] eqn:Hrun; [|done].
    simpl in *. erewrite bind_ret_eq by exact Hrun.
    destruct (IH s1 Hwf1) as [Hq' Hslots'].
    { intros k' Hk'. rewrite Hslots. apply lookup_insert_is_Some'.
      right. apply Hks. by right. }
    split; [congruence|]. intros k' Hk'. apply Hslots'.
    destruct (decide (k' = k)) as [->|Hne].
    + right. by rewrite Hslots, lookup_insert_eq.
    + destruct Hk' as [Hin|Hnone].
      * apply elem_of_cons in Hin as [?|Hin]; [done|by left].
      * right. by rewrite Hslots, lookup_insert_ne.
Qed.

Lemma eof_received_state s :
  wf s →
  _recv_buf (eof_received s).2 = _recv_buf s
  ∧ _eof_received (eof_received s).2 = true
  ∧ ∀ k, is_Some (_read_waiter s !! k) →
         _read_waiter (eof_received s).2 !! k = Some None.
Proof.
  intros Hwf. unfold eof_received. mrun.
  set (s0 := set_eof_received true s).
  assert (Hwf0 : wf s0) by (revert Hwf; by apply wf_same).
  destruct (unblock_all (keys (_read_waiter s0)) s0 Hwf0) as (Hret & _);
    [apply keys_present|].
  destruct (unblock_all_slots (keys (_read_waiter s0)) s0 Hwf0)
    as [Hq Hslots]; [apply keys_present|].
  assert (Heof : _eof_received (for_each (keys (_read_waiter s0))
                                  _unblock_read s0).2 = true).
  { apply (preserves_for_each (λ s', _eof_received s' = true)); [|done].
    intros k. apply buffer_only_unblock_read. intros s1 s2 _ _ He. exact He. }
  destruct (for_each _ _ s0) as [[[]|e] s1] eqn:Hrun; [|done].
  erewrite bind_ret_eq by exact Hrun. simpl in *.
  split_and!; [done|done|].
  intros k [v Hk]. apply Hslots. left. by eapply present_keys.
Qed.

Lemma data_received_state (d : list U) dt s q :
  wf s → _recv_buf s !! dt = Some q →
  (data_received d dt s).1 = Ret tt
  ∧ _recv_buf (data_received d dt s).2 = <[dt:=q ++ [Data d]]> (_recv_buf s)
  ∧ _read_waiter (data_received d dt s).2 = <[dt:=None]> (_read_waiter s).
Proof.
  intros Hwf Hq. unfold data_received. mrun.
  set (s1 := set_recv_buf_len _ _).
  assert (Hwf1 : wf s1).
  { apply (wf_same (set_recv_buf (<[dt:=q ++ [Data d]]> (_recv_buf s)) s));
      try done.
    apply wf_set_queue; [by eauto|done]. }
  destruct (unblock_read_wf s1 dt Hwf1) as (Hret & Hslots & _).
  { apply (wf_keys _ Hwf). by eexists. }
  pose proof (unblock_read_queues s1 dt) as Hqs.
  destruct (_unblock_read dt s1) as [[[]|e] s2] eqn:Hrun; [|done].
  erewrite bind_ret_eq by exact Hrun. simpl in *. mrun.
  by case_bool_decide.
Qed.

(** A pass that does not park leaves the slots and the futures alone. *)
Lemma read_pass_quiet s n dt exact data :
  (∀ fr, (read_pass n dt exact data s).1 ≠ Ret (Yield fr)) →
  _read_waiter (read_pass n dt exact data s).2 = _read_waiter s
  ∧ futures (read_pass n dt exact data s).2 = futures s.
Proof.
  destruct (_recv_buf s !! dt) as [q|] eqn:Hq;
    [|by rewrite read_pass_missing].
  rewrite (read_pass_eq _ _ _ _ _ _ Hq).
  destruct (read_loop q n data (_recv_buf_len s))
    as [[[[[e|] q'] n'] data'] l']; [done|].
  cbv zeta.
  destruct (resumed_fields (drained dt q' l' s)) as (_ & _ & Hw & Hf & _).
  destruct (_ || _ || _); [by destruct (_ && _)|].
  unfold park_or_fail. destruct (_read_waiter _ !! dt) as [[w|]|]; try done.
  intros Hny. by destruct (Hny (ReadFrame n' dt exact data'
    (length (futures (resumed (drained dt q' l' s)))))).
Qed.

Lemma readline_pass_quiet s dt data :
  (∀ fr, (readline_pass sep dt data s).1 ≠ Ret (Yield fr)) →
  _read_waiter (readline_pass sep dt data s).2 = _read_waiter s
  ∧ futures (readline_pass sep dt data s).2 = futures s.
Proof.
  destruct (_recv_buf s !! dt) as [q|] eqn:Hq;
    [|by rewrite readline_pass_missing].
  rewrite (readline_pass_eq _ _ _ _ Hq).
  destruct (readline_loop sep q data (_recv_buf_len s))
    as [[[[] q'] data'] l']; try done; cbv zeta.
  - intros _. by destruct (resumed_fields (drained dt q' l' s))
      as (_ & _ & Hw & Hf & _).
  - destruct (resumed_fields (drained dt q' l' s)) as (_ & _ & Hw & Hf & _).
    destruct (_eof_received s); [done|].
    unfold park_or_fail. destruct (_read_waiter _ !! dt) as [[w|]|]; try done.
    intros Hny. by destruct (Hny (ReadlineFrame dt data'
      (length (futures (resumed (drained dt q' l' s)))))).
Qed.

Lemma read_pass_ok s n dt exact data q :
  _recv_buf s !! dt = Some q → _read_waiter s !! dt = Some None →
  pass_ok dt data q (read_pass n dt exact data s).
Proof.
  intros Hq Hslot. unfold pass_ok.
  destruct (read_pass_free s n dt exact data q Hq Hslot) as [Hr Hk].
  split; [by apply read_pass_conserves|].
  destruct (read_pass_shape s n dt exact data q Hq) as (q' & Hb & _ & Hc).
  split.
  - unfold queued_errors. rewrite Hb, lookup_insert_eq. simpl.
    destruct (read_pass n dt exact data s).1 as [[?|?]|[]]; lia.
  - destruct (read_pass n dt exact data s).1 as [[buf|fr]|e] eqn:Hout.
    + rewrite (proj1 (read_pass_quiet s n dt exact data
        ltac:(intros fr; congruence))). done.
    + destruct Hc as [Hfr _].
      destruct (read_pass_yield s n dt exact data fr Hout) as (_ & ? & _ & ?).
      done.
    + rewrite (proj1 (read_pass_quiet s n dt exact data
        ltac:(intros fr; congruence))). done.
Qed.

Lemma readline_pass_ok s dt data q :
  _recv_buf s !! dt = Some q → _read_waiter s !! dt = Some None →
  pass_ok dt data q (readline_pass sep dt data s).
Proof.
  intros Hq Hslot. unfold pass_ok.
  destruct (readline_pass_free s dt data q Hq Hslot) as [Hr Hk].
  split; [by apply readline_pass_conserves|].
  destruct (readline_pass_shape s dt data q Hq) as (q' & Hb & _ & Hc).
  split.
  - unfold queued_errors. rewrite Hb, lookup_insert_eq. simpl.
    destruct (readline_pass sep dt data s).1 as [[?|?]|[]]; lia.
  - destruct (readline_pass sep dt data s).1 as [[buf|fr]|e] eqn:Hout.
    + rewrite (proj1 (readline_pass_quiet s dt data
        ltac:(intros fr; congruence))). done.
    + destruct Hc as [Hfr _].
      destruct (readline_pass_yield s dt data fr Hout) as (_ & ? & _ & ?).
      done.
    + rewrite (proj1 (readline_pass_quiet s dt data
        ltac:(intros fr; congruence))). done.
Qed.

Lemma task_data_settle (m : M U (coro U (list U))) r s :
  task_data (mk_task r (settle (as_value Some m s).1)) = outcome_data (m s).1.
Proof.
  rewrite as_value_eq. by destruct (m s) as [[[buf|fr]|[]] s'].
Qed.

Lemma as_value_state {A} (f : A → option (list U)) (m : M U (coro U A)) s :
  (as_value f m s).2 = (m s).2.
Proof. rewrite as_value_eq. by destruct (m s) as [[[a|fr]|e] s']. Qed.

Lemma settle_parked {A} (f : A → option (list U)) (m : M U (coro U A)) s fr :
  settle (as_value f m s).1 = Parked fr ↔ (m s).1 = Ret (Yield fr).
Proof.
  rewrite as_value_eq. destruct (m s) as [[[a|fr']|e] s']; simpl;
    split; intros; simplify_eq; done.
Qed.

Lemma consumed_snoc (ts : list (task U)) t :
  consumed (ts ++ [t]) = consumed ts ++ task_data t.
Proof.
  unfold consumed. rewrite fmap_app, concat_app. simpl. by rewrite app_nil_r.
Qed.

Lemma finished_lookup (ts : list (task U)) tid r fr :
  forallb finished ts = true → ts !! tid = Some (mk_task r (Parked fr)) → False.
Proof.
  revert tid. induction ts as [|t ts IH]; intros [|tid] Hall Ht;
    simplify_eq/=.
  apply andb_prop in Hall as [_ Hall]. by eapply IH.
Qed.

Lemma reader_state_slot dt (sys : system U) :
  reader_state dt sys → is_Some (_read_waiter (sess sys) !! dt).
Proof.
  intros [[_ ?]|(ts & r & fr & _ & _ & _ & [[? _]|[? _]])]; by eexists.
Qed.

Lemma reader_queue dt (sys : system U) :
  wf (sess sys) → reader_state dt sys →
  ∃ q, _recv_buf (sess sys) !! dt = Some q
       ∧ queued_data dt (sess sys) = queue_data q
       ∧ queued_errors dt (sess sys) = exc_count q.
Proof.
  intros Hwf Hst. apply reader_state_slot in Hst.
  apply (wf_keys _ Hwf) in Hst as [q Hq]. exists q.
  unfold queued_data, queued_errors. by rewrite Hq.
Qed.

Lemma forallb_snoc_parked (ts : list (task U)) r fr :
  forallb finished (ts ++ [mk_task r (Parked fr)]) = false.
Proof. rewrite forallb_app. simpl. apply andb_false_r. Qed.

(** The system once a pass run for the last task is over. *)
Lemma reader_inv_pass dt acc data q s r (m : M U (coro U (list U)))
    (ts : list (task U)) :
  pass_ok dt data q (m s) → wf (m s).2 → exc_count q = 0%nat →
  forallb finished ts = true →
  consumed ts ++ join data ++ queue_data q = acc →
  reader_inv dt acc
    (mk_system (as_value Some m s).2
       (ts ++ [mk_task r (settle (as_value Some m s).1)])).
Proof.
  intros (Hdata & Herr & Hslot) Hwf Hq Hts Hacc.
  unfold reader_inv. cbn [sess tasks]. rewrite as_value_state.
  split_and!; [done| |lia|].
  - destruct (m s).1 as [[buf|fr]|e] eqn:Hout.
    + left. split; [|done]. unfold reader_idle. cbn [tasks].
      rewrite forallb_app, Hts. rewrite as_value_eq.
      destruct (m s) as [[[?|?]|?] ?]; simplify_eq/=; done.
    + right. exists ts, r, fr. destruct Hslot as (Hfr & Hw & Hp).
      split_and!; [|done|done|by left].
      cbn [tasks]. by rewrite (proj2 (settle_parked Some m s fr) Hout).
    + left. split; [|done]. unfold reader_idle. cbn [tasks].
      rewrite forallb_app, Hts. rewrite as_value_eq.
      destruct (m s) as [[[?|?]|?] ?]; simplify_eq/=; done.
  - rewrite consumed_snoc, task_data_settle, <-app_assoc, Hdata. done.
Qed.

Lemma reader_inv_step dt acc (sys : system U) ev :
  reader_inv dt acc sys → allowed dt sys ev = true →
  reader_inv dt (acc ++ delivered dt [ev]) (step sep sys ev).
Proof.
  intros (Hwf & Hst & Herr & Hacc) Hev.
  pose proof (wf_step sys ev Hwf) as Hwf'.
  destruct (reader_queue dt sys Hwf Hst) as (q & Hq & Hqd & Hqe).
  rewrite Hqd in Hacc. rewrite Hqe in Herr.
  destruct ev as [exc|d dt'| | | |r|tid|tid]; try done.
  - (* data_received *)
    apply bool_decide_eq_true in Hev as ->. cbn [delivered].
    rewrite decide_True, app_nil_r by done.
    destruct (data_received_state d dt (sess sys) q Hwf Hq)
      as (_ & Hb & Hw).
    unfold reader_inv, reader_state, reader_idle in *.
    cbn [step callback sess tasks] in *.
    split_and!; [done| | |].
    + destruct Hst as [[Hidle Hslot]|(ts & r & fr & Hts & Hfin & Hfr & Hcase)].
      * left. split; [done|]. by rewrite Hw, lookup_insert_eq.
      * right. exists ts, r, fr. split_and!; [done..|]. right.
        split; [by rewrite Hw, lookup_insert_eq|].
        destruct Hcase as [[Hslot Hp]|[Hslot Hd]].
        -- by apply data_received_wakes.
        -- by apply (futures_only_data_received _
                       (done_closed (waiter_of fr)) d dt).
    + unfold queued_errors. rewrite Hb, lookup_insert_eq. simpl.
      rewrite exc_count_app. simpl. lia.
    + unfold queued_data. rewrite Hb, lookup_insert_eq. simpl.
      rewrite queue_data_app. simpl. rewrite app_nil_r, app_assoc.
      by rewrite Hacc.
  - (* eof_received *)
    cbn [delivered]. rewrite app_nil_r.
    destruct (eof_received_state (sess sys) Hwf) as (Hb & _ & Hslots).
    destruct (eof_received_wakes (sess sys) Hwf) as (_ & _ & _ & _ & Hwake).
    unfold reader_inv, reader_state, reader_idle in *.
    cbn [step callback sess tasks] in *.
    pose proof (reader_state_slot dt sys Hst) as Hsome.
    split_and!; [done| | |].
    + destruct Hst as [[Hidle Hslot]|(ts & r & fr & Hts & Hfin & Hfr & Hcase)].
      * left. split; [done|]. by apply Hslots.
      * right. exists ts, r, fr. split_and!; [done..|]. right.
        split; [by apply Hslots|].
        destruct Hcase as [[Hslot Hp]|[Hslot Hd]].
        -- by apply (Hwake dt).
        -- by apply (futures_only_eof_received _
                       (done_closed (waiter_of fr))).
    + unfold queued_errors. by rewrite Hb, Hq.
    + unfold queued_data. by rewrite Hb, Hq.
  - (* a new call *)
    cbn [allowed] in Hev.
    apply andb_prop in Hev as [Hdt%bool_decide_eq_true Hidle].
    cbn [delivered]. rewrite app_nil_r.
    destruct Hst as [[_ Hslot]|(ts & r' & fr & Hts & _)]; last first.
    { unfold reader_idle in Hidle. by rewrite Hts, forallb_snoc_parked in Hidle. }
    unfold step in *.
    destruct r as [n dt' exact|dt'|]; cbn in Hdt;
      [injection Hdt as ->|injection Hdt as ->|done]; cbn [start] in *.
    + destruct (as_value Some (read n dt exact) (sess sys)) as [res s'] eqn:Hrun.
      pose proof (reader_inv_pass dt acc [] q (sess sys) (Read n dt exact)
        (read n dt exact) (tasks sys)) as Hinv.
      rewrite Hrun in Hinv. cbn [fst snd] in Hinv. apply Hinv; [|..|done|done|done].
      * by apply read_pass_ok.
      * rewrite <-as_value_state with (f := Some). rewrite Hrun.
        exact Hwf'.
    + destruct (as_value Some (readline sep dt) (sess sys)) as [res s'] eqn:Hrun.
      pose proof (reader_inv_pass dt acc [] q (sess sys) (Readline dt)
        (readline sep dt) (tasks sys)) as Hinv.
      rewrite Hrun in Hinv. cbn [fst snd] in Hinv. apply Hinv; [|..|done|done|done].
      * by apply readline_pass_ok.
      * rewrite <-as_value_state with (f := Some). rewrite Hrun.
        exact Hwf'.
  - (* a parked call is resumed *)
    cbn [delivered]. rewrite app_nil_r. unfold step in *.
    destruct (tasks sys !! tid) as [[r [fr|res]]|] eqn:Htid;
      [|by unfold reader_inv; rewrite Hqd, Hqe..].
    destruct Hst as [[Hidle Hslot]|(ts & r' & fr' & Hts & Hfin & Hfr & Hcase)].
    { by destruct (finished_lookup _ _ _ _ Hidle Htid). }
    assert (tid = length ts ∧ r' = r ∧ fr' = fr) as (-> & -> & ->).
    { rewrite Hts in Htid. destruct (decide (tid < length ts)%nat).
      - rewrite lookup_app_l in Htid by done.
        by destruct (finished_lookup _ _ _ _ Hfin Htid).
      - rewrite lookup_app_r in Htid by lia.
        destruct (tid - length ts)%nat as [|k] eqn:Hk; simplify_eq/=.
        split; [lia|done]. }
    destruct Hcase as [[Hslot Hp]|[Hslot Hd]].
    { rewrite Hp. unfold reader_inv. rewrite Hqd, Hqe. split_and!; try done.
      right. exists ts, r, fr. split_and!; try done. by left. }
    rewrite Hd in *.
    assert (Hres : resume sep fr (sess sys)
      = match fr with
        | ReadFrame n dt' exact data _ =>
            as_value Some (read_pass n dt' exact data) (sess sys)
        | ReadlineFrame dt' data _ =>
            as_value Some (readline_pass sep dt' data) (sess sys)
        | DrainFrame _ => as_value (λ _, None) drain_finish (sess sys)
        end).
    { unfold resume. munfold. simpl. rewrite Hd. by destruct fr. }
    rewrite Hres in *. clear Hres.
    assert (Hins : ∀ t, <[length ts:=t]> (tasks sys) = ts ++ [t]).
    { intros t. rewrite Hts, insert_app_r_alt, Nat.sub_diag by lia. done. }
    assert (Hacc' : consumed ts ++ frame_data fr ++ queue_data q = acc).
    { rewrite <-Hacc, Hts, consumed_snoc, <-app_assoc. done. }
    destruct fr as [n dt' exact data w|dt' data w|w]; cbn in Hfr;
      [injection Hfr as ->|injection Hfr as ->|done]; cbn [frame_data] in Hacc'.
    + destruct (as_value Some (read_pass n dt exact data) (sess sys))
        as [res s'] eqn:Hrun.
      rewrite Hins.
      pose proof (reader_inv_pass dt acc data q (sess sys) r
        (read_pass n dt exact data) ts) as Hinv.
      rewrite Hrun in Hinv. cbn [fst snd] in Hinv. apply Hinv; [|..|done|done|done].
      * by apply read_pass_ok.
      * rewrite <-as_value_state with (f := Some). rewrite Hrun.
        exact Hwf'.
    + destruct (as_value Some (readline_pass sep dt data) (sess sys))
        as [res s'] eqn:Hrun.
      rewrite Hins.
      pose proof (reader_inv_pass dt acc data q (sess sys) r
        (readline_pass sep dt data) ts) as Hinv.
      rewrite Hrun in Hinv. cbn [fst snd] in Hinv. apply Hinv; [|..|done|done|done].
      * by apply readline_pass_ok.
      * rewrite <-as_value_state with (f := Some). rewrite Hrun.
        exact Hwf'.
Qed.

Lemma delivered_cons dt (ev : event U) tr :
  delivered dt (ev :: tr) = delivered dt [ev] ++ delivered dt tr.
Proof.
  destruct ev as [exc|d dt'| | | |r|tid|tid]; try done.
  simpl. destruct (decide (dt' = dt)); [|done]. by rewrite app_nil_r.
Qed.

Lemma reader_inv_run dt acc (sys : system U) tr :
  reader_inv dt acc sys → sequential sep dt sys tr = true →
  reader_inv dt (acc ++ delivered dt tr) (run sep sys tr).
Proof.
  revert acc sys. induction tr as [|ev tr IH]; intros acc sys Hinv Hseq.
  - simpl. by rewrite app_nil_r.
  - simpl in Hseq. apply andb_prop in Hseq as [Hev Hseq].
    rewrite delivered_cons, app_assoc. simpl. apply IH; [|done].
    by apply reader_inv_step.
Qed.

(** [connection_made] registers the primary datatype and the datatypes the
    channel names, each with an empty queue and an empty slot. *)
Lemma connection_made_registered recv_window read_datatypes dt :
  dt ∈ None :: read_datatypes →
  _recv_buf (U:=U) (connection_made recv_window read_datatypes) !! dt = Some []
  ∧ _read_waiter (U:=U) (connection_made recv_window read_datatypes) !! dt
    = Some None.
Proof.
  simpl. induction read_datatypes as [|k dts IH] using rev_ind; intros Hin.
  - apply list_elem_of_singleton in Hin as ->. simpl.
    by rewrite !lookup_singleton_eq.
  - rewrite !foldl_app. simpl. destruct (decide (k = dt)) as [->|Hne].
    + by rewrite !lookup_insert_eq.
    + rewrite !lookup_insert_ne by done. apply IH.
      rewrite app_comm_cons in Hin. apply elem_of_app in Hin as [?|Hin]; [done|].
      apply list_elem_of_singleton in Hin. by subst.
Qed.

Lemma reader_inv_boot recv_window read_datatypes dt :
  dt ∈ None :: read_datatypes →
  reader_inv (U:=U) dt [] (boot recv_window read_datatypes).
Proof.
  intros Hin.
  destruct (connection_made_registered recv_window read_datatypes dt Hin)
    as [Hq Hslot].
  unfold reader_inv, boot. cbn [sess tasks].
  split_and!.
  - apply wf_connection_made.
  - left. by split.
  - unfold queued_errors. by rewrite Hq.
  - unfold queued_data. by rewrite Hq.
Qed.

Lemma exc_count_zero q : exc_count q = 0%nat → ∃ ds, q = Data <$> ds.
Proof.
  induction q as [|[d|e] q IH]; simpl; intros Hq; [by exists []| |done].
  destruct (IH Hq) as [ds ->]. by exists (d :: ds).
Qed.

(** At EOF a [read] with a negative count returns everything that is
    queued and leaves the queue empty. *)
Lemma read_all_at_eof s n dt exact data (ds : list (list U)) :
  _recv_buf s !! dt = Some (Data <$> ds) → _eof_received s = true → n < 0 →
  (read_pass n dt exact data s).1 = Ret (Return (join data ++ concat ds))
  ∧ _recv_buf (read_pass n dt exact data s).2 !! dt = Some []
  ∧ _eof_received (read_pass n dt exact data s).2 = true.
Proof.
  intros Hq Heof Hn. rewrite (read_pass_eq _ _ _ _ _ _ Hq).
  rewrite <-(app_nil_r (Data <$> ds)), read_loop_skip by by left.
  cbn [read_loop]. cbv zeta. rewrite Heof, orb_true_r.
  pose proof (len_nonneg (concat ds)).
  rewrite (bool_decide_false (0 < n - len (concat ds))) by lia.
  cbn [andb fst snd].
  destruct (resumed_fields (drained dt [] (_recv_buf_len s - len (concat ds)) s))
    as (Hb & _ & _ & _ & He & _).
  rewrite Hb, He. split_and!; [by rewrite join_app| |done].
  unfold drained. simpl. by rewrite lookup_insert_eq.
Qed.

(** ** The set of datatypes is fixed by [connection_made] *)

Lemma registered_buffer_only ks : buffer_only (registered (U:=U) ks).
Proof. intros s s' Hb _ _ Hs dt. rewrite Hb. apply Hs. Qed.

Lemma registered_insert ks s s' dt q q' :
  _recv_buf s !! dt = Some q → _recv_buf s' = <[dt:=q']> (_recv_buf s) →
  registered ks s → registered ks s'.
Proof.
  intros Hq Hs' Hs k. rewrite Hs', lookup_insert_is_Some'. split.
  - intros [<-|?]; apply Hs; [by eexists|done].
  - intros ?%Hs. by right.
Qed.

Lemma registered_data_received ks (d : list U) dt :
  preserves (registered ks) (data_received d dt).
Proof.
  intros s Hs. unfold data_received.
  destruct (_recv_buf s !! dt) as [q|] eqn:Hq; mrun; [|done].
  pres_rest.
  - by eapply (registered_insert ks s).
  - pose proof (registered_buffer_only ks). repeat pres_step.
    + by apply buffer_only_unblock_read.
    + by apply buffer_only_chan.
Qed.

Lemma registered_connection_lost ks exc :
  preserves (U:=U) (registered ks) (connection_lost exc).
Proof.
  pose proof (registered_buffer_only ks) as Hbo.
  unfold connection_lost. repeat pres_step.
  - by apply buffer_only_modify.
  - by apply buffer_only_modify.
  - destruct exc as [e|]; repeat pres_step.
    intros x s Hs. destruct (_recv_buf s !! x) as [q|] eqn:Hq; mrun; [|done].
    by eapply (registered_insert ks s).
  - by apply buffer_only_eof_received.
  - by apply buffer_only_unblock_drain.
Qed.

Lemma registered_read_pass ks n dt exact data :
  preserves (registered ks) (read_pass n dt exact data).
Proof.
  pose proof (registered_buffer_only ks) as Hbo.
  intros s Hs. unfold read_pass.
  destruct (_recv_buf s !! dt) as [q|] eqn:Hq; mrun; [|done].
  destruct (read_loop q n data (_recv_buf_len s))
    as [[[[ex q'] n'] data'] l'] eqn:Hloop.
  mrun. pres_rest.
  - by eapply (registered_insert ks s).
  - destruct ex; repeat pres_step.
    + by apply buffer_only_maybe_resume_reading.
    + by apply buffer_only_block_read.
Qed.

Lemma registered_readline_pass ks dt data :
  preserves (registered ks) (readline_pass sep dt data).
Proof.
  pose proof (registered_buffer_only ks) as Hbo.
  intros s Hs. unfold readline_pass.
  destruct (_recv_buf s !! dt) as [q|] eqn:Hq; mrun; [|done].
  destruct (readline_loop sep q data (_recv_buf_len s))
    as [[[ex q'] data'] l'] eqn:Hloop.
  mrun. pres_rest.
  - by eapply (registered_insert ks s).
  - destruct ex; repeat pres_step;
      first [by apply buffer_only_maybe_resume_reading
            |by apply buffer_only_block_read].
Qed.

Lemma registered_start ks r : preserves (registered ks) (start sep r).
Proof.
  destruct r; simpl; apply preserves_as_value.
  - apply registered_read_pass.
  - apply registered_readline_pass.
  - apply buffer_only_drain, registered_buffer_only.
Qed.

Lemma registered_resume ks fr : preserves (registered ks) (resume sep fr).
Proof.
  unfold resume. repeat pres_step. destruct a as [[]|]; try pres_step;
    destruct fr; apply preserves_as_value;
    first [ apply registered_read_pass | apply registered_readline_pass
          | apply preserves_drain_finish ].
Qed.

Lemma registered_step ks (sys : system U) ev :
  registered ks (sess sys) → registered ks (sess (step sep sys ev)).
Proof.
  pose proof (registered_buffer_only ks) as Hbo.
  intros Hs. destruct ev as [exc|d dt| | | |r|tid|tid]; simpl.
  - exact (registered_connection_lost ks exc _ Hs).
  - exact (registered_data_received ks d dt _ Hs).
  - exact (buffer_only_eof_received _ Hbo _ Hs).
  - exact (buffer_only_pause_writing _ Hbo _ Hs).
  - exact (buffer_only_resume_writing _ Hbo _ Hs).
  - pose proof (registered_start ks r _ Hs) as Hr.
    by destruct (start sep r (sess sys)).
  - destruct (tasks sys !! tid) as [[r [fr|?]]|]; [|done..].
    destruct (futures (sess sys) !! waiter_of fr) as [[]|]; [done| |  |done].
    + pose proof (registered_resume ks fr _ Hs) as Hr.
      by destruct (resume sep fr (sess sys)).
    + pose proof (registered_resume ks fr _ Hs) as Hr.
      by destruct (resume sep fr (sess sys)).
  - destruct (tasks sys !! tid) as [[r [fr|?]]|]; [|done..].
    destruct (futures (sess sys) !! waiter_of fr) as [[]|]; done.
Qed.

Lemma registered_run ks (sys : system U) tr :
  registered ks (sess sys) → registered ks (sess (run sep sys tr)).
Proof.
  revert sys. induction tr as [|ev tr IH]; intros sys Hs; [done|].
  simpl. apply IH. by apply registered_step.
Qed.

Lemma registered_connection_made recv_window read_datatypes :
  registered (U:=U) (None :: read_datatypes)
    (connection_made recv_window read_datatypes).
Proof.
  intros dt. split.
  - simpl. induction read_datatypes as [|k dts IH] using rev_ind.
    + simpl. rewrite lookup_singleton_is_Some. intros <-. by left.
    + rewrite foldl_app. simpl. rewrite lookup_insert_is_Some'.
      rewrite app_comm_cons, elem_of_app. intros [<-|?].
      * right. by apply list_elem_of_singleton.
      * left. by apply IH.
  - intros Hin.
    destruct (connection_made_registered recv_window read_datatypes dt Hin)
      as [Hq _].
    by eexists.
Qed.

(** What the reachable sessions have in common. *)
Lemma reachable (recv_window : Z) read_datatypes (tr : list (event U)) :
  wf (sess (run sep (boot recv_window read_datatypes) tr))
  ∧ registered (None :: read_datatypes)
      (sess (run sep (boot recv_window read_datatypes) tr)).
Proof.
  split.
  - apply wf_run, wf_connection_made.
  - apply registered_run, registered_connection_made.
Qed.

Lemma reached_wf (recv_window : Z) read_datatypes (tr : list (event U)) :
  wf (reached sep recv_window read_datatypes tr)
  ∧ registered (None :: read_datatypes)
      (reached sep recv_window read_datatypes tr).
Proof. apply reachable. Qed.

Lemma data_received_missing (d : list U) dt s :
  _recv_buf s !! dt = None → data_received d dt s = (Raise (KeyError dt), s).
Proof. intros Hq. unfold data_received. by mrun. Qed.

(** A pass on a datatype that has a queue in a well-formed session does not
    raise [KeyError]. *)
Lemma read_pass_no_key_error s n dt exact data k :
  wf s → is_Some (_recv_buf s !! dt) →
  (read_pass n dt exact data s).1 ≠ Raise (KeyError k).
Proof.
  intros Hwf [q Hq]. rewrite (read_pass_eq _ _ _ _ _ _ Hq).
  destruct (read_loop q n data (_recv_buf_len s))
    as [[[[ex q'] n'] data'] l'] eqn:Hloop.
  destruct ex as [e|].
  - apply read_loop_raise in Hloop as (code & -> & _). done.
  - cbv zeta. destruct (_ || _ || _); [by destruct (_ && _)|].
    unfold park_or_fail.
    rewrite (proj1 (proj2 (proj2 (resumed_fields _)))). simpl.
    destruct (proj1 (wf_keys _ Hwf dt)) as [slot ->]; [by eexists|].
    by destruct slot.
Qed.

Lemma readline_pass_no_key_error s dt data k :
  wf s → is_Some (_recv_buf s !! dt) →
  (readline_pass sep dt data s).1 ≠ Raise (KeyError k).
Proof.
  intros Hwf [q Hq]. rewrite (readline_pass_eq _ _ _ _ Hq).
  destruct (readline_loop sep q data (_recv_buf_len s))
    as [[[ex q'] data'] l'] eqn:Hloop.
  destruct ex as [| |e|]; cbv zeta; try done.
  - assert (∃ code, e = ChannelError code) as [code ->]; [|done].
    clear -Hloop. revert data l' Hloop. generalize (_recv_buf_len s).
    induction q as [|[c|code] q IH]; intros l data l' Hloop; simpl in Hloop.
    + simplify_eq.
    + case_bool_decide; [simplify_eq|]. by eapply IH.
    + destruct data; simplify_eq/=. by eexists.
  - destruct (_eof_received s); [done|]. unfold park_or_fail.
    rewrite (proj1 (proj2 (proj2 (resumed_fields _)))). simpl.
    destruct (proj1 (wf_keys _ Hwf dt)) as [slot ->]; [by eexists|].
    by destruct slot.
Qed.

(** ** Calls made on the channel *)

Lemma resumed_check s :
  chan_calls (resumed s) = chan_calls s ++ resume_check (resumed s)
  ∧ _limit (resumed s) = _limit s.
Proof.
  unfold resume_check.
  destruct (resumed_fields s) as (_ & -> & _ & _ & _ & _ & ->).
  split; [apply resumed_calls|done].
Qed.

Lemma park_or_fail_check dt (fr : future → frame U) s :
  chan_calls (park_or_fail dt fr s).2 = chan_calls s
  ∧ resume_check (park_or_fail dt fr s).2 = resume_check s
  ∧ _limit (park_or_fail dt fr s).2 = _limit s.
Proof.
  unfold park_or_fail. by destruct (_read_waiter s !! dt) as [[w|]|].
Qed.

(** Every pass of [read] that gets past its inner loop makes the watermark
    check; the pass that raises a queued exception object does not. *)
Lemma read_pass_calls s n dt exact data q :
  _recv_buf s !! dt = Some q →
  _limit (read_pass n dt exact data s).2 = _limit s
  ∧ chan_calls (read_pass n dt exact data s).2
    = chan_calls s
      ++ match (read_pass n dt exact data s).1 with
         | Raise (ChannelError _) => []
         | _ => resume_check (read_pass n dt exact data s).2
         end.
Proof.
  intros Hq. rewrite (read_pass_eq _ _ _ _ _ _ Hq).
  destruct (read_loop q n data (_recv_buf_len s))
    as [[[[ex q'] n'] data'] l'] eqn:Hloop.
  destruct ex as [e|].
  - apply read_loop_raise in Hloop as (code & -> & _). simpl.
    by rewrite app_nil_r.
  - cbv zeta.
    destruct (resumed_check (drained dt q' l' s)) as [Hc Hl].
    destruct (_ || _ || _).
    + by destruct (_ && _).
    + destruct (park_or_fail_check dt (ReadFrame n' dt exact data')
                  (resumed (drained dt q' l' s))) as (Hc' & Hr' & Hl').
      rewrite Hc', Hr', Hl'. split; [done|].
      destruct (park_or_fail_cases dt (ReadFrame n' dt exact data')
                  (resumed (drained dt q' l' s)))
        as [[s' ->]|(e & -> & [-> | ->])]; done.
Qed.

Lemma readline_loop_exit q data l ex q' data' l' :
  readline_loop sep q data l = (ex, q', data', l') →
  match ex with
  | LineFound => ∃ c rest, q' = Data c :: rest
  | LineDeferred => ∃ code rest, q' = Exc code :: rest
  | LineRaise e => ∃ code, e = ChannelError code
  | LineExhausted => q' = []
  end.
Proof.
  revert data l. induction q as [|[c|code] q IH]; intros data l Hloop;
    simpl in Hloop.
  - by simplify_eq.
  - case_bool_decide; [simplify_eq; by eauto|]. by eapply IH.
  - destruct data; simplify_eq/=; by eauto.
Qed.

(** [readline] makes the check when it finds the separator or runs out of
    queue, and not when it stops at an exception object, whether it raises
    it or returns the data collected before it. *)
Lemma readline_pass_calls s dt data q :
  _recv_buf s !! dt = Some q →
  _limit (readline_pass sep dt data s).2 = _limit s
  ∧ chan_calls (readline_pass sep dt data s).2
    = chan_calls s
      ++ match (readline_pass sep dt data s).1 with
         | Raise (ChannelError _) => []
         | Ret (Return _) =>
             if error_at_head dt (readline_pass sep dt data s).2 then []
             else resume_check (readline_pass sep dt data s).2
         | _ => resume_check (readline_pass sep dt data s).2
         end.
Proof.
  intros Hq. rewrite (readline_pass_eq _ _ _ _ Hq).
  destruct (readline_loop sep q data (_recv_buf_len s))
    as [[[ex q'] data'] l'] eqn:Hloop.
  apply readline_loop_exit in Hloop.
  destruct (resumed_check (drained dt q' l' s)) as [Hc Hl].
  assert (Hhead : ∀ s', _recv_buf s' = _recv_buf (drained dt q' l' s) →
            error_at_head dt s' = match q' with Exc _ :: _ => true | _ => false end).
  { intros s' Hs'. unfold error_at_head. rewrite Hs'. unfold drained. simpl.
    by rewrite lookup_insert_eq. }
  destruct ex as [| |e|]; cbv zeta; cbn [fst snd].
  - destruct Hloop as (c & rest & ->).
    rewrite (Hhead _ (proj1 (resumed_fields _))). done.
  - destruct Hloop as (code & rest & ->).
    rewrite (Hhead _ eq_refl). simpl. by rewrite app_nil_r.
  - destruct Hloop as (code & ->). simpl. by rewrite app_nil_r.
  - subst q'. destruct (_eof_received s); cbn [fst snd].
    + rewrite (Hhead _ (proj1 (resumed_fields _))). done.
    + destruct (park_or_fail_check dt (ReadlineFrame dt data')
                  (resumed (drained dt [] l' s))) as (Hc' & Hr' & Hl').
      rewrite Hc', Hr', Hl'. split; [done|].
      destruct (park_or_fail_cases dt (ReadlineFrame dt data')
                  (resumed (drained dt [] l' s)))
        as [[s' ->]|(e & -> & [-> | ->])]; done.
Qed.

(** Nothing else calls the channel. *)
Section CallsOnly.

Context (c : list chan_call).

Lemma calls_only_modify (f : session U → session U) :
  (∀ s, chan_calls (f s) = chan_calls s) →
  preserves (λ s, chan_calls s = c) (modify f).
Proof. intros Hf. apply preserves_modify. intros s. by rewrite Hf. Qed.

Lemma calls_only_set_result w :
  preserves (U:=U) (λ s, chan_calls s = c) (set_result w).
Proof.
  intros s Hs. unfold set_result. by destruct (futures s !! w) as [[]|].
Qed.

Lemma calls_only_unblock_read dt :
  preserves (U:=U) (λ s, chan_calls s = c) (_unblock_read dt).
Proof.
  unfold _unblock_read. pres_step; [pres_step|].
  destruct a; repeat pres_step.
  - apply calls_only_set_result.
  - by apply calls_only_modify.
Qed.

Lemma calls_only_unblock_drain :
  preserves (U:=U) (λ s, chan_calls s = c) _unblock_drain.
Proof.
  unfold _unblock_drain. repeat pres_step.
  - intros w. repeat pres_step. apply calls_only_set_result.
  - by apply calls_only_modify.
Qed.

Lemma calls_only_eof_received :
  preserves (U:=U) (λ s, chan_calls s = c) eof_received.
Proof.
  unfold eof_received. repeat pres_step.
  - by apply calls_only_modify.
  - intros dt. apply calls_only_unblock_read.
Qed.

Lemma calls_only_connection_lost exc :
  preserves (U:=U) (λ s, chan_calls s = c) (connection_lost exc).
Proof.
  unfold connection_lost. repeat pres_step.
  - by apply calls_only_modify.
  - by apply calls_only_modify.
  - destruct exc as [e|]; repeat pres_step.
    intros dt. repeat pres_step. by apply calls_only_modify.
  - apply calls_only_eof_received.
  - apply calls_only_unblock_drain.
Qed.

Lemma calls_only_resume_writing :
  preserves (U:=U) (λ s, chan_calls s = c) resume_writing.
Proof.
  unfold resume_writing. repeat pres_step.
  - by apply calls_only_modify.
  - apply calls_only_unblock_drain.
Qed.

Lemma calls_only_drain : preserves (U:=U) (λ s, chan_calls s = c) drain.
Proof.
  unfold drain. repeat pres_step.
  - intros s Hs. unfold Future. done.
  - by apply calls_only_modify.
  - apply preserves_drain_finish.
Qed.

End CallsOnly.

(** ** Properties of the flags *)

Section FlagsOnly.

Context (P : session U → Prop) (HP : flags_only P).

Lemma flags_only_modify (f : session U → session U) :
  (∀ s, _limit (f s) = _limit s ∧ _exception (f s) = _exception s
        ∧ _eof_received (f s) = _eof_received s
        ∧ _connection_lost (f s) = _connection_lost s
        ∧ _write_paused (f s) = _write_paused s
        ∧ _drain_waiters (f s) = _drain_waiters s) →
  preserves P (modify f).
Proof.
  intros Hf. apply preserves_modify. intros s.
  destruct (Hf s) as (? & ? & ? & ? & ? & ?). by apply HP.
Qed.

Lemma flags_only_chan c : preserves P (chan c).
Proof. by apply flags_only_modify. Qed.

Lemma flags_only_Future : preserves P Future.
Proof. intros s. by apply HP. Qed.

Lemma flags_only_set_result w : preserves P (set_result w).
Proof.
  intros s Hs. unfold set_result.
  destruct (futures s !! w) as [[]|]; simpl; [|done..]. revert Hs. by apply HP.
Qed.

Lemma flags_only_block_read dt : preserves P (_block_read dt).
Proof.
  unfold _block_read. pres_step; [pres_step|].
  destruct a; repeat pres_step.
  - apply flags_only_Future.
  - by apply flags_only_modify.
Qed.

Lemma flags_only_unblock_read dt : preserves P (_unblock_read dt).
Proof.
  unfold _unblock_read. pres_step; [pres_step|].
  destruct a; repeat pres_step.
  - apply flags_only_set_result.
  - by apply flags_only_modify.
Qed.

Lemma flags_only_maybe_resume_reading : preserves P maybe_resume_reading.
Proof. unfold maybe_resume_reading. repeat pres_step. apply flags_only_chan. Qed.

Lemma flags_only_data_received (d : list U) dt :
  preserves P (data_received d dt).
Proof.
  unfold data_received. repeat pres_step.
  - by apply flags_only_modify.
  - by apply flags_only_modify.
  - apply flags_only_unblock_read.
  - apply flags_only_chan.
Qed.

Lemma flags_only_read_pass n dt exact data :
  preserves P (read_pass n dt exact data).
Proof.
  unfold read_pass. repeat pres_step.
  destruct (read_loop a n data a0) as [[[[ex q'] n'] data'] l'].
  repeat pres_step; [by apply flags_only_modify|].
  destruct ex; repeat pres_step.
  - apply flags_only_maybe_resume_reading.
  - apply flags_only_block_read.
Qed.

Lemma flags_only_readline_pass dt data :
  preserves P (readline_pass sep dt data).
Proof.
  unfold readline_pass. repeat pres_step.
  destruct (readline_loop sep a data a0) as [[[ex q'] data'] l'].
  repeat pres_step; [by apply flags_only_modify|].
  destruct ex; repeat pres_step;
    first [apply flags_only_maybe_resume_reading|apply flags_only_block_read].
Qed.

End FlagsOnly.

(** ** The EOF flag *)

Lemma eof_flags_only (b : bool) :
  flags_only (U:=U) (λ s, _eof_received s = b).
Proof. intros s s' _ _ He _ _ _ Hs. congruence. Qed.

Lemma eof_buffer_only : buffer_only (U:=U) (λ s, _eof_received s = true).
Proof. intros s s' _ _ He Hs. by apply He. Qed.

(** A pass leaves the flag as it is. *)
Lemma start_eof r s : _eof_received (start sep r s).2 = _eof_received s.
Proof.
  destruct r as [n dt exact|dt|]; simpl; rewrite as_value_state.
  - by apply (flags_only_read_pass _ (eof_flags_only (_eof_received s))).
  - by apply (flags_only_readline_pass _ (eof_flags_only (_eof_received s))).
  - rewrite drain_eq. destruct (_ && _); [done|]. by rewrite drain_finish_eq.
Qed.

Lemma resume_eof fr s : _eof_received (resume sep fr s).2 = _eof_received s.
Proof.
  unfold resume. munfold. simpl.
  destruct (futures s !! waiter_of fr) as [[]|]; try done;
    destruct fr as [n dt exact data w|dt data w|w];
    rewrite as_value_state;
    first [ by apply (flags_only_read_pass _ (eof_flags_only (_eof_received s)))
          | by apply (flags_only_readline_pass _
                        (eof_flags_only (_eof_received s)))
          | by rewrite drain_finish_eq ].
Qed.

(** Once flagged, EOF stays flagged. *)
Lemma eof_stays_step (sys : system U) ev :
  _eof_received (sess sys) = true →
  _eof_received (sess (step sep sys ev)) = true.
Proof.
  pose proof eof_buffer_only as Hbo.
  intros Hs. destruct ev as [exc|d dt| | | |r|tid|tid]; simpl.
  - revert Hs. generalize (sess sys). change (preserves (U:=U)
      (λ s, _eof_received s = true) (connection_lost exc)).
    unfold connection_lost. repeat pres_step.
    + by apply buffer_only_modify.
    + by apply buffer_only_modify.
    + destruct exc as [e|]; repeat pres_step.
      intros x. repeat pres_step.
      by apply (flags_only_modify _ (eof_flags_only true)).
    + by apply buffer_only_eof_received.
    + by apply buffer_only_unblock_drain.
  - by apply (flags_only_data_received _ (eof_flags_only true)).
  - exact (buffer_only_eof_received _ Hbo _ Hs).
  - exact (buffer_only_pause_writing _ Hbo _ Hs).
  - exact (buffer_only_resume_writing _ Hbo _ Hs).
  - pose proof (start_eof r (sess sys)) as Hr.
    destruct (start sep r (sess sys)). simpl in *. congruence.
  - destruct (tasks sys !! tid) as [[r [fr|?]]|]; [|done..].
    pose proof (resume_eof fr (sess sys)) as Hr.
    destruct (futures (sess sys) !! waiter_of fr) as [[]|]; [done| |  |done];
      destruct (resume sep fr (sess sys)); simpl in *; congruence.
  - destruct (tasks sys !! tid) as [[r [fr|?]]|]; [|done..].
    destruct (futures (sess sys) !! waiter_of fr) as [[]|]; done.
Qed.

(** ** Invariants of the tasks *)

Section TaskInvariant.

Context (C : bool → task U → Prop).
Context (C_mono : ∀ t, C false t → C true t).
Context (C_start : ∀ r s, C (_eof_received s) (mk_task r (settle (start sep r s).1))).
Context (C_resume : ∀ r fr s,
  C (_eof_received s) (mk_task r (Parked fr)) →
  C (_eof_received s) (mk_task r (settle (resume sep fr s).1))).
Context (C_cancel : ∀ r fr eof,
  C eof (mk_task r (Parked fr)) →
  C eof (mk_task r (Finished (Raise CancelledError)))).

Lemma task_inv_mono (b b' : bool) (ts : list (task U)) :
  (b = true → b' = true) → Forall (C b) ts → Forall (C b') ts.
Proof.
  intros Hb Hts. eapply Forall_impl; [done|]. intros t.
  destruct b, b'; try done; [by discriminate Hb|apply C_mono].
Qed.

Lemma task_inv_step (sys : system U) ev :
  Forall (C (_eof_received (sess sys))) (tasks sys) →
  Forall (C (_eof_received (sess (step sep sys ev)))) (tasks (step sep sys ev)).
Proof.
  intros Hts. pose proof (eof_stays_step sys ev) as Heof.
  destruct ev as [exc|d dt| | | |r|tid|tid];
    try (revert Hts; by apply task_inv_mono).
  - simpl in *. pose proof (C_start r (sess sys)) as Hr.
    pose proof (start_eof r (sess sys)) as He.
    destruct (start sep r (sess sys)) as [res s']. simpl in *. rewrite He.
    apply Forall_app. split; [done|]. by apply Forall_singleton.
  - simpl in *. destruct (tasks sys !! tid) as [[r [fr|?]]|] eqn:Htid; [|done..].
    pose proof (C_resume r fr (sess sys)
      (Forall_lookup_1 _ _ _ _ Hts Htid)) as Hr.
    pose proof (resume_eof fr (sess sys)) as He.
    destruct (futures (sess sys) !! waiter_of fr) as [[]|]; [done| | |done];
      destruct (resume sep fr (sess sys)) as [res s']; simpl in *;
      rewrite He; by apply Forall_insert.
  - simpl in *. destruct (tasks sys !! tid) as [[r [fr|?]]|] eqn:Htid; [|done..].
    pose proof (C_cancel r fr _ (Forall_lookup_1 _ _ _ _ Hts Htid)) as Hr.
    destruct (futures (sess sys) !! waiter_of fr) as [[]|]; simpl; try done;
      by apply Forall_insert.
Qed.

Lemma task_inv_run (sys : system U) tr :
  Forall (C (_eof_received (sess sys))) (tasks sys) →
  Forall (C (_eof_received (sess (run sep sys tr)))) (tasks (run sep sys tr)).
Proof.
  revert sys. induction tr as [|ev tr IH]; intros sys Hs; [done|].
  simpl. apply IH. by apply task_inv_step.
Qed.

Lemma task_inv_reached recv_window read_datatypes tr :
  Forall (C (_eof_received (reached sep recv_window read_datatypes tr)))
    (tasks (run sep (boot recv_window read_datatypes) tr)).
Proof. apply task_inv_run. apply Forall_nil_2. Qed.

End TaskInvariant.

(** ** What a call ends with *)

Lemma call_contract_mono (t : task U) :
  call_contract false t → call_contract true t.
Proof.
  unfold call_contract. destruct t as [r [fr|[v|e]]]; simpl; [done| |].
  - destruct r as [n0 dt exact|dt|]; [|done..].
    intros (buf & -> & Hlen & _). by exists buf.
  - destruct e; simpl; try done. destruct r; [|done..]. by intros (_ & _ & ?).
Qed.

Lemma read_pass_contract s n0 n dt exact data :
  (0 < n0 → 0 < n ∧ n + len (join data) = n0) →
  (n0 < 0 → n < 0) → (n0 = 0 → n = 0 ∧ join data = []) →
  call_contract (_eof_received s)
    (mk_task (Read n0 dt exact)
       (settle (as_value Some (read_pass n dt exact data) s).1)).
Proof.
  intros Hpos Hneg Hzero. rewrite as_value_eq.
  destruct (_recv_buf s !! dt) as [q|] eqn:Hq;
    [|by rewrite read_pass_missing].
  rewrite (read_pass_eq _ _ _ _ _ _ Hq).
  destruct (read_loop q n data (_recv_buf_len s))
    as [[[[ex q'] n'] data'] l'] eqn:Hloop.
  pose proof (read_loop_count _ _ _ _ _ _ _ _ _ Hloop) as (Hsum & Hge & Hlt).
  pose proof (len_nonneg (join data')) as Hlen.
  assert (Hz : n0 = 0 → n' = 0 ∧ len (join data') = 0).
  { intros H0. destruct (Hzero H0) as [-> Hd]. rewrite Hd in Hsum.
    change (len []) with 0 in Hsum. lia. }
  destruct ex as [e|].
  - apply read_loop_raise in Hloop as (code & -> & _). done.
  - cbv zeta.
    destruct (bool_decide (n' = 0)
              || bool_decide (0 < n') && nonempty data' && negb exact
              || _eof_received s) eqn:Hcond.
    + destruct (bool_decide (0 < n') && exact) eqn:Hinc;
        unfold call_contract; simpl.
      * apply andb_prop in Hinc as [Hn'%bool_decide_eq_true ->].
        rewrite andb_false_r, orb_false_r in Hcond.
        rewrite bool_decide_false in Hcond by lia. simpl in Hcond.
        split_and!; [done| |done]. lia.
      * eexists. split_and!; [done|lia|]. intros Hn0.
        specialize (Hlt (Hneg Hn0)).
        rewrite !bool_decide_false in Hcond by lia. done.
    + apply orb_false_elim in Hcond as [Hcond _].
      apply orb_false_elim in Hcond as [Hn'%bool_decide_eq_false _].
      destruct (park_or_fail_cases dt (ReadFrame n' dt exact data')
                  (resumed (drained dt q' l' s)))
        as [[s' ->]|(e & -> & [-> | ->])];
        unfold call_contract; simpl; [|done..].
      eexists _, _, _. split_and!; [done|lia|lia|lia].
Qed.

Lemma readline_pass_contract s dt data :
  call_contract (_eof_received s)
    (mk_task (Readline dt)
       (settle (as_value Some (readline_pass sep dt data) s).1)).
Proof.
  rewrite as_value_eq.
  destruct (_recv_buf s !! dt) as [q|] eqn:Hq;
    [|by rewrite readline_pass_missing].
  rewrite (readline_pass_eq _ _ _ _ Hq).
  destruct (readline_loop sep q data (_recv_buf_len s))
    as [[[ex q'] data'] l'] eqn:Hloop.
  apply readline_loop_exit in Hloop.
  destruct ex as [| |e|]; cbv zeta; unfold call_contract; simpl;
    [by eexists|by eexists|by destruct Hloop as [code ->]|].
  destruct (_eof_received s); simpl; [by eexists|].
  destruct (park_or_fail_cases dt (ReadlineFrame dt data')
              (resumed (drained dt q' l' s)))
    as [[s' ->]|(e & -> & [-> | ->])]; simpl; [|done..].
  by eexists _, _.
Qed.

Lemma drain_finish_contract s :
  call_contract (_eof_received s)
    (mk_task Drain (settle (as_value (λ _, None) drain_finish s).1)).
Proof.
  rewrite as_value_eq, drain_finish_eq. unfold call_contract.
  by destruct (_connection_lost s), (_exception s), (_write_paused s).
Qed.

Lemma call_contract_start r s :
  call_contract (_eof_received s) (mk_task r (settle (start sep r s).1)).
Proof.
  destruct r as [n0 dt exact|dt|]; simpl.
  - apply read_pass_contract; [|done|done].
    intros Hn. split; [done|]. change (len (join [])) with 0. lia.
  - apply readline_pass_contract.
  - pose proof (drain_finish_contract s) as Hf.
    rewrite as_value_eq in *. rewrite drain_eq.
    destruct (_ && _); [|done]. unfold call_contract. simpl. by eexists.
Qed.

Lemma call_contract_resume r fr s :
  call_contract (_eof_received s) (mk_task r (Parked fr)) →
  call_contract (_eof_received s) (mk_task r (settle (resume sep fr s).1)).
Proof.
  intros Hfr.
  assert (Hres : resume sep fr s
    = match futures s !! waiter_of fr with
      | Some Cancelled => (Raise CancelledError, s)
      | _ =>
          match fr with
          | ReadFrame n dt' exact data _ =>
              as_value Some (read_pass n dt' exact data) s
          | ReadlineFrame dt' data _ =>
              as_value Some (readline_pass sep dt' data) s
          | DrainFrame _ => as_value (λ _, None) drain_finish s
          end
      end).
  { unfold resume. munfold. simpl.
    by destruct (futures s !! waiter_of fr) as [[]|], fr. }
  rewrite Hres. clear Hres.
  assert (Hc : call_contract (U:=U) (_eof_received s)
                 (mk_task r (Finished (Raise CancelledError)))).
  { unfold call_contract. by destruct r. }
  unfold call_contract in Hfr. simpl in Hfr.
  destruct r as [n0 dt exact|dt|].
  - destruct Hfr as (n & data & w & -> & Hpos & Hneg & Hnz).
    destruct (futures s !! _) as [[]|]; try done;
      by apply read_pass_contract.
  - destruct Hfr as (data & w & ->).
    destruct (futures s !! _) as [[]|]; try done;
      by apply readline_pass_contract.
  - destruct Hfr as (w & ->).
    destruct (futures s !! _) as [[]|]; try done;
      by apply drain_finish_contract.
Qed.

Lemma call_contract_cancel r (fr : frame U) eof :
  call_contract eof (mk_task r (Parked fr)) →
  call_contract (U:=U) eof (mk_task r (Finished (Raise CancelledError))).
Proof. intros _. unfold call_contract. by destruct r. Qed.

(** ** [readline] returns one line *)

Lemma find_none (c : list U) : find sep c < 0 → sep ∉ c.
Proof.
  induction c as [|x c IH]; simpl; [intros _; apply not_elem_of_nil|].
  destruct (decide (x = sep)); [lia|]. case_bool_decide; [|lia].
  intros _. apply not_elem_of_cons. split; [done|]. by apply IH.
Qed.

Lemma readline_loop_line q data l ex q' data' l' :
  readline_loop sep q data l = (ex, q', data', l') → sep ∉ join data →
  match ex with
  | LineFound => ∃ a, join data' = a ++ [sep] ∧ sep ∉ a
  | _ => sep ∉ join data'
  end.
Proof.
  revert data l. induction q as [|[c|code] q IH]; intros data l Hloop Hdata.
  - simpl in Hloop. by simplify_eq.
  - destruct (decide (0 ≤ find sep c)) as [Hc|Hc].
    + apply find_present in Hc as (a & b & -> & Ha).
      rewrite readline_loop_found in Hloop by done. simplify_eq.
      exists (join data ++ a). rewrite join_snoc, app_assoc. split; [done|].
      rewrite elem_of_app. tauto.
    + simpl in Hloop. rewrite bool_decide_false in Hloop by lia.
      apply IH in Hloop; [done|]. rewrite join_snoc, elem_of_app.
      intros [?|Hin]; [done|]. revert Hin. apply find_none. lia.
  - simpl in Hloop. destruct data; simplify_eq/=; done.
Qed.

(** A line without its separator is returned only at EOF, or when an
    exception object stopped the scan. *)
Lemma readline_pass_line s dt data :
  sep ∉ join data →
  match (readline_pass sep dt data s).1 with
  | Ret (Return buf) =>
      one_line sep buf
      ∧ (sep ∉ buf →
         _eof_received s = true
         ∨ error_at_head dt (readline_pass sep dt data s).2 = true)
  | Ret (Yield fr) => ∃ data' w, fr = ReadlineFrame dt data' w ∧ sep ∉ join data'
  | Raise _ => True
  end.
Proof.
  intros Hdata.
  destruct (_recv_buf s !! dt) as [q|] eqn:Hq;
    [|by rewrite readline_pass_missing].
  rewrite (readline_pass_eq _ _ _ _ Hq).
  destruct (readline_loop sep q data (_recv_buf_len s))
    as [[[ex q'] data'] l'] eqn:Hloop.
  pose proof (readline_loop_line _ _ _ _ _ _ _ Hloop Hdata) as Hline.
  apply readline_loop_exit in Hloop.
  destruct ex as [| |e|]; cbv zeta; cbn [fst snd].
  - destruct Hline as (a & Ha & Hsep). split; [right; by exists a|].
    intros Hno. destruct Hno. rewrite Ha, elem_of_app. right. by left.
  - split; [by left|]. intros _. right. destruct Hloop as (code & rest & ->).
    unfold error_at_head, drained. simpl. by rewrite lookup_insert_eq.
  - done.
  - destruct (_eof_received s); cbn [fst snd]; [split; [by left|by left]|].
    destruct (park_or_fail_cases dt (ReadlineFrame dt data')
                (resumed (drained dt q' l' s)))
      as [[s' ->]|(e & -> & _)]; [|done].
    by eexists _, _.
Qed.

Lemma line_contract_start r s (eof : bool) :
  line_contract sep eof (mk_task r (settle (start sep r s).1)).
Proof.
  unfold line_contract. destruct r as [n0 dt exact|dt|]; simpl; [done| |done].
  rewrite as_value_eq.
  pose proof (readline_pass_line s dt [] (not_elem_of_nil sep)) as Hl.
  unfold readline.
  destruct (readline_pass sep dt [] s) as [[[buf|fr]|e] s']; simpl in *.
  - exists buf. by destruct Hl.
  - destruct Hl as (data' & w & -> & ?). by eexists _, _, _.
  - done.
Qed.

Lemma line_contract_resume r fr s (eof : bool) :
  line_contract sep eof (mk_task r (Parked fr)) →
  line_contract sep eof (mk_task r (settle (resume sep fr s).1)).
Proof.
  unfold line_contract. destruct r as [n0 dt exact|dt|]; simpl; [done| |done].
  intros (dt' & data & w & -> & Hdata).
  unfold resume. munfold. simpl.
  destruct (futures s !! w) as [[]|]; simpl; [| |done|].
  all: pose proof (readline_pass_line s dt' data Hdata) as Hl.
  all: fold (as_value Some (readline_pass sep dt' data)).
  all: rewrite as_value_eq;
       destruct (readline_pass sep dt' data s) as [[[buf|fr]|e] s'];
       simpl in *;
       [ exists buf; by destruct Hl
       | destruct Hl as (data' & w' & -> & ?); by eexists _, _, _
       | done ].
Qed.

(** ** An exact read, pass after pass *)

(** One pass of an exact read that holds [data] and still wants [n] units,
    on a queue of data chunks.  With [n] units queued it returns what it
    held followed by the first [n] units.  With fewer, it takes them all:
    at EOF it raises [IncompleteReadError] carrying what it held and what it
    took, the expected total being the units held plus [n]; before EOF it
    parks, holding all of them and wanting the rest. *)
Lemma read_pass_exact_data s n dt data (ds : list (list U)) :
  0 < n → _recv_buf s !! dt = Some (Data <$> ds) →
  (n ≤ len (concat ds) →
     (read_pass n dt true data s).1
     = Ret (Return (join data ++ take (Z.to_nat n) (concat ds))))
  ∧ (len (concat ds) < n → _eof_received s = true →
     (read_pass n dt true data s).1
     = Raise (IncompleteReadError (join data ++ concat ds)
                (len (join data) + n)))
  ∧ (len (concat ds) < n → _eof_received s = false →
     read_pass n dt true data s
     = park_or_fail dt (ReadFrame (n - len (concat ds)) dt true (data ++ ds))
         (resumed (drained dt [] (_recv_buf_len s - len (concat ds)) s))).
Proof.
  intros Hn Hq. rewrite (read_pass_eq _ _ _ _ _ _ Hq).
  pose proof (len_nonneg (concat ds)) as Hds.
  split_and!.
  - intros Hle.
    destruct (read_loop (Data <$> ds) n data (_recv_buf_len s))
      as [[[[ex q'] n'] data'] l'] eqn:Hloop.
    pose proof (read_loop_data_only _ _ _ _ _ _ _ _ _ Hloop)
      as (-> & Hexit & _).
    pose proof (read_loop_count _ _ _ _ _ _ _ _ _ Hloop) as (Hsum & Hpos & _).
    pose proof (read_loop_data _ _ _ _ _ _ _ _ _ Hloop) as Hdata.
    rewrite queue_data_only in Hdata.
    assert (n' = 0) as ->.
    { destruct Hexit as [?| ->]; [done|]. simpl in Hdata.
      rewrite app_nil_r in Hdata. rewrite Hdata, len_app in Hsum. lia. }
    cbv zeta. simpl.
    assert (Hlen : len (join data') = len (join data) + n) by lia.
    f_equal. f_equal.
    assert (Hpre : ∃ b, join data' = join data ++ b).
    { assert (Hl : (length (join data) ≤ length (join data'))%nat)
        by (unfold len in Hlen; lia).
      exists (drop (length (join data)) (join data')).
      rewrite <-(take_drop (length (join data)) (join data')) at 1.
      f_equal.
      apply (f_equal (take (length (join data)))) in Hdata.
      rewrite (take_app_le (join data')) in Hdata by exact Hl.
      rewrite (take_app_le (join data)) in Hdata by reflexivity.
      by rewrite (take_ge (join data)) in Hdata by reflexivity. }
    destruct Hpre as [b Hb]. rewrite Hb in *. f_equal.
    rewrite <-app_assoc in Hdata. apply app_inv_head in Hdata.
    rewrite len_app in Hlen. apply (prefix_take _ _ _ _ Hdata). lia.
  - intros Hlt Heof.
    rewrite <-(app_nil_r (Data <$> ds)), read_loop_skip by by right.
    cbn [read_loop]. cbv zeta. rewrite Heof, orb_true_r.
    rewrite (bool_decide_true (0 < n - len (concat ds))) by lia.
    cbn [andb fst]. rewrite join_app. unfold join at 2.
    f_equal. f_equal. rewrite len_app. unfold join. lia.
  - intros Hlt Heof.
    rewrite <-(app_nil_r (Data <$> ds)), read_loop_skip by by right.
    cbn [read_loop]. cbv zeta. rewrite Heof.
    rewrite (bool_decide_false (n - len (concat ds) = 0)) by lia.
    by rewrite andb_false_r.
Qed.

(** What the task of an exact read of [n0] units becomes when a pass is run
    for it with the slot free, [acc] being what it holds followed by what is
    queued. *)
Lemma exact_pass_outcome s n0 n' dt data (qs : list (list U)) :
  0 < n' → n' + len (join data) = n0 →
  _recv_buf s !! dt = Some (Data <$> qs) →
  _read_waiter s !! dt = Some None →
  (n0 ≤ len (join data ++ concat qs) →
     settle (as_value Some (read_pass n' dt true data) s).1
     = Finished (Ret (Some (take (Z.to_nat n0) (join data ++ concat qs)))))
  ∧ (len (join data ++ concat qs) < n0 → _eof_received s = true →
     settle (as_value Some (read_pass n' dt true data) s).1
     = Finished (Raise (IncompleteReadError (join data ++ concat qs) n0)))
  ∧ (len (join data ++ concat qs) < n0 → _eof_received s = false →
     ∃ w,
       settle (as_value Some (read_pass n' dt true data) s).1
       = Parked (ReadFrame (n0 - len (join data ++ concat qs)) dt true
                   (data ++ qs) w)
       ∧ _recv_buf (as_value Some (read_pass n' dt true data) s).2 !! dt
         = Some []
       ∧ _read_waiter (as_value Some (read_pass n' dt true data) s).2 !! dt
         = Some (Some w)
       ∧ futures (as_value Some (read_pass n' dt true data) s).2 !! w
         = Some Pending
       ∧ _eof_received (as_value Some (read_pass n' dt true data) s).2
         = false).
Proof.
  intros Hn' Hsum Hq Hslot. rewrite len_app.
  destruct (read_pass_exact_data s n' dt data qs Hn' Hq) as (Hret & Hinc & Hpark).
  rewrite as_value_eq. split_and!.
  - intros Hle. specialize (Hret ltac:(lia)).
    destruct (read_pass n' dt true data s) as [res s']. simpl in Hret.
    subst res. simpl. do 3 f_equal.
    apply (prefix_take _ (drop (Z.to_nat n') (concat qs))).
    + by rewrite <-app_assoc, take_drop.
    + rewrite len_app. unfold len in *. rewrite length_take. lia.
  - intros Hlt Heof. specialize (Hinc ltac:(lia) Heof).
    destruct (read_pass n' dt true data s) as [res s']. simpl in Hinc.
    subst res. simpl. do 3 f_equal. lia.
  - intros Hlt Heof. specialize (Hpark ltac:(lia) Heof). rewrite Hpark.
    set (s1 := resumed (drained dt [] (_recv_buf_len s - len (concat qs)) s)).
    destruct (resumed_fields
                (drained dt [] (_recv_buf_len s - len (concat qs)) s))
      as (Hb & _ & Hw & Hf & He & _).
    unfold park_or_fail. fold s1 in Hb, Hw, Hf, He.
    rewrite Hw. simpl. rewrite Hslot.
    exists (length (futures s1)). cbn [fst snd settle].
    split_and!.
    + do 2 f_equal. lia.
    + unfold parked. simpl. rewrite Hb. simpl. by rewrite lookup_insert_eq.
    + unfold parked. simpl. by rewrite lookup_insert_eq.
    + unfold parked. simpl. rewrite lookup_app_r by lia.
      by rewrite Nat.sub_diag.
    + unfold parked. simpl. by rewrite He.
Qed.

(** Deliveries are steps of the sequential reader; they leave the tasks and
    the EOF flag alone. *)
Lemma delivery_sequential dt (sys : system U) tr :
  forallb (delivery dt) tr = true → sequential sep dt sys tr = true.
Proof.
  revert sys. induction tr as [|ev tr IH]; intros sys Htr; [done|].
  simpl in *. apply andb_prop in Htr as [Hev Htr].
  rewrite IH by done. rewrite andb_true_r.
  by destruct ev.
Qed.

Lemma delivery_run dt (sys : system U) tr :
  forallb (delivery dt) tr = true →
  tasks (run sep sys tr) = tasks sys
  ∧ _eof_received (sess (run sep sys tr)) = _eof_received (sess sys).
Proof.
  revert sys. induction tr as [|ev tr IH]; intros sys Htr; [done|].
  simpl in *. apply andb_prop in Htr as [Hev Htr].
  destruct (IH (step sep sys ev) Htr) as [-> ->].
  destruct ev as [exc|d dt'| | | |r|tid|tid]; try done. simpl. split; [done|].
  by apply (flags_only_data_received _
              (eof_flags_only (_eof_received (sess sys)))).
Qed.

(** The call is made: it returns at once or parks. *)
Lemma exact_run_start dt n (sys : system U) (cs : list (list U)) :
  0 < n → wf (sess sys) → _eof_received (sess sys) = false →
  tasks sys = [] →
  _recv_buf (sess sys) !! dt = Some (Data <$> cs) →
  _read_waiter (sess sys) !! dt = Some None →
  exact_run_inv dt n (concat cs) (step sep sys (Call (Read n dt true))).
Proof.
  intros Hn Hwf Heof Hts Hq Hslot.
  pose proof (wf_step sys (Call (Read n dt true)) Hwf) as Hwf'.
  pose proof (start_eof (Read n dt true) (sess sys)) as Heof'.
  destruct (exact_pass_outcome (sess sys) n n dt [] cs Hn
              ltac:(change (len (join [])) with 0; lia) Hq Hslot)
    as (Hret & _ & Hpark).
  change (join [] ++ concat cs) with (concat cs) in *.
  unfold step in *. cbn [start] in *. unfold read in *.
  destruct (as_value Some (read_pass n dt true []) (sess sys))
    as [res s'] eqn:Hrun.
  cbn [fst snd sess tasks] in *. rewrite Hts. cbn [app].
  unfold exact_run_inv. cbn [sess tasks].
  split_and!; [done|congruence|].
  destruct (decide (n ≤ len (concat cs))) as [Hle|Hlt].
  - left. by rewrite (Hret Hle).
  - right. destruct (Hpark ltac:(lia) Heof) as (w & -> & Hq' & Hw & Hp & _).
    exists (n - len (concat cs)), ([] ++ cs), w, [].
    split_and!; try done; [lia| | |by left].
    + unfold join. simpl. lia.
    + unfold join. simpl. by rewrite app_nil_r.
Qed.

(** Data arrives or a task is resumed: the invariant is kept. *)
Lemma exact_run_step dt n acc (sys : system U) ev :
  0 < n → exact_run_inv dt n acc sys → feeds dt ev = true →
  exact_run_inv dt n (acc ++ delivered dt [ev]) (step sep sys ev).
Proof.
  intros Hn (Hwf & Heof & Hcase) Hev.
  pose proof (wf_step sys ev Hwf) as Hwf'.
  destruct ev as [exc|d dt'| | | |r|tid|tid]; try done.
  - (* data_received *)
    apply bool_decide_eq_true in Hev as ->. cbn [delivered].
    rewrite decide_True, app_nil_r by done.
    assert (Heof' : _eof_received (sess (step sep sys (DataReceived d dt)))
                    = false).
    { by apply (flags_only_data_received _ (eof_flags_only false)). }
    split_and!; [done|done|].
    destruct Hcase as [[Hts Hle]|(n' & data & w & qs & Hts & Hn' & Hsum & Hacc
                                  & Hq & Hst)].
    + left. cbn [step callback tasks]. rewrite Hts.
      rewrite take_app_le by (unfold len in Hle; lia).
      split; [done|]. rewrite len_app. pose proof (len_nonneg d). lia.
    + right.
      destruct (data_received_state d dt (sess sys) _ Hwf Hq)
        as (_ & Hb & Hw).
      exists n', data, w, (qs ++ [d]). cbn [step callback sess tasks].
      split_and!; try done.
      * rewrite <-Hacc, concat_app. simpl. by rewrite app_nil_r, app_assoc.
      * rewrite Hb, lookup_insert_eq. by rewrite fmap_app.
      * right. split; [by rewrite Hw, lookup_insert_eq|].
        destruct Hst as [(Hslot & Hp & _)|[Hslot Hd]].
        -- by apply data_received_wakes.
        -- by apply (futures_only_data_received _ (done_closed w) d dt).
  - (* a resumption *)
    cbn [delivered]. rewrite app_nil_r.
    destruct Hcase as [[Hts Hle]|(n' & data & w & qs & Hts & Hn' & Hsum & Hacc
                                  & Hq & Hst)].
    + (* the call has returned *)
      assert (step sep sys (Wake tid) = sys) as ->; [|by split_and!; [..|left]].
      unfold step. rewrite Hts. by destruct tid as [|[|tid]].
    + destruct tid as [|tid]; last first.
      { assert (step sep sys (Wake (S tid)) = sys) as ->.
        { unfold step. rewrite Hts. by destruct tid. }
        split_and!; [done..|]. right. by exists n', data, w, qs. }
      destruct Hst as [(Hslot & Hp & ->)|[Hslot Hd]].
      { assert (step sep sys (Wake 0) = sys) as ->.
        { unfold step. rewrite Hts. simpl. by rewrite Hp. }
        split_and!; [done..|]. right. exists n', data, w, [].
        split_and!; try done. by left. }
      (* woken: the pass is run *)
      destruct (exact_pass_outcome (sess sys) n n' dt data qs Hn' Hsum Hq Hslot)
        as (Hret & _ & Hpark).
      rewrite Hacc in Hret, Hpark.
      assert (Hres : resume sep (ReadFrame n' dt true data w) (sess sys)
                     = as_value Some (read_pass n' dt true data) (sess sys)).
      { unfold resume. munfold. simpl. by rewrite Hd. }
      pose proof (resume_eof (ReadFrame n' dt true data w) (sess sys)) as He.
      unfold step in *. rewrite Hts in *. cbn [lookup list_lookup] in *.
      simpl in Hwf'. simpl. rewrite Hd in *. rewrite Hres in *.
      destruct (as_value Some (read_pass n' dt true data) (sess sys))
        as [res s'] eqn:Hrun.
      cbn [fst snd sess tasks] in *.
      unfold exact_run_inv. cbn [sess tasks].
      split_and!; [done|congruence|].
      destruct (decide (n ≤ len acc)) as [Hle|Hlt].
      * left. by rewrite (Hret Hle).
      * right. destruct (Hpark ltac:(lia) Heof) as (w' & -> & Hq' & Hw' & Hp' & _).
        exists (n - len acc), (data ++ qs), w', [].
        split_and!; try done; [lia| | |by left].
        -- rewrite join_app, len_app. unfold join at 2.
           rewrite <-Hacc, len_app. lia.
        -- rewrite join_app. unfold join at 2. simpl. by rewrite app_nil_r.
Qed.

Lemma exact_run_body dt n acc (sys : system U) tr :
  0 < n → exact_run_inv dt n acc sys → forallb (feeds dt) tr = true →
  exact_run_inv dt n (acc ++ delivered dt tr) (run sep sys tr).
Proof.
  intros Hn. revert acc sys.
  induction tr as [|ev tr IH]; intros acc sys Hinv Htr.
  - simpl. by rewrite app_nil_r.
  - simpl in Htr. apply andb_prop in Htr as [Hev Htr].
    rewrite delivered_cons, app_assoc. simpl. apply IH; [|done].
    by apply exact_run_step.
Qed.

(** EOF, and the call is resumed a last time: it has returned the first [n]
    units, or raises the error carrying everything delivered. *)
Lemma exact_run_end dt n acc (sys : system U) :
  0 < n → exact_run_inv dt n acc sys →
  tasks (run sep sys [EofReceived; Wake 0])
  = [mk_task (Read n dt true)
       (Finished (if bool_decide (n ≤ len acc)
                  then Ret (Some (take (Z.to_nat n) acc))
                  else Raise (IncompleteReadError acc n)))].
Proof.
  intros Hn (Hwf & Heof & Hcase).
  destruct Hcase as [[Hts Hle]|(n' & data & w & qs & Hts & Hn' & Hsum & Hacc
                                & Hq & Hst)].
  - rewrite bool_decide_true by done. simpl. by rewrite Hts.
  - destruct (eof_received_state (sess sys) Hwf) as (Hb & Heof' & Hslots).
    destruct (eof_received_wakes (sess sys) Hwf) as (_ & Hwf' & _ & _ & Hwake).
    set (s1 := (eof_received (sess sys)).2) in *.
    assert (Hq1 : _recv_buf s1 !! dt = Some (Data <$> qs)) by by rewrite Hb.
    assert (Hslot1 : _read_waiter s1 !! dt = Some None).
    { apply Hslots. destruct Hst as [(? & _)|[? _]]; by eexists. }
    assert (Hd1 : futures s1 !! w = Some Done).
    { destruct Hst as [(Hslot & Hp & _)|[Hslot Hd]].
      - by apply (Hwake dt).
      - by apply (futures_only_eof_received _ (done_closed w)). }
    destruct (exact_pass_outcome s1 n n' dt data qs Hn' Hsum Hq1 Hslot1)
      as (Hret & Hinc & _).
    rewrite Hacc in Hret, Hinc.
    assert (Hres : resume sep (ReadFrame n' dt true data w) s1
                   = as_value Some (read_pass n' dt true data) s1).
    { unfold resume. munfold. simpl. by rewrite Hd1. }
    unfold run. cbn [foldl].
    assert (step sep sys EofReceived = mk_system s1 (tasks sys)) as -> by done.
    unfold step. cbn [tasks sess]. rewrite Hts.
    simpl. rewrite Hd1, Hres.
    destruct (as_value Some (read_pass n' dt true data) s1) as [res s'].
    cbn [fst snd tasks] in *.
    case_bool_decide as Hle.
    + by rewrite (Hret Hle).
    + by rewrite (Hinc ltac:(lia) Heof').
Qed.

(** The whole run. *)
Lemma exact_run_total recv_window read_datatypes dt n
    (before body : list (event U)) :
  dt ∈ None :: read_datatypes → 0 < n →
  forallb (delivery dt) before = true → forallb (feeds dt) body = true →
  tasks (run sep (boot recv_window read_datatypes)
           (exact_read_run dt n before body))
  = [mk_task (Read n dt true)
       (Finished
          (if bool_decide (n ≤ len (delivered dt (before ++ body)))
           then Ret (Some (take (Z.to_nat n) (delivered dt (before ++ body))))
           else Raise (IncompleteReadError (delivered dt (before ++ body))
                         n)))].
Proof.
  intros Hdt Hn Hbefore Hbody. unfold exact_read_run, run.
  rewrite foldl_app. cbn [foldl]. rewrite foldl_app.
  fold (run sep (boot recv_window read_datatypes) before).
  set (sys1 := run sep (boot recv_window read_datatypes) before).
  pose proof (reader_inv_run dt [] _ before
                (reader_inv_boot recv_window read_datatypes dt Hdt)
                (delivery_sequential dt _ before Hbefore))
    as (Hwf & Hst & Herr & Hacc).
  destruct (delivery_run dt (boot recv_window read_datatypes) before Hbefore)
    as [Hts Heof].
  fold sys1 in Hwf, Hst, Herr, Hacc, Hts, Heof. simpl in Hacc, Hts, Heof.
  destruct (reader_queue dt sys1 Hwf Hst) as (q & Hq & Hqd & Hqe).
  rewrite Hqe in Herr. destruct (exc_count_zero q Herr) as [cs ->].
  rewrite Hts in Hacc. simpl in Hacc. rewrite Hqd, queue_data_only in Hacc.
  assert (Hslot : _read_waiter (sess sys1) !! dt = Some None).
  { destruct Hst as [[_ ?]|(ts & r & fr & Hts' & _)]; [done|].
    rewrite Hts in Hts'. by destruct ts. }
  pose proof (exact_run_start dt n sys1 cs Hn Hwf Heof Hts Hq Hslot) as Hinv.
  pose proof (exact_run_body dt n _ _ body Hn Hinv Hbody) as Hinv'.
  rewrite Hacc in Hinv'.
  assert (Hall : delivered dt before ++ delivered dt body
                 = delivered dt (before ++ body)).
  { clear. induction before as [|ev tr IH]; [done|].
    rewrite <-app_comm_cons, (delivered_cons dt ev (tr ++ body)),
      (delivered_cons dt ev tr), <-IH. by rewrite app_assoc. }
  rewrite Hall in Hinv'.
  exact (exact_run_end dt n _ _ Hn Hinv').
Qed.

End StreamFacts.

(** * The claims *)

(** Closed decidable facts are settled by evaluation. *)
Ltac by_compute :=
  cbv beta; refine (bool_decide_unpack _ _); vm_compute; exact I.

Ltac forall_compute :=
  repeat (apply Forall_cons_2; [by_compute|]); apply Forall_nil_2.

(** C8.  At every observation point between operations -- after any
    interleaving of channel callbacks ([connection_lost], [data_received],
    [eof_received], [pause_writing], [resume_writing]), of [read], [readline]
    and [drain] calls, of resumptions and of cancellations, started from a
    freshly connected session -- [_recv_buf_len] equals the sum of the
    lengths of the data chunks buffered across all datatypes; exception
    objects in the queues count for nothing. *)
Theorem recv_buf_len_counts_buffered_data
    {U : Type} {Ueq : EqDecision U} (sep : U)
    (recv_window : Z) (read_datatypes : list datatype) (tr : list (event U)) :
  _recv_buf_len (sess (run sep (boot recv_window read_datatypes) tr))
  = buffered_len (sess (run sep (boot recv_window read_datatypes) tr)).
Proof.
  apply (len_inv_run sep). apply len_inv_connection_made.
Qed.



(** C2.  For [n > 0], [read(n, datatype, exact=True)] either returns exactly
    [n] units or raises [IncompleteReadError] carrying the partial data, and
    the length of the partial data plus the shortfall equals [n] (the error
    reports that sum as its expected total).  First part: in any
    interleaving, whatever a finished exact read returned or raised obeys
    this; the only other way it ends is by another exception (the queued
    channel error, the usage error, a missing datatype, cancellation).
    Second part: the call does end that way: with [n] units buffered it
    returns the first [n] at once, and at EOF with fewer it raises the error
    carrying all of them.  Third part, every later pass: a pass that holds
    [data] and still wants [n] units returns [data] followed by the first
    [n] units when they are queued; with fewer queued it takes them all and,
    at EOF, raises the error carrying [data] and all of them, the expected
    total being the units held plus [n]; before EOF it parks again, holding
    all of them and wanting the rest.  Fourth part: a parked exact read whose
    future is done runs exactly that pass when resumed.  Fifth part, the
    call from start to end: data is delivered before the call; the call is
    made; data is delivered and tasks are resumed in any order and number;
    EOF arrives and the call is resumed a last time.  Then the call has
    ended: it returned the first [n] units of everything delivered when that
    many were delivered, and raised [IncompleteReadError] carrying
    everything delivered, with expected total [n], otherwise. *)
Theorem exact_read_contract :
  (∀ (U : Type) (Ueq : EqDecision U) (sep : U) recv_window read_datatypes
     (tr : list (event U)) (tid : nat) (n : Z) dt (r : result U (option (list U))),
     tasks (run sep (boot recv_window read_datatypes) tr) !! tid
       = Some (mk_task (Read n dt true) (Finished r)) →
     0 < n →
     match r with
     | Ret v => ∃ buf, v = Some buf ∧ len buf = n
     | Raise (IncompleteReadError partial expected) =>
         ∃ shortfall, 0 < shortfall ∧ expected = len partial + shortfall
           ∧ len partial + shortfall = n
     | Raise _ => True
     end)
  ∧ (∀ (U : Type) (Ueq : EqDecision U) (s : session U) (n : Z) dt
       (ds : list (list U)),
       0 < n → _recv_buf s !! dt = Some (Data <$> ds) →
       (n ≤ len (concat ds) →
          (read n dt true s).1 = Ret (Return (take (Z.to_nat n) (concat ds))))
       ∧ (len (concat ds) < n → _eof_received s = true →
          (read n dt true s).1 = Raise (IncompleteReadError (concat ds) n)))
  ∧ (∀ (U : Type) (Ueq : EqDecision U) (s : session U) (n : Z) dt
       (data ds : list (list U)),
       0 < n → _recv_buf s !! dt = Some (Data <$> ds) →
       (n ≤ len (concat ds) →
          (read_pass n dt true data s).1
          = Ret (Return (join data ++ take (Z.to_nat n) (concat ds))))
       ∧ (len (concat ds) < n → _eof_received s = true →
          (read_pass n dt true data s).1
          = Raise (IncompleteReadError (join data ++ concat ds)
                     (len (join data) + n)))
       ∧ (len (concat ds) < n → _eof_received s = false →
          read_pass n dt true data s
          = park_or_fail dt
              (ReadFrame (n - len (concat ds)) dt true (data ++ ds))
              (resumed (drained dt [] (_recv_buf_len s - len (concat ds))
                          s))))
  ∧ (∀ (U : Type) (Ueq : EqDecision U) (sep : U) (s : session U) (n : Z) dt
       (exact : bool) (data : list (list U)) (w : future),
       futures s !! w = Some Done →
       resume sep (ReadFrame n dt exact data w) s
       = as_value Some (read_pass n dt exact data) s)
  ∧ (∀ (U : Type) (Ueq : EqDecision U) (sep : U) recv_window read_datatypes
       dt (n : Z) (before body : list (event U)),
       dt ∈ None :: read_datatypes → 0 < n →
       forallb (delivery dt) before = true →
       forallb (feeds dt) body = true →
       tasks (run sep (boot recv_window read_datatypes)
                (exact_read_run dt n before body))
       = [mk_task (Read n dt true)
            (Finished
               (if bool_decide (n ≤ len (delivered dt (before ++ body)))
                then Ret (Some (take (Z.to_nat n)
                                  (delivered dt (before ++ body))))
                else Raise (IncompleteReadError
                              (delivered dt (before ++ body)) n)))]).
Proof.
  split_and!.
  - intros U Ueq sep recv_window read_datatypes tr tid n dt r Htid Hn.
    pose proof (task_contract_run sep (boot recv_window read_datatypes) tr
                  (Forall_nil_2 _)) as Hall.
    pose proof (Forall_lookup_1 _ _ _ _ Hall Htid) as Ht.
    specialize (Ht Hn). simpl in Ht.
    destruct r as [v|[]]; try done.
    destruct Ht as [-> Hlt]. exists (n - len partial). lia.
  - intros. by apply read_exact_now.
  - intros. by apply read_pass_exact_data.
  - intros U Ueq sep s n dt exact data w Hw.
    unfold resume. munfold. simpl. by rewrite Hw.
  - intros. by apply exact_run_total.
Qed.

Lemma exact_read_contract_witness :
  (∃ shortfall, 0 < shortfall ∧ 5 = len chunk_AB + shortfall
     ∧ len chunk_AB + shortfall = 5)
  ∧ (read 2 None true tail_session).1
    = Ret (Return (take (Z.to_nat 2) (concat [[]; chunk_DE])))
  ∧ (read 5 None true tail_session).1
    = Raise (IncompleteReadError (concat [[]; chunk_DE]) 5)
  ∧ (read_pass 2 None true [chunk_AB] tail_session).1
    = Ret (Return (join [chunk_AB]
                     ++ take (Z.to_nat 2) (concat [[]; chunk_DE])))
  ∧ (read_pass 3 None true [chunk_AB] tail_session).1
    = Raise (IncompleteReadError (join [chunk_AB] ++ concat [[]; chunk_DE])
               (len (join [chunk_AB]) + 3))
  ∧ read_pass 3 None true [chunk_AB] idle_session
    = park_or_fail None
        (ReadFrame (3 - len (concat (@nil (list byte)))) None true
           ([chunk_AB] ++ []))
        (resumed (drained None []
                    (_recv_buf_len idle_session
                     - len (concat (@nil (list byte))))
                    idle_session))
  ∧ resume LF (ReadFrame 5 None true [chunk_AB] 0) drain_woken_session
    = as_value Some (read_pass 5 None true [chunk_AB]) drain_woken_session
  ∧ tasks (run LF (boot 64 [])
             (exact_read_run None 5 [DataReceived chunk_AB None]
                [Wake 0; DataReceived chunk_C_LF None; Wake 0;
                 DataReceived chunk_DE None]))
    = [mk_task (Read 5 None true)
         (Finished
            (if bool_decide
                  (5 ≤ len (delivered None
                              ([DataReceived chunk_AB None]
                               ++ [Wake 0; DataReceived chunk_C_LF None;
                                   Wake 0; DataReceived chunk_DE None])))
             then Ret (Some (take (Z.to_nat 5)
                               (delivered None
                                  ([DataReceived chunk_AB None]
                                   ++ [Wake 0; DataReceived chunk_C_LF None;
                                       Wake 0; DataReceived chunk_DE None]))))
             else Raise (IncompleteReadError
                           (delivered None
                              ([DataReceived chunk_AB None]
                               ++ [Wake 0; DataReceived chunk_C_LF None;
                                   Wake 0; DataReceived chunk_DE None]))
                           5)))].
Proof.
  pose proof exact_read_contract as (H1 & H2 & H3 & H4 & H5).
  split_and!.
  - refine (H1 byte _ LF 64 []
              [DataReceived chunk_AB None; EofReceived; Call (Read 5 None true)]
              0%nat 5 None (Raise (IncompleteReadError chunk_AB 5)) _ _).
    + vm_compute. reflexivity.
    + lia.
  - refine (proj1 (H2 byte _ tail_session 2 None [[]; chunk_DE] _ _) _).
    + lia.
    + vm_compute. reflexivity.
    + vm_compute. discriminate.
  - refine (proj2 (H2 byte _ tail_session 5 None [[]; chunk_DE] _ _) _ _).
    + lia.
    + vm_compute. reflexivity.
    + vm_compute. reflexivity.
    + reflexivity.
  - refine (proj1 (H3 byte _ tail_session 2 None [chunk_AB] [[]; chunk_DE]
                     _ _) _).
    + lia.
    + vm_compute. reflexivity.
    + vm_compute. discriminate.
  - refine (proj1 (proj2 (H3 byte _ tail_session 3 None [chunk_AB]
                            [[]; chunk_DE] _ _)) _ _).
    + lia.
    + vm_compute. reflexivity.
    + vm_compute. reflexivity.
    + reflexivity.
  - refine (proj2 (proj2 (H3 byte _ idle_session 3 None [chunk_AB] [] _ _))
              _ _).
    + lia.
    + vm_compute. reflexivity.
    + vm_compute. reflexivity.
    + reflexivity.
  - refine (H4 byte _ LF drain_woken_session 5 None true [chunk_AB] 0%nat _).
    reflexivity.
  - refine (H5 byte _ LF 64 [] None 5 [DataReceived chunk_AB None]
              [Wake 0; DataReceived chunk_C_LF None; Wake 0;
               DataReceived chunk_DE None] _ _ _ _).
    + by_compute.
    + lia.
    + vm_compute. reflexivity.
    + vm_compute. reflexivity.
Defined.

(** C3, as the code has it.  In [read] with [n <> 0] and in [readline], when
    the pass meets an exception object at the front of the queue: if the
    call already holds data, it stops draining, leaves the exception object
    at the head for the next call, and ends with the data -- [readline]
    returns it; [read] at EOF returns it, or, when exact and still short of
    [n], raises [IncompleteReadError] carrying it; if the call holds no data,
    the exception object is removed from the queue and raised.  [read(0)]
    returns at once and never looks at the queue.  In every interleaving,
    for each datatype, the exception objects still queued plus the calls that
    raised one number at most one, and none before EOF is flagged.  Once the
    queue is empty at EOF, non-exact reads and [readline] return the empty
    result and leave it empty. *)
Theorem queued_error_deferred_then_raised_once :
  (∀ (U : Type) (Ueq : EqDecision U) (s : session U) n dt exact
     (data pre : list (list U)) code rest,
     _recv_buf s !! dt = Some ((Data <$> pre) ++ Exc code :: rest) →
     n < 0 ∨ len (concat pre) < n → data ++ pre ≠ [] →
     _eof_received s = true →
     read_pass n dt exact data s
     = (if bool_decide (0 < n - len (concat pre)) && exact
        then Raise (IncompleteReadError (join (data ++ pre))
                      (len (join (data ++ pre)) + (n - len (concat pre))))
        else Ret (Return (join (data ++ pre))),
        resumed (drained dt (Exc code :: rest)
                   (_recv_buf_len s - len (concat pre)) s)))
  ∧ (∀ (U : Type) (Ueq : EqDecision U) (s : session U) n dt exact code rest,
       _recv_buf s !! dt = Some (Exc code :: rest) → n ≠ 0 →
       read_pass n dt exact [] s
       = (Raise (ChannelError code), drained dt rest (_recv_buf_len s) s))
  ∧ (∀ (U : Type) (Ueq : EqDecision U) (sep : U) (s : session U) dt
       (data pre : list (list U)) code rest,
       _recv_buf s !! dt = Some ((Data <$> pre) ++ Exc code :: rest) →
       Forall (λ c, sep ∉ c) pre → data ++ pre ≠ [] →
       readline_pass sep dt data s
       = (Ret (Return (join data ++ concat pre)),
          drained dt (Exc code :: rest) (_recv_buf_len s - len (concat pre)) s))
  ∧ (∀ (U : Type) (Ueq : EqDecision U) (sep : U) (s : session U) dt code rest,
       _recv_buf s !! dt = Some (Exc code :: rest) →
       readline_pass sep dt [] s
       = (Raise (ChannelError code), drained dt rest (_recv_buf_len s) s))
  ∧ (∀ (U : Type) (Ueq : EqDecision U) (s : session U) dt exact
       (data : list (list U)) q,
       _recv_buf s !! dt = Some q →
       read_pass 0 dt exact data s = (Ret (Return (join data)), resumed s))
  ∧ (∀ (U : Type) (Ueq : EqDecision U) (sep : U) recv_window read_datatypes
       (tr : list (event U)) dt,
       (queued_errors dt (sess (run sep (boot recv_window read_datatypes) tr))
        + errors_raised dt (tasks (run sep (boot recv_window read_datatypes) tr))
        ≤ error_budget (sess (run sep (boot recv_window read_datatypes) tr)))%nat
       ∧ (error_budget (sess (run sep (boot recv_window read_datatypes) tr))
          ≤ 1)%nat)
  ∧ (∀ (U : Type) (Ueq : EqDecision U) (sep : U) (s : session U) n dt
       (data : list (list U)),
       _recv_buf s !! dt = Some [] → _eof_received s = true →
       read_pass n dt false data s = (Ret (Return (join data)), resumed s)
       ∧ readline_pass sep dt data s = (Ret (Return (join data)), resumed s)).
Proof.
  split_and!.
  - intros U Ueq s n dt exact data pre code rest Hq Hn Hne Heof.
    rewrite (read_pass_defer _ _ _ _ _ _ _ _ Hq Hn Hne). cbv zeta.
    rewrite Heof, orb_true_r. by destruct (_ && _).
  - intros. by apply read_pass_raise.
  - intros. by apply readline_pass_defer.
  - intros. by apply readline_pass_raise.
  - intros. by eapply read_pass_zero.
  - intros U Ueq sep recv_window read_datatypes tr dt.
    destruct (once_inv_run sep _ tr (once_inv_boot recv_window read_datatypes))
      as (_ & _ & Hb).
    split; [apply Hb|]. unfold error_budget. destruct (_eof_received _); lia.
  - intros. split; [by apply read_pass_at_eof|by apply readline_pass_at_eof].
Qed.

Lemma queued_error_deferred_then_raised_once_witness :
  read_pass (-1) None false [] data_error_session
  = (if bool_decide (0 < -1 - len (concat [chunk_DE])) && false
     then Raise (IncompleteReadError (join ([] ++ [chunk_DE]))
                   (len (join ([] ++ [chunk_DE])) + (-1 - len (concat [chunk_DE]))))
     else Ret (Return (join ([] ++ [chunk_DE]))),
     resumed (drained None [Exc 7%N]
                (_recv_buf_len data_error_session - len (concat [chunk_DE]))
                data_error_session))
  ∧ read_pass 5 None true [] error_session
    = (Raise (ChannelError 7), drained None [] (_recv_buf_len error_session)
                                 error_session)
  ∧ readline_pass LF None [] data_error_session
    = (Ret (Return (join [] ++ concat [chunk_DE])),
       drained None [Exc 7%N]
         (_recv_buf_len data_error_session - len (concat [chunk_DE]))
         data_error_session)
  ∧ readline_pass LF None [] error_session
    = (Raise (ChannelError 7), drained None [] (_recv_buf_len error_session)
                                 error_session)
  ∧ read_pass 0 None false [] error_session
    = (Ret (Return (join [])), resumed error_session)
  ∧ (read_pass 5 None false [] drained_session
     = (Ret (Return (join [])), resumed drained_session)
     ∧ readline_pass LF None [] drained_session
       = (Ret (Return (join [])), resumed drained_session)).
Proof.
  pose proof queued_error_deferred_then_raised_once
    as (H1 & H2 & H3 & H4 & H5 & _ & H7).
  split_and!.
  - refine (H1 byte _ data_error_session (-1) None false [] [chunk_DE] 7%N []
              _ _ _ _).
    + vm_compute. reflexivity.
    + left. lia.
    + discriminate.
    + reflexivity.
  - refine (H2 byte _ error_session 5 None true 7%N [] _ _).
    + vm_compute. reflexivity.
    + lia.
  - refine (H3 byte _ LF data_error_session None [] [chunk_DE] 7%N [] _ _ _).
    + vm_compute. reflexivity.
    + forall_compute.
    + discriminate.
  - refine (H4 byte _ LF error_session None 7%N [] _).
    vm_compute. reflexivity.
  - refine (H5 byte _ error_session None false [] [Exc 7%N] _).
    vm_compute. reflexivity.
  - refine (proj1 (H7 byte _ LF drained_session 5 None [] _ _)).
    + vm_compute. reflexivity.
    + reflexivity.
  - refine (proj2 (H7 byte _ LF drained_session 5 None [] _ _)).
    + vm_compute. reflexivity.
    + reflexivity.
Defined.

(** C3 as stated fails for [read(0)]: with the exception object at the
    front of the queue and no data collected, the call returns the empty
    result and the exception object stays queued, where the claim has it
    removed and raised. *)
Lemma read_zero_keeps_queued_error :
  sess (run LF (boot 64 []) [ConnectionLost (Some 7%N)]) = error_session
  ∧ (read 0 None false error_session).1 = Ret (Return [])
  ∧ (read 0 None false error_session).1 ≠ Raise (ChannelError 7)
  ∧ _recv_buf (read 0 None false error_session).2 !! None = Some [Exc 7%N].
Proof.
  split_and!.
  - vm_compute. reflexivity.
  - vm_compute. reflexivity.
  - vm_compute. discriminate.
  - vm_compute. reflexivity.
Qed.

(** C10.  When [readline] takes a line whose separator is the last unit of
    the head chunk, a zero-length chunk stays at the head of the queue
    ([recv_buf[0] = recv_buf[0][idx:]] with nothing popped).  With that chunk
    at the head [at_eof] answers [False] at EOF, also when the chunk is all
    the queue holds, so that no unread unit remains.  The chunk adds nothing
    to any result: whatever a later [read] or [readline] returns, raises as
    partial data or keeps in its frame, together with the payload it leaves
    queued, is the payload of the chunks behind the empty one; and at EOF
    with the empty chunk alone, [readline] and any [read] of [n <> 0] units
    return the empty result and leave the queue empty.  Scenario: [b"C\n"]
    then EOF; [readline()] returns [b"C\n"], [at_eof()] is [False] with
    nothing left to read, a [read()] then returns [b""] and [at_eof()] turns
    [True]. *)
Theorem readline_leaves_empty_chunk :
  (∀ (U : Type) (Ueq : EqDecision U) (sep : U) (s : session U) dt
     (data pre : list (list U)) (a : list U) (rest : list (item U)),
     _recv_buf s !! dt = Some ((Data <$> pre) ++ Data (a ++ [sep]) :: rest) →
     Forall (λ c, sep ∉ c) pre → sep ∉ a →
     (readline_pass sep dt data s).1
       = Ret (Return (join data ++ concat pre ++ a ++ [sep]))
     ∧ _recv_buf (readline_pass sep dt data s).2 !! dt
       = Some (Data [] :: rest))
  ∧ (∀ (U : Type) (s : session U) dt (rest : list (item U)),
       _eof_received s = true →
       _recv_buf s !! dt = Some (Data [] :: rest) →
       (at_eof dt s).1 = Ret false)
  ∧ (∀ (U : Type) (Ueq : EqDecision U) (sep : U) (s : session U) dt
       (rest : list (item U)) (n : Z) (exact : bool),
       _recv_buf s !! dt = Some (Data [] :: rest) →
       _read_waiter s !! dt = Some None →
       outcome_data (read n dt exact s).1
         ++ queued_data dt (read n dt exact s).2 = queue_data rest
       ∧ outcome_data (readline sep dt s).1
           ++ queued_data dt (readline sep dt s).2 = queue_data rest)
  ∧ (∀ (U : Type) (Ueq : EqDecision U) (sep : U) (s : session U) dt (n : Z),
       _recv_buf s !! dt = Some [Data []] → _eof_received s = true →
       n ≠ 0 →
       (read n dt false s).1 = Ret (Return [])
       ∧ _recv_buf (read n dt false s).2 !! dt = Some []
       ∧ (readline sep dt s).1 = Ret (Return [])
       ∧ _recv_buf (readline sep dt s).2 !! dt = Some [])
  ∧ tasks line_consumed
    = [mk_task (Readline None) (Finished (Ret (Some chunk_C_LF)))]
  ∧ _recv_buf (sess line_consumed) !! None = Some [Data []]
  ∧ queued_data None (sess line_consumed) = []
  ∧ (at_eof None (sess line_consumed)).1 = Ret false
  ∧ tasks (step LF line_consumed (Call (Read (-1) None false)))
    = [mk_task (Readline None) (Finished (Ret (Some chunk_C_LF)));
       mk_task (Read (-1) None false) (Finished (Ret (Some [])))]
  ∧ (at_eof None (sess (step LF line_consumed (Call (Read (-1) None false))))).1
    = Ret true.
Proof.
  split_and!.
  - intros U Ueq sep s dt data pre a rest Hq Hpre Ha.
    rewrite (readline_pass_found sep s dt data pre a [] rest) by done.
    split; [done|]. cbn [snd].
    rewrite (proj1 (resumed_fields _)). apply lookup_insert_eq.
  - intros U s dt rest Heof Hq. by rewrite at_eof_eq, Heof, Hq.
  - intros U Ueq sep s dt rest n exact Hq Hslot. split.
    + destruct (read_pass_free s n dt exact [] _ Hq Hslot) as [H1 H2].
      apply (read_pass_conserves s n dt exact [] _ Hq H1 H2).
    + destruct (readline_pass_free sep s dt [] _ Hq Hslot) as [H1 H2].
      apply (readline_pass_conserves sep s dt [] _ Hq H1 H2).
  - intros U Ueq sep s dt n Hq Heof Hn. unfold read, readline.
    rewrite (readline_pass_eof sep s dt [] [[]])
      by first [done | repeat constructor; set_solver].
    rewrite (read_pass_eq _ _ _ _ _ _ Hq).
    change [Data (@nil U)] with ((Data <$> [@nil U]) ++ []).
    rewrite read_loop_skip by (change (len (concat [[]])) with 0; lia).
    cbn [read_loop]. cbv zeta. rewrite Heof, orb_true_r, andb_false_r.
    cbn [fst snd]. rewrite !(proj1 (resumed_fields _)). unfold drained. cbn.
    by rewrite !lookup_insert_eq.
  - by vm_compute.
  - by vm_compute.
  - by vm_compute.
  - by vm_compute.
  - by vm_compute.
  - by vm_compute.
Qed.

Lemma readline_leaves_empty_chunk_witness :
  ((readline_pass LF None [] last_line_session).1
     = Ret (Return (join [] ++ concat [] ++ ["C"%byte] ++ [LF]))
   ∧ _recv_buf (readline_pass LF None [] last_line_session).2 !! None
     = Some [Data []])
  ∧ (at_eof None empty_chunk_session).1 = Ret false
  ∧ (outcome_data (read (-1) None false tail_session).1
       ++ queued_data None (read (-1) None false tail_session).2
     = queue_data [Data chunk_DE]
     ∧ outcome_data (readline LF None tail_session).1
         ++ queued_data None (readline LF None tail_session).2
       = queue_data [Data chunk_DE])
  ∧ ((read (-1) None false empty_chunk_session).1 = Ret (Return [])
     ∧ _recv_buf (read (-1) None false empty_chunk_session).2 !! None
       = Some []
     ∧ (readline LF None empty_chunk_session).1 = Ret (Return [])
     ∧ _recv_buf (readline LF None empty_chunk_session).2 !! None = Some []).
Proof.
  split; [|split; [|split]].
  - refine (proj1 readline_leaves_empty_chunk byte _ LF last_line_session
              None [] [] ["C"%byte] [] _ _ _).
    + vm_compute. reflexivity.
    + forall_compute.
    + by_compute.
  - refine (proj1 (proj2 readline_leaves_empty_chunk) byte
              empty_chunk_session None [] _ _).
    + reflexivity.
    + vm_compute. reflexivity.
  - refine (proj1 (proj2 (proj2 readline_leaves_empty_chunk)) byte _
              LF tail_session None [Data chunk_DE] (-1) false _ _).
    + vm_compute. reflexivity.
    + vm_compute. reflexivity.
  - refine (proj1 (proj2 (proj2 (proj2 readline_leaves_empty_chunk))) byte _
              LF empty_chunk_session None (-1) _ _ _).
    + vm_compute. reflexivity.
    + reflexivity.
    + lia.
Defined.

(** C9.  [at_eof] tests that the queue holds no item, not that it holds no
    data.  After [data_received(b"C\n", None)], [eof_received()] and a
    [readline()] that returned [b"C\n"], EOF has been received and every
    unit delivered has been read: no payload is queued and the length
    counter is zero.  [at_eof(None)] still answers [False], because the
    zero-length rest of the chunk is in the queue. *)
Theorem at_eof_false_with_all_data_read :
  tasks line_consumed
  = [mk_task (Readline None) (Finished (Ret (Some chunk_C_LF)))]
  ∧ _eof_received (sess line_consumed) = true
  ∧ queued_data None (sess line_consumed) = []
  ∧ _recv_buf_len (sess line_consumed) = 0
  ∧ (at_eof None (sess line_consumed)).1 = Ret false.
Proof. split_and!; by vm_compute. Qed.

(** C5.  A [readline] that stops at a queued exception object returns the
    data it collected without the watermark check.  With a window of four
    units, [data_received(b"ABCDEF", None)] asks the channel to pause;
    [connection_lost(exc)] queues the exception object.  [readline()] then
    returns the six units and leaves [_recv_buf_len = 0 < 4 = _limit], yet
    [resume_reading] is not called; [read(-1)] in the same state returns the
    same six units and does call it. *)
Theorem readline_skips_resume_at_queued_error :
  chan_calls (sess paused_then_lost) = [pause_reading]
  ∧ tasks (step LF paused_then_lost (Call (Readline None)))
    = [mk_task (Readline None) (Finished (Ret (Some chunk_ABCDEF)))]
  ∧ _recv_buf_len (sess (step LF paused_then_lost (Call (Readline None)))) = 0
  ∧ _limit (sess (step LF paused_then_lost (Call (Readline None)))) = 4
  ∧ chan_calls (sess (step LF paused_then_lost (Call (Readline None))))
    = [pause_reading]
  ∧ tasks (step LF paused_then_lost (Call (Read (-1) None false)))
    = [mk_task (Read (-1) None false) (Finished (Ret (Some chunk_ABCDEF)))]
  ∧ chan_calls (sess (step LF paused_then_lost (Call (Read (-1) None false))))
    = [pause_reading; resume_reading].
Proof. split_and!; by vm_compute. Qed.

(** C6.  [drain] suspends exactly when writing is paused and the connection
    is not lost: it then parks on a fresh pending future appended to the
    drain waiters; otherwise it goes straight to the part after the
    suspension point, which is also what a woken [drain] runs.  That part
    never suspends and leaves the session as it is: with the connection lost
    it raises the error recorded by [connection_lost], or, when none was
    recorded and writing is still paused, [BrokenPipeError]; in every other
    case it returns.  A parked [drain] is woken by [resume_writing], and by
    [connection_lost] while writing is paused.  Scenarios on the event
    loop. *)
Theorem drain_suspends_while_paused :
  (∀ (U : Type) (s : session U),
     _write_paused s = true → _connection_lost s = false →
     (drain s).1 = Ret (Yield (DrainFrame (length (futures s))))
     ∧ futures s !! length (futures s) = None
     ∧ futures (drain s).2 !! length (futures s) = Some Pending
     ∧ _drain_waiters (drain s).2 = _drain_waiters s ++ [length (futures s)])
  ∧ (∀ (U : Type) (s : session U),
       _write_paused s = false ∨ _connection_lost s = true →
       drain s = drain_finish s)
  ∧ (∀ (U : Type) (Ueq : EqDecision U) (sep : U) (s : session U) w,
       futures s !! w = Some Done →
       resume sep (DrainFrame w) s = as_value (λ _, None) drain_finish s)
  ∧ (∀ (U : Type) (s : session U),
       drain_finish s
       = (match _connection_lost s, _exception s, _write_paused s with
          | true, Some e, _ => Raise (ChannelError e)
          | true, None, true => Raise BrokenPipeError
          | _, _, _ => Ret (Return tt)
          end, s))
  ∧ (∀ (U : Type) (s : session U) w,
       wf s → w ∈ _drain_waiters s → futures s !! w = Some Pending →
       futures (resume_writing s).2 !! w = Some Done
       ∧ (_write_paused s = true →
          ∀ exc, futures (connection_lost exc s).2 !! w = Some Done))
  ∧ tasks (run LF (boot 64 []) [Call Drain])
    = [mk_task Drain (Finished (Ret None))]
  ∧ tasks drain_parked = [mk_task Drain (Parked (DrainFrame 0))]
  ∧ tasks (run LF drain_parked [Wake 0]) = tasks drain_parked
  ∧ tasks (run LF drain_parked [ResumeWriting; Wake 0])
    = [mk_task Drain (Finished (Ret None))]
  ∧ tasks (run LF drain_parked [ConnectionLost (Some 7%N); Wake 0])
    = [mk_task Drain (Finished (Raise (ChannelError 7)))]
  ∧ tasks (run LF drain_parked [ConnectionLost None; Wake 0])
    = [mk_task Drain (Finished (Raise BrokenPipeError))]
  ∧ tasks (run LF (boot 64 []) [PauseWriting; ConnectionLost None; Call Drain])
    = [mk_task Drain (Finished (Raise BrokenPipeError))]
  ∧ tasks (run LF (boot 64 []) [ConnectionLost None; Call Drain])
    = [mk_task Drain (Finished (Ret None))].
Proof.
  split_and!; try by vm_compute.
  - intros U s Hwp Hlost. rewrite drain_eq, Hwp, Hlost. simpl.
    split_and!; [done| | |done].
    + apply lookup_ge_None_2. lia.
    + rewrite lookup_app_r by lia. by rewrite Nat.sub_diag.
  - intros U s Hs. rewrite drain_eq.
    by destruct Hs as [-> | ->]; [|rewrite andb_false_r].
  - intros U Ueq sep s w Hw. unfold resume. munfold. simpl. by rewrite Hw.
  - intros U s. apply drain_finish_eq.
  - intros U s w Hwf Hin Hw. split.
    + by apply resume_writing_wakes.
    + intros Hwp exc.
      by apply (proj2 (proj2 (connection_lost_wakes exc s Hwf)) Hwp).
Qed.

Lemma drain_suspends_while_paused_witness :
  ((drain paused_session).1
     = Ret (Yield (DrainFrame (length (futures paused_session))))
   ∧ futures paused_session !! length (futures paused_session) = None
   ∧ futures (drain paused_session).2 !! length (futures paused_session)
     = Some Pending
   ∧ _drain_waiters (drain paused_session).2
     = _drain_waiters paused_session ++ [length (futures paused_session)])
  ∧ drain drained_session = drain_finish drained_session
  ∧ resume LF (DrainFrame 0) drain_woken_session
    = as_value (λ _, None) drain_finish drain_woken_session
  ∧ (futures (resume_writing (sess drain_parked)).2 !! 0%nat = Some Done
     ∧ (_write_paused (sess drain_parked) = true →
        ∀ exc,
          futures (connection_lost exc (sess drain_parked)).2 !! 0%nat
          = Some Done)).
Proof.
  split; [|split; [|split]].
  - refine (proj1 drain_suspends_while_paused byte paused_session _ _);
      reflexivity.
  - refine (proj1 (proj2 drain_suspends_while_paused) byte drained_session _).
    left. reflexivity.
  - refine (proj1 (proj2 (proj2 drain_suspends_while_paused)) byte _ LF
              drain_woken_session 0%nat _).
    reflexivity.
  - refine (proj1 (proj2 (proj2 (proj2 (proj2 drain_suspends_while_paused))))
              byte (sess drain_parked) 0%nat _ _ _).
    + exact (wf_run LF (boot 64 []) [PauseWriting; Call Drain]
               (wf_connection_made 64 [])).
    + by_compute.
    + reflexivity.
Defined.

(** C7.  A [read] or [readline] that suspends leaves its fresh pending future
    in the waiter slot of its datatype.  While the slot is taken, a second
    [read] or [readline] on that datatype never suspends: it raises
    [RuntimeError] exactly when it would suspend were the slot free, and
    whatever it does the slot and all futures stay as they were.  The first
    reader is then still woken by the next [data_received] on its datatype,
    by [eof_received], and by [connection_lost] arriving before EOF.
    Scenario: [read(5)] parks; a [readline()] raises [RuntimeError] and a
    [read(0)] returns; then [b"AB"] arrives (or EOF, or an error) and the
    first reader finishes with it. *)
Theorem single_reader_per_datatype :
  (∀ (U : Type) (Ueq : EqDecision U) (sep : U) (s : session U) (n : Z) dt
     (exact : bool) (data : list (list U)) (fr : frame U),
     ((read_pass n dt exact data s).1 = Ret (Yield fr) →
      _read_waiter s !! dt = Some None
      ∧ _read_waiter (read_pass n dt exact data s).2 !! dt
        = Some (Some (waiter_of fr))
      ∧ futures s !! waiter_of fr = None
      ∧ futures (read_pass n dt exact data s).2 !! waiter_of fr
        = Some Pending)
     ∧ ((readline_pass sep dt data s).1 = Ret (Yield fr) →
        _read_waiter s !! dt = Some None
        ∧ _read_waiter (readline_pass sep dt data s).2 !! dt
          = Some (Some (waiter_of fr))
        ∧ futures s !! waiter_of fr = None
        ∧ futures (readline_pass sep dt data s).2 !! waiter_of fr
          = Some Pending))
  ∧ (∀ (U : Type) (Ueq : EqDecision U) (sep : U) (s : session U) (n : Z) dt
       (exact : bool) (data : list (list U)) (w : future),
       _read_waiter s !! dt = Some (Some w) →
       ((∀ fr, (read_pass n dt exact data s).1 ≠ Ret (Yield fr))
        ∧ _read_waiter (read_pass n dt exact data s).2 = _read_waiter s
        ∧ futures (read_pass n dt exact data s).2 = futures s
        ∧ ((read_pass n dt exact data s).1 = Raise RuntimeError
           ↔ ∃ fr, (read_pass n dt exact data (freed dt s)).1
                   = Ret (Yield fr)))
       ∧ ((∀ fr, (readline_pass sep dt data s).1 ≠ Ret (Yield fr))
          ∧ _read_waiter (readline_pass sep dt data s).2 = _read_waiter s
          ∧ futures (readline_pass sep dt data s).2 = futures s
          ∧ ((readline_pass sep dt data s).1 = Raise RuntimeError
             ↔ ∃ fr, (readline_pass sep dt data (freed dt s)).1
                     = Ret (Yield fr))))
  ∧ (∀ (U : Type) (s : session U) dt (w : future),
       wf s → _read_waiter s !! dt = Some (Some w) →
       futures s !! w = Some Pending →
       (∀ d, futures (data_received d dt s).2 !! w = Some Done)
       ∧ futures (eof_received s).2 !! w = Some Done
       ∧ (_eof_received s = false →
          ∀ exc, futures (connection_lost exc s).2 !! w = Some Done))
  ∧ tasks reader_parked
    = [mk_task (Read 5 None false) (Parked (ReadFrame 5 None false [] 0))]
  ∧ tasks (run LF reader_parked [Call (Readline None); Call (Read 0 None false)])
    = [mk_task (Read 5 None false) (Parked (ReadFrame 5 None false [] 0));
       mk_task (Readline None) (Finished (Raise RuntimeError));
       mk_task (Read 0 None false) (Finished (Ret (Some [])))]
  ∧ _read_waiter (sess (run LF reader_parked [Call (Readline None)]))
    = _read_waiter (sess reader_parked)
  ∧ futures (sess (run LF reader_parked [Call (Readline None)])) = [Pending]
  ∧ tasks (run LF reader_parked
             [Call (Readline None); DataReceived chunk_AB None; Wake 0])
    = [mk_task (Read 5 None false) (Finished (Ret (Some chunk_AB)));
       mk_task (Readline None) (Finished (Raise RuntimeError))]
  ∧ tasks (run LF reader_parked [Call (Readline None); EofReceived; Wake 0])
    = [mk_task (Read 5 None false) (Finished (Ret (Some [])));
       mk_task (Readline None) (Finished (Raise RuntimeError))]
  ∧ tasks (run LF reader_parked
             [Call (Readline None); ConnectionLost (Some 7%N); Wake 0])
    = [mk_task (Read 5 None false) (Finished (Raise (ChannelError 7)));
       mk_task (Readline None) (Finished (Raise RuntimeError))].
Proof.
  split_and!; try by vm_compute.
  - intros U Ueq sep s n dt exact data fr. split.
    + apply read_pass_yield.
    + apply readline_pass_yield.
  - intros U Ueq sep s n dt exact data w Hslot. split.
    + by apply (read_pass_busy s n dt exact data w).
    + by apply (readline_pass_busy sep s dt data w).
  - intros U s dt w Hwf Hslot Hw. split_and!.
    + intros d. by apply data_received_wakes.
    + by apply (proj2 (proj2 (proj2 (proj2 (eof_received_wakes s Hwf)))) dt).
    + intros Heof exc.
      by apply (proj1 (proj2 (connection_lost_wakes exc s Hwf)) Heof dt).
Qed.

Lemma single_reader_per_datatype_witness :
  (_read_waiter idle_session !! None = Some None
   ∧ _read_waiter (read_pass 5 None false [] idle_session).2 !! None
     = Some (Some (waiter_of (ReadFrame (U:=byte) 5 None false [] 0)))
   ∧ futures idle_session !! waiter_of (ReadFrame (U:=byte) 5 None false [] 0)
     = None
   ∧ futures (read_pass 5 None false [] idle_session).2
       !! waiter_of (ReadFrame (U:=byte) 5 None false [] 0)
     = Some Pending)
  ∧ ((∀ fr, (readline_pass LF None [] (sess reader_parked)).1
            ≠ Ret (Yield fr))
     ∧ _read_waiter (readline_pass LF None [] (sess reader_parked)).2
       = _read_waiter (sess reader_parked)
     ∧ futures (readline_pass LF None [] (sess reader_parked)).2
       = futures (sess reader_parked)
     ∧ ((readline_pass LF None [] (sess reader_parked)).1
          = Raise RuntimeError
        ↔ ∃ fr, (readline_pass LF None [] (freed None (sess reader_parked))).1
                = Ret (Yield fr)))
  ∧ ((∀ d, futures (data_received d None (sess reader_parked)).2 !! 0%nat
           = Some Done)
     ∧ futures (eof_received (sess reader_parked)).2 !! 0%nat = Some Done
     ∧ (_eof_received (sess reader_parked) = false →
        ∀ exc, futures (connection_lost exc (sess reader_parked)).2 !! 0%nat
               = Some Done)).
Proof.
  split; [|split].
  - refine (proj1 (proj1 single_reader_per_datatype byte _ LF idle_session 5
                     None false [] (ReadFrame 5 None false [] 0)) _).
    vm_compute. reflexivity.
  - refine (proj2 (proj1 (proj2 single_reader_per_datatype) byte _ LF
                     (sess reader_parked) 0 None false [] 0%nat _)).
    vm_compute. reflexivity.
  - refine (proj1 (proj2 (proj2 single_reader_per_datatype)) byte
              (sess reader_parked) None 0%nat _ _ _).
    + exact (wf_run LF (boot 64 []) [Call (Read 5 None false)]
               (wf_connection_made 64 [])).
    + vm_compute. reflexivity.
    + reflexivity.
Defined.

(** * Further properties of the stream session *)

(** X1.  Nothing is lost, duplicated or reordered for a reader that makes
    its calls one after the other.  Take any run from a fresh session in
    which data and EOF arrive at any time on a registered datatype, parked
    calls are resumed at any time, and each [read] or [readline] on that
    datatype starts once the previous one has finished.  Then what the calls
    have taken so far (returned, carried by an [IncompleteReadError], or
    held by the parked call), followed by the payload still queued, is the
    concatenation of the chunks delivered, whatever their boundaries.  When
    [at_eof] answers [True] the calls have taken all of it; and once EOF is
    flagged a [read] with a negative count returns the rest at once, after
    which [at_eof] answers [True]. *)
Theorem sequential_reader_recovers_data
    {U : Type} {Ueq : EqDecision U} (sep : U) (recv_window : Z)
    (read_datatypes : list datatype) (dt : datatype) (tr : list (event U)) :
  dt ∈ None :: read_datatypes →
  sequential sep dt (boot recv_window read_datatypes) tr = true →
  consumed (tasks (run sep (boot recv_window read_datatypes) tr))
    ++ queued_data dt (sess (run sep (boot recv_window read_datatypes) tr))
  = delivered dt tr
  ∧ ((at_eof dt (sess (run sep (boot recv_window read_datatypes) tr))).1
       = Ret true →
     consumed (tasks (run sep (boot recv_window read_datatypes) tr))
     = delivered dt tr)
  ∧ (reader_idle (run sep (boot recv_window read_datatypes) tr) = true →
     _eof_received (sess (run sep (boot recv_window read_datatypes) tr))
       = true →
     ∀ n, n < 0 →
       ∃ rest,
         tasks (step sep (run sep (boot recv_window read_datatypes) tr)
                  (Call (Read n dt false)))
         = tasks (run sep (boot recv_window read_datatypes) tr)
             ++ [mk_task (Read n dt false) (Finished (Ret (Some rest)))]
         ∧ consumed (tasks (run sep (boot recv_window read_datatypes) tr))
             ++ rest = delivered dt tr
         ∧ (at_eof dt
              (sess (step sep (run sep (boot recv_window read_datatypes) tr)
                       (Call (Read n dt false))))).1 = Ret true).
Proof.
  intros Hdt Hseq.
  pose proof (reader_inv_run sep dt [] _ tr
                (reader_inv_boot recv_window read_datatypes dt Hdt) Hseq)
    as (Hwf & Hst & Herr & Hacc).
  set (sys := run sep (boot recv_window read_datatypes) tr) in *.
  simpl in Hacc. split_and!.
  - done.
  - intros [_ Hq]%at_eof_true. rewrite <-Hacc. unfold queued_data.
    rewrite Hq. simpl. by rewrite app_nil_r.
  - intros Hidle Heof n Hn.
    destruct (reader_queue dt sys Hwf Hst) as (q & Hq & Hqd & Hqe).
    rewrite Hqe in Herr. destruct (exc_count_zero q Herr) as [ds ->].
    destruct (read_all_at_eof (sess sys) n dt false [] ds Hq Heof Hn)
      as (Hout & Hq' & Heof').
    exists (concat ds). unfold step. cbn [start]. rewrite as_value_eq.
    unfold read. destruct (read_pass n dt false [] (sess sys)) as [res s'].
    simpl in Hout, Hq', Heof'. subst res. cbn [tasks sess settle].
    split_and!; [done| |].
    + by rewrite <-Hacc, Hqd, queue_data_only.
    + apply at_eof_true. by split.
Qed.

Lemma sequential_reader_recovers_data_witness :
  consumed (tasks (run LF (boot 64 []) reader_trace))
    ++ queued_data None (sess (run LF (boot 64 []) reader_trace))
  = delivered None reader_trace
  ∧ ((at_eof None (sess (run LF (boot 64 []) reader_trace))).1 = Ret true →
     consumed (tasks (run LF (boot 64 []) reader_trace))
     = delivered None reader_trace)
  ∧ (reader_idle (run LF (boot 64 []) reader_trace) = true →
     _eof_received (sess (run LF (boot 64 []) reader_trace)) = true →
     ∀ n, n < 0 →
       ∃ rest,
         tasks (step LF (run LF (boot 64 []) reader_trace)
                  (Call (Read n None false)))
         = tasks (run LF (boot 64 []) reader_trace)
             ++ [mk_task (Read n None false) (Finished (Ret (Some rest)))]
         ∧ consumed (tasks (run LF (boot 64 []) reader_trace)) ++ rest
           = delivered None reader_trace
         ∧ (at_eof None
              (sess (step LF (run LF (boot 64 []) reader_trace)
                       (Call (Read n None false))))).1 = Ret true).
Proof.
  refine (sequential_reader_recovers_data LF 64 [] None reader_trace _ _).
  - by_compute.
  - vm_compute. reflexivity.
Defined.

(** X2.  The callbacks of the channel do not fail on a session reached by
    any run of the event loop, cancellations included: [eof_received]
    returns [True], [connection_lost] and [resume_writing] return, and
    [data_received] returns for a registered datatype.  In particular
    [set_result] is never called on a future that is done or cancelled
    ([InvalidStateError]), thanks to the [cancelled()] tests and to the
    emptying of slots and drain list.  For a datatype that is not
    registered, [data_received] raises [KeyError] and changes nothing. *)
Theorem callbacks_do_not_fail
    {U : Type} {Ueq : EqDecision U} (sep : U) (recv_window : Z)
    (read_datatypes : list datatype) (tr : list (event U)) :
  (eof_received (reached sep recv_window read_datatypes tr)).1 = Ret true
  ∧ (∀ exc,
       (connection_lost exc (reached sep recv_window read_datatypes tr)).1
       = Ret tt)
  ∧ (resume_writing (reached sep recv_window read_datatypes tr)).1 = Ret tt
  ∧ (∀ (d : list U) dt,
       data_received d dt (reached sep recv_window read_datatypes tr)
       = if bool_decide (dt ∈ None :: read_datatypes)
         then (Ret tt,
               (data_received d dt
                  (reached sep recv_window read_datatypes tr)).2)
         else (Raise (KeyError dt),
               reached sep recv_window read_datatypes tr)).
Proof.
  destruct (reached_wf sep recv_window read_datatypes tr) as [Hwf Hreg].
  set (s := reached sep recv_window read_datatypes tr) in *.
  split_and!.
  - apply (eof_received_wakes s Hwf).
  - intros exc. apply (connection_lost_wakes exc s Hwf).
  - unfold resume_writing.
    erewrite bind_ret_eq by reflexivity.
    apply unblock_drain_wf. revert Hwf. by apply wf_same.
  - intros d dt. case_bool_decide as Hdt.
    + apply Hreg in Hdt as [q Hq].
      destruct (data_received_state d dt s q Hwf Hq) as (Hret & _).
      destruct (data_received d dt s) as [res s']. simpl in *. by subst.
    + apply data_received_missing.
      destruct (_recv_buf s !! dt) as [q|] eqn:Hq; [|done].
      destruct Hdt. apply Hreg. by eexists.
Qed.

(** X3.  The datatypes are fixed by [connection_made]: on a session reached
    by any run, a datatype that the channel did not name has no queue, so
    [read], [readline] and [data_received] on it raise [KeyError] and leave
    the session as it is, and [at_eof] raises [KeyError] once EOF is flagged
    but answers [False] before (the queue is looked up only then).  On a
    registered datatype [read], [readline] and [at_eof] never raise
    [KeyError]. *)
Theorem unknown_datatype_raises_key_error
    {U : Type} {Ueq : EqDecision U} (sep : U) (recv_window : Z)
    (read_datatypes : list datatype) (tr : list (event U)) (dt : datatype) :
  (dt ∉ None :: read_datatypes →
   (∀ n exact data,
      read_pass n dt exact data (reached sep recv_window read_datatypes tr)
      = (Raise (KeyError dt), reached sep recv_window read_datatypes tr))
   ∧ (∀ data,
        readline_pass sep dt data (reached sep recv_window read_datatypes tr)
        = (Raise (KeyError dt), reached sep recv_window read_datatypes tr))
   ∧ (∀ d : list U,
        data_received d dt (reached sep recv_window read_datatypes tr)
        = (Raise (KeyError dt), reached sep recv_window read_datatypes tr))
   ∧ at_eof dt (reached sep recv_window read_datatypes tr)
     = (if _eof_received (reached sep recv_window read_datatypes tr)
        then Raise (KeyError dt) else Ret false,
        reached sep recv_window read_datatypes tr))
  ∧ (dt ∈ None :: read_datatypes →
     ∀ k,
       (∀ n exact data,
          (read_pass n dt exact data
             (reached sep recv_window read_datatypes tr)).1
          ≠ Raise (KeyError k))
       ∧ (∀ data,
            (readline_pass sep dt data
               (reached sep recv_window read_datatypes tr)).1
            ≠ Raise (KeyError k))
       ∧ (at_eof dt (reached sep recv_window read_datatypes tr)).1
         ≠ Raise (KeyError k)).
Proof.
  destruct (reached_wf sep recv_window read_datatypes tr) as [Hwf Hreg].
  set (s := reached sep recv_window read_datatypes tr) in *.
  split.
  - intros Hdt.
    assert (Hq : _recv_buf s !! dt = None).
    { destruct (_recv_buf s !! dt) as [q|] eqn:Hq; [|done].
      destruct Hdt. apply Hreg. by eexists. }
    split_and!.
    + intros n exact data. by apply read_pass_missing.
    + intros data. by apply readline_pass_missing.
    + intros d. by apply data_received_missing.
    + rewrite at_eof_eq, Hq. by destruct (_eof_received s).
  - intros Hdt%Hreg k. split_and!.
    + intros n exact data. by apply read_pass_no_key_error.
    + intros data. by apply readline_pass_no_key_error.
    + rewrite at_eof_eq. destruct Hdt as [q ->].
      by destruct (_eof_received s), q.
Qed.

Lemma unknown_datatype_raises_key_error_witness :
  ((∀ n exact data,
      read_pass n (Some 1%N) exact data (reached LF 64 [] reader_trace)
      = (Raise (KeyError (Some 1%N)), reached LF 64 [] reader_trace))
   ∧ (∀ data,
        readline_pass LF (Some 1%N) data (reached LF 64 [] reader_trace)
        = (Raise (KeyError (Some 1%N)), reached LF 64 [] reader_trace))
   ∧ (∀ d : list byte,
        data_received d (Some 1%N) (reached LF 64 [] reader_trace)
        = (Raise (KeyError (Some 1%N)), reached LF 64 [] reader_trace))
   ∧ at_eof (Some 1%N) (reached LF 64 [] reader_trace)
     = (if _eof_received (reached LF 64 [] reader_trace)
        then Raise (KeyError (Some 1%N)) else Ret false,
        reached LF 64 [] reader_trace))
  ∧ (∀ k,
       (∀ n exact data,
          (read_pass n None exact data (reached LF 64 [] reader_trace)).1
          ≠ Raise (KeyError k))
       ∧ (∀ data,
            (readline_pass LF None data (reached LF 64 [] reader_trace)).1
            ≠ Raise (KeyError k))
       ∧ (at_eof None (reached LF 64 [] reader_trace)).1
         ≠ Raise (KeyError k)).
Proof.
  split.
  - refine (proj1 (unknown_datatype_raises_key_error LF 64 [] reader_trace
                     (Some 1%N)) _).
    by_compute.
  - refine (proj2 (unknown_datatype_raises_key_error LF 64 [] reader_trace
                     None) _).
    by_compute.
Defined.

(** X4.  Flow control.  [data_received] calls [pause_reading] exactly when
    the counter, after the chunk was added, has reached the limit.  Every
    pass of [read] that gets past its inner loop, also one that then
    suspends, returns or fails, calls [resume_reading] exactly when the
    counter it leaves is below the limit; only the pass that raises a queued
    exception object makes no check.  [readline] does the same when it finds
    the separator or runs out of queue, and calls nothing when it stops at a
    queued exception object.  The limit never changes, and no other
    operation calls the channel.  Scenario with a window of ten units: a
    chunk of eight (no call), a chunk of four ([pause_reading]), a
    [read(9)] ([resume_reading]). *)
Theorem watermark_requests :
  (∀ (U : Type) (s : session U) (d : list U) dt,
     (data_received d dt s).1 = Ret tt →
     chan_calls (data_received d dt s).2
     = chan_calls s
       ++ (if bool_decide (_limit s ≤ _recv_buf_len s + len d)
           then [pause_reading] else [])
     ∧ _recv_buf_len (data_received d dt s).2 = _recv_buf_len s + len d)
  ∧ (∀ (U : Type) (s : session U) (n : Z) dt (exact : bool)
       (data : list (list U)) (q : list (item U)),
       _recv_buf s !! dt = Some q →
       _limit (read_pass n dt exact data s).2 = _limit s
       ∧ chan_calls (read_pass n dt exact data s).2
         = chan_calls s
           ++ match (read_pass n dt exact data s).1 with
              | Raise (ChannelError _) => []
              | _ => resume_check (read_pass n dt exact data s).2
              end)
  ∧ (∀ (U : Type) (Ueq : EqDecision U) (sep : U) (s : session U) dt
       (data : list (list U)) (q : list (item U)),
       _recv_buf s !! dt = Some q →
       _limit (readline_pass sep dt data s).2 = _limit s
       ∧ chan_calls (readline_pass sep dt data s).2
         = chan_calls s
           ++ match (readline_pass sep dt data s).1 with
              | Raise (ChannelError _) => []
              | Ret (Return _) =>
                  if error_at_head dt (readline_pass sep dt data s).2 then []
                  else resume_check (readline_pass sep dt data s).2
              | _ => resume_check (readline_pass sep dt data s).2
              end)
  ∧ (∀ (U : Type) (s : session U),
       chan_calls (eof_received s).2 = chan_calls s
       ∧ (∀ exc, chan_calls (connection_lost exc s).2 = chan_calls s)
       ∧ chan_calls (pause_writing s).2 = chan_calls s
       ∧ chan_calls (resume_writing s).2 = chan_calls s
       ∧ chan_calls (drain s).2 = chan_calls s
       ∧ (∀ dt, chan_calls (at_eof dt s).2 = chan_calls s))
  ∧ chan_calls (reached LF 10 [] [DataReceived chunk_8 None]) = []
  ∧ chan_calls
      (reached LF 10 [] [DataReceived chunk_8 None; DataReceived chunk_4 None])
    = [pause_reading]
  ∧ chan_calls
      (reached LF 10 []
         [DataReceived chunk_8 None; DataReceived chunk_4 None;
          Call (Read 9 None false)])
    = [pause_reading; resume_reading].
Proof.
  split_and!; try by vm_compute.
  - intros U s d dt. apply data_received_pauses.
  - intros U s n dt exact data q. apply read_pass_calls.
  - intros U Ueq sep s dt data q. apply readline_pass_calls.
  - intros U s. split_and!.
    + by apply (calls_only_eof_received (chan_calls s)).
    + intros exc. by apply (calls_only_connection_lost (chan_calls s)).
    + done.
    + by apply (calls_only_resume_writing (chan_calls s)).
    + by apply (calls_only_drain (chan_calls s)).
    + intros dt. rewrite at_eof_eq.
      by destruct (_eof_received s), (_recv_buf s !! dt) as [[|??]|].
Qed.

Lemma watermark_requests_witness :
  (chan_calls (data_received chunk_AB None idle_session).2
   = chan_calls idle_session
     ++ (if bool_decide (_limit idle_session
                         ≤ _recv_buf_len idle_session + len chunk_AB)
         then [pause_reading] else [])
   ∧ _recv_buf_len (data_received chunk_AB None idle_session).2
     = _recv_buf_len idle_session + len chunk_AB)
  ∧ (_limit (read_pass 1 None false [] line_session).2 = _limit line_session
     ∧ chan_calls (read_pass 1 None false [] line_session).2
       = chan_calls line_session
         ++ match (read_pass 1 None false [] line_session).1 with
            | Raise (ChannelError _) => []
            | _ => resume_check (read_pass 1 None false [] line_session).2
            end)
  ∧ (_limit (readline_pass LF None [] data_error_session).2
     = _limit data_error_session
     ∧ chan_calls (readline_pass LF None [] data_error_session).2
       = chan_calls data_error_session
         ++ match (readline_pass LF None [] data_error_session).1 with
            | Raise (ChannelError _) => []
            | Ret (Return _) =>
                if error_at_head None
                     (readline_pass LF None [] data_error_session).2
                then []
                else resume_check
                       (readline_pass LF None [] data_error_session).2
            | _ => resume_check (readline_pass LF None [] data_error_session).2
            end).
Proof.
  split; [|split].
  - refine (proj1 watermark_requests byte idle_session chunk_AB None _).
    vm_compute. reflexivity.
  - refine (proj1 (proj2 watermark_requests) byte line_session 1 None false
              [] [Data chunk_AB; Data chunk_C_LF; Data chunk_DE] _).
    vm_compute. reflexivity.
  - refine (proj1 (proj2 (proj2 watermark_requests)) byte _ LF
              data_error_session None [] [Data chunk_DE; Exc 7%N] _).
    vm_compute. reflexivity.
Defined.

(** X5.  How calls end, in any run of the event loop.  Every task satisfies
    [call_contract]; in particular a [read(n)] with [n >= 0] returns at most
    [n] units; a [read] with a negative count returns only once EOF is
    flagged; [IncompleteReadError] is raised only by an exact [read] of
    [n > 0] units, at EOF; [BrokenPipeError] is raised only by [drain];
    [drain] raises neither [RuntimeError] nor [KeyError]; and no call ends
    with [InvalidStateError]. *)
Theorem calls_end_as_documented
    {U : Type} {Ueq : EqDecision U} (sep : U) (recv_window : Z)
    (read_datatypes : list datatype) (tr : list (event U)) (tid : nat)
    (t : task U) :
  tasks (run sep (boot recv_window read_datatypes) tr) !! tid = Some t →
  call_contract (_eof_received (reached sep recv_window read_datatypes tr)) t
  ∧ (∀ n dt exact v,
       t = mk_task (Read n dt exact) (Finished (Ret v)) →
       ∃ buf, v = Some buf ∧ (0 ≤ n → len buf ≤ n)
         ∧ (n < 0 →
            _eof_received (reached sep recv_window read_datatypes tr) = true))
  ∧ (∀ partial expected,
       state t = Finished (Raise (IncompleteReadError partial expected)) →
       ∃ n dt, call t = Read n dt true ∧ 0 < n
         ∧ _eof_received (reached sep recv_window read_datatypes tr) = true)
  ∧ (state t = Finished (Raise BrokenPipeError) → call t = Drain)
  ∧ (call t = Drain →
     state t ≠ Finished (Raise RuntimeError)
     ∧ ∀ k, state t ≠ Finished (Raise (KeyError k)))
  ∧ state t ≠ Finished (Raise InvalidStateError).
Proof.
  intros Htid.
  pose proof (task_inv_reached sep call_contract call_contract_mono
    (call_contract_start sep) (call_contract_resume sep) call_contract_cancel
    recv_window read_datatypes tr) as Hall.
  pose proof (Forall_lookup_1 _ _ _ _ Hall Htid) as Ht.
  split; [done|]. unfold call_contract in Ht.
  destruct t as [r st]. simpl in *. split_and!.
  - intros n dt exact v ?. by simplify_eq.
  - intros partial expected ->. simpl in Ht.
    destruct r as [n dt exact|dt|]; [|done..].
    destruct Ht as (-> & ? & ?). by eexists _, _.
  - by intros ->.
  - intros ->. split; [|intros k]; by intros ->.
  - by intros ->.
Qed.

Lemma calls_end_as_documented_witness :
  call_contract (_eof_received (reached LF 64 [] reader_trace))
    (mk_task (Read 1 None false) (Finished (Ret (Some ["D"%byte]))))
  ∧ (∀ n dt exact v,
       mk_task (Read 1 None false) (Finished (Ret (Some ["D"%byte])))
       = mk_task (Read n dt exact) (Finished (Ret v)) →
       ∃ buf, v = Some buf ∧ (0 ≤ n → len buf ≤ n)
         ∧ (n < 0 → _eof_received (reached LF 64 [] reader_trace) = true))
  ∧ (∀ partial expected,
       state (mk_task (Read 1 None false) (Finished (Ret (Some ["D"%byte]))))
       = Finished (Raise (IncompleteReadError partial expected)) →
       ∃ n dt,
         call (mk_task (U:=byte) (Read 1 None false)
                 (Finished (Ret (Some ["D"%byte]))))
         = Read n dt true ∧ 0 < n
         ∧ _eof_received (reached LF 64 [] reader_trace) = true)
  ∧ (state (mk_task (Read 1 None false) (Finished (Ret (Some ["D"%byte]))))
     = Finished (Raise BrokenPipeError) →
     call (mk_task (U:=byte) (Read 1 None false)
             (Finished (Ret (Some ["D"%byte])))) = Drain)
  ∧ (call (mk_task (U:=byte) (Read 1 None false)
             (Finished (Ret (Some ["D"%byte])))) = Drain →
     state (mk_task (Read 1 None false) (Finished (Ret (Some ["D"%byte]))))
     ≠ Finished (Raise RuntimeError)
     ∧ ∀ k,
         state (mk_task (Read 1 None false)
                  (Finished (Ret (Some ["D"%byte]))))
         ≠ Finished (Raise (KeyError k)))
  ∧ state (mk_task (Read 1 None false) (Finished (Ret (Some ["D"%byte]))))
    ≠ Finished (Raise InvalidStateError).
Proof.
  refine (calls_end_as_documented LF 64 [] reader_trace 1%nat
            (mk_task (Read 1 None false) (Finished (Ret (Some ["D"%byte]))))
            _).
  vm_compute. reflexivity.
Defined.

(** X6.  [readline] never returns more than one line.  In any run of the
    event loop, what a [readline] returned holds no separator, or exactly
    one, as its last unit; and the data a parked [readline] holds has no
    separator.  A result without separator is returned only when EOF was
    flagged or when an exception object at the head of the queue stopped the
    scan. *)
Theorem readline_returns_one_line :
  (∀ (U : Type) (Ueq : EqDecision U) (sep : U) recv_window read_datatypes
     (tr : list (event U)) (tid : nat) (t : task U),
     tasks (run sep (boot recv_window read_datatypes) tr) !! tid = Some t →
     line_contract sep
       (_eof_received (reached sep recv_window read_datatypes tr)) t
     ∧ ∀ dt v, t = mk_task (Readline dt) (Finished (Ret v)) →
               ∃ buf, v = Some buf
                 ∧ (sep ∉ buf ∨ ∃ a, buf = a ++ [sep] ∧ sep ∉ a))
  ∧ (∀ (U : Type) (Ueq : EqDecision U) (sep : U) (s : session U) dt
       (data : list (list U)) (buf : list U),
       sep ∉ join data →
       (readline_pass sep dt data s).1 = Ret (Return buf) → sep ∉ buf →
       _eof_received s = true
       ∨ error_at_head dt (readline_pass sep dt data s).2 = true).
Proof.
  split.
  - intros U Ueq sep recv_window read_datatypes tr tid t Htid.
    pose proof (task_inv_reached sep (line_contract sep) (λ t H, H)
      (λ r s, line_contract_start sep r s _)
      (λ r fr s, line_contract_resume sep r fr s _)
      (λ r fr eof _, ltac:(unfold line_contract; by destruct r))
      recv_window read_datatypes tr) as Hall.
    pose proof (Forall_lookup_1 _ _ _ _ Hall Htid) as Ht.
    split; [done|]. intros dt v ->. exact Ht.
  - intros U Ueq sep s dt data buf Hdata Hout Hbuf.
    pose proof (readline_pass_line sep s dt data Hdata) as Hl.
    rewrite Hout in Hl. by apply Hl.
Qed.

Lemma readline_returns_one_line_witness :
  (line_contract LF (_eof_received (reached LF 64 [] reader_trace))
     (mk_task (Readline None) (Finished (Ret (Some (chunk_AB ++ chunk_C_LF)))))
   ∧ ∀ dt v,
       mk_task (Readline None) (Finished (Ret (Some (chunk_AB ++ chunk_C_LF))))
       = mk_task (Readline dt) (Finished (Ret v)) →
       ∃ buf, v = Some buf ∧ (LF ∉ buf ∨ ∃ a, buf = a ++ [LF] ∧ LF ∉ a))
  ∧ (_eof_received tail_session = true
     ∨ error_at_head None (readline_pass LF None [] tail_session).2 = true).
Proof.
  split.
  - refine (proj1 readline_returns_one_line byte _ LF 64 [] reader_trace 0%nat
              (mk_task (Readline None)
                 (Finished (Ret (Some (chunk_AB ++ chunk_C_LF))))) _).
    vm_compute. reflexivity.
  - refine (proj2 readline_returns_one_line byte _ LF tail_session None []
              chunk_DE _ _ _).
    + by_compute.
    + vm_compute. reflexivity.
    + by_compute.
Defined.
